(** * MooSelect: the filter language of [cow_selector_app.py]

    A shallow embedding of the filter parser of the application
    ([parse_condition], [evaluate_filter], [apply_bool_filters] and the
    "Apply Filters" handler) together with the part of Python's [str] and
    [re] and of pandas that these functions call.

    Conventions of the embedding.
    - Text is Latin-1: a Python [str] whose code points are below 256 is
      the [list ascii] of its code points.  The character classes are
      those of [str] and of [re] on [str] patterns (Unicode classes) on
      these code points.
    - A number is a rational ([Q]): the value of an [int64] or of a
      [float64].  The program never computes with numbers, it only parses
      and compares them, and it compares them as doubles: [float64] is the
      rounding to the nearest double, and the rational [2^1024] stands for
      [inf], which it compares like.  NaN is not a number of the model: a
      missing cell is [Missing].
    - A pandas [Series] carries its index labels, because pandas aligns the
      operands of [|] and [&] on their labels, not on positions.
    - A function that assigns into its [df] argument is a state transformer
      over that frame; a Python exception is an [outcome]. *)

From Stdlib Require Import Ascii String.
From Stdlib Require Import List Bool Arith Lia ZArith QArith.
From Stdlib Require DecimalString.
Import ListNotations.

Local Open Scope nat_scope.
Local Open Scope bool_scope.
Local Open Scope list_scope.

(* ================================================================== *)
(** * Python strings *)

Definition str := list ascii.

(** A string literal of the source. *)
Definition L (s : string) : str := list_ascii_of_string s.

Definition code (c : ascii) : nat := nat_of_ascii c.

Definition between (lo hi n : nat) : bool := (lo <=? n) && (n <=? hi).

(** [str.isspace], which is also [\s] of [re] on [str] patterns: TAB, LF,
    VT, FF, CR, the separators 0x1C to 0x1F, the space, and in Latin-1
    the next-line control 0x85 and the no-break space 0xA0. *)
Definition is_space (c : ascii) : bool :=
  between 9 13 (code c) || between 28 32 (code c)
  || (code c =? 133) || (code c =? 160).

(** [\d]: the decimal digits, which below 256 are [0] to [9]. *)
Definition is_digit (c : ascii) : bool := between 48 57 (code c).

(** The alphanumeric characters of Latin-1 above ASCII: the ordinal
    indicators, the micro sign, the superscript digits, the vulgar
    fractions and the accented letters (not the signs 0xD7 and 0xF7). *)
Definition is_latin1_alnum (c : ascii) : bool :=
  (code c =? 170) || between 178 179 (code c) || (code c =? 181)
  || between 185 186 (code c) || between 188 190 (code c)
  || between 192 214 (code c) || between 216 246 (code c)
  || between 248 255 (code c).

(** [\w]: the alphanumeric characters and the underscore. *)
Definition is_word (c : ascii) : bool :=
  is_digit c || between 65 90 (code c) || between 97 122 (code c)
  || (code c =? 95) || is_latin1_alnum c.

(** [.] without DOTALL: anything but a line feed. *)
Definition is_dot (c : ascii) : bool := negb (code c =? 10).

(** The class [[\d\.]]. *)
Definition is_numchar (c : ascii) : bool := is_digit c || (code c =? 46).

(** The class [[\d\., ]]: digits, dot, comma and the space. *)
Definition is_listchar (c : ascii) : bool :=
  is_digit c || (code c =? 46) || (code c =? 44) || (code c =? 32).

Definition char_eqb (a b : ascii) : bool := code a =? code b.

Fixpoint str_eqb (a b : str) : bool :=
  match a, b with
  | [], [] => true
  | x :: a', y :: b' => char_eqb x y && str_eqb a' b'
  | _, _ => false
  end.

(** Upper-casing of one ASCII letter, for [re.IGNORECASE] with the
    keywords [OR] and [AND]: no other character below 256 matches one of
    their letters. *)
Definition upper (c : ascii) : ascii :=
  if between 97 122 (code c) then ascii_of_nat (code c - 32) else c.

Fixpoint take_while (p : ascii -> bool) (s : str) : str :=
  match s with
  | [] => []
  | c :: s' => if p c then c :: take_while p s' else []
  end.

Fixpoint drop_while (p : ascii -> bool) (s : str) : str :=
  match s with
  | [] => []
  | c :: s' => if p c then drop_while p s' else s
  end.

(** [s.strip()]: whitespace removed at both ends. *)
Definition strip (s : str) : str :=
  rev (drop_while is_space (rev (drop_while is_space s))).

(** [s.startswith(p)] *)
Fixpoint startswith (p s : str) : bool :=
  match p, s with
  | [], _ => true
  | x :: p', y :: s' => char_eqb x y && startswith p' s'
  | _ :: _, [] => false
  end.

(** [s.endswith(p)] *)
Definition endswith (p s : str) : bool := startswith (rev p) (rev s).

(** [s[1:-1]] *)
Definition slice_1_m1 (s : str) : str := removelast (tl s).

(** [s.split(sep)] for a one-character separator: never the empty list. *)
Fixpoint split_char (sep : ascii) (s : str) : list str :=
  match s with
  | [] => [[]]
  | c :: s' =>
      if char_eqb c sep then [] :: split_char sep s'
      else match split_char sep s' with
           | p :: ps => (c :: p) :: ps
           | [] => [[c]]
           end
  end.

(* ------------------------------------------------------------------ *)
(** ** [float(...)] on the texts that reach it

    [float] is only ever applied to a group captured by [[\d\.]+] or to a
    stripped piece of a group captured by [[\d\., ]+]: its argument is made
    of digits, dots and inner spaces.  On such text [float] succeeds exactly
    on [digits], [digits.], [digits.digits] and [.digits]; anything else is
    a [ValueError] (here [None]).  Its value is the double nearest to the
    decimal that the text denotes. *)

Definition digit_val (c : ascii) : Z := Z.of_nat (code c - 48).

Fixpoint digits_val (acc : Z) (s : str) : Z :=
  match s with
  | [] => acc
  | c :: s' => digits_val (10 * acc + digit_val c)%Z s'
  end.

Definition nonempty {A} (l : list A) : bool :=
  match l with [] => false | _ :: _ => true end.

(** The decimal that a text accepted by [float] denotes: the digits
    without the dot, over ten to the number of digits after the dot. *)
Definition decimal (s : str) : option Q :=
  let ip := take_while is_digit s in
  match drop_while is_digit s with
  | [] => if nonempty ip then Some (digits_val 0 ip # 1) else None
  | c :: fp =>
      if (code c =? 46) && forallb is_digit fp && (nonempty ip || nonempty fp)
      then Some (digits_val 0 (ip ++ fp)
                 # Z.to_pos (10 ^ Z.of_nat (length fp)))%Q
      else None
  end.

(** [n/d] rounded to the nearest integer, a tie to the even one
    ([0 <= n], [0 < d]). *)
Definition round_half_even (n d : Z) : Z :=
  let m := (n / d)%Z in
  let r := (2 * (n mod d))%Z in
  if (r <? d)%Z then m
  else if (d <? r)%Z then (m + 1)%Z
  else if Z.even m then m else (m + 1)%Z.

(** The double nearest to [n/d] ([0 < n], [0 < d]), in IEEE 754 binary64
    with round-half-to-even: [e] is the binary exponent of [n/d], [p] the
    exponent of the last place of its 53-bit significand (of the
    subnormals below [2^-1022]).  What rounds to [2^1024] or lies above
    is [inf], for which [2^1024] stands.  The result is a fraction in
    lowest terms. *)
Definition nearest_double (n d : Z) : Q :=
  let e0 := (Z.log2 n - Z.log2 d)%Z in
  let below :=
    if (0 <=? e0)%Z then (n <? d * 2 ^ e0)%Z else (n * 2 ^ (- e0) <? d)%Z in
  let e := if below then (e0 - 1)%Z else e0 in
  if (1023 <? e)%Z then inject_Z (2 ^ 1024)
  else
    let p := (Z.max e (-1022) - 52)%Z in
    if (0 <=? p)%Z
    then inject_Z (round_half_even n (d * 2 ^ p) * 2 ^ p)
    else Qred (round_half_even (n * 2 ^ (- p)) d # Z.to_pos (2 ^ (- p)))%Q.

(** The conversion of a number to [float64]: of a decimal by [float], of
    an [int64] when numpy compares it with a double.  A double is its own
    nearest double. *)
Definition float64 (q : Q) : Q :=
  match Qnum q with
  | Z0 => 0%Q
  | Zpos _ => nearest_double (Qnum q) (Zpos (Qden q))
  | Zneg _ => Qopp (nearest_double (- Qnum q) (Zpos (Qden q)))
  end.

(** [float(s)] *)
Definition py_float (s : str) : option Q :=
  match decimal s with
  | Some q => Some (float64 q)
  | None => None
  end.

(* ================================================================== *)
(** * The fragment of [re] the program uses *)

(** Every pattern of [parse_condition] is a sequence of literals, of
    alternations of literals, and of greedy repetitions of one character
    class; parentheses only capture.  [re.match] anchors at the start of the
    text and not at its end. *)

Inductive rep := Star | Plus.

Inductive atom :=
| Cls (p : ascii -> bool) (r : rep)
| Lit (l : str)
| Alt (alts : list str).

Inductive item :=
| Plain (a : atom)
| Group (a : atom).

Definition item_atom (i : item) : atom :=
  match i with Plain a | Group a => a end.

Definition captures (i : item) : bool :=
  match i with Plain _ => false | Group _ => true end.

(** Backtracking of a greedy repetition: the longest choice first. *)
Fixpoint try_down {A} (f : nat -> option A) (lo n : nat) : option A :=
  match f (lo + n) with
  | Some r => Some r
  | None => match n with
            | 0 => None
            | S n' => try_down f lo n'
            end
  end.

(** Alternation: the alternatives in the order they are written. *)
Fixpoint first_some {A B} (f : A -> option B) (l : list A) : option B :=
  match l with
  | [] => None
  | x :: l' => match f x with
               | Some r => Some r
               | None => first_some f l'
               end
  end.

Definition rep_min (r : rep) : nat :=
  match r with Star => 0 | Plus => 1 end.

(** [re.match(pattern, s)]: [None], or the captured groups in order. *)
Fixpoint re_match (its : list item) (s : str) : option (list str) :=
  match its with
  | [] => Some []
  | i :: rest =>
      let k := fun taken : nat =>
        match re_match rest (skipn taken s) with
        | Some gs => Some (if captures i then firstn taken s :: gs else gs)
        | None => None
        end in
      match item_atom i with
      | Lit l => if startswith l s then k (length l) else None
      | Alt alts =>
          first_some (fun l => if startswith l s then k (length l) else None)
                     alts
      | Cls p r =>
          let run := length (take_while p s) in
          if run <? rep_min r then None
          else try_down k (rep_min r) (run - rep_min r)
      end
  end.

(** [m.group(i)], for [i >= 1]. *)
Definition group (gs : list str) (i : nat) : str := nth (i - 1) gs [].

(** ** [re.split(r'\bKW\b', s, flags=re.IGNORECASE)] *)

(** Does [kw] start [s], ignoring case? *)
Fixpoint prefix_ci (kw s : str) : bool :=
  match kw, s with
  | [], _ => true
  | x :: kw', y :: s' => char_eqb (upper x) (upper y) && prefix_ci kw' s'
  | _ :: _, [] => false
  end.

(** Is the character after the keyword, if any, a non-word character? *)
Definition boundary_after (kw s : str) : bool :=
  match skipn (length kw) s with
  | [] => true
  | c :: _ => negb (is_word c)
  end.

(** A whole-word occurrence of [kw] starts [s]; [prev] tells whether the
    character before [s] is a word character. *)
Definition occurs_at (kw : str) (prev : bool) (s : str) : bool :=
  negb prev && prefix_ci kw s && boundary_after kw s.

(** The scan: [skip] counts the characters of a matched keyword still to
    be passed over, [acc] is the current part, reversed. *)
Fixpoint split_aux (kw : str) (prev : bool) (skip : nat) (acc : str)
         (s : str) : list str :=
  match s with
  | [] => [rev acc]
  | c :: s' =>
      match skip with
      | S k => split_aux kw (is_word c) k acc s'
      | 0 =>
          if occurs_at kw prev s
          then rev acc :: split_aux kw (is_word c) (length kw - 1) [] s'
          else split_aux kw (is_word c) 0 (c :: acc) s'
      end
  end.

Definition re_split_word (kw : str) (s : str) : list str :=
  split_aux kw false 0 [] s.

(** The five patterns of [parse_condition], in source order. *)

(** [(\w+)\s*!=\s*([\d\., ]+)] *)
Definition pat_exclude : list item :=
  [Group (Cls is_word Plus); Plain (Cls is_space Star); Plain (Lit (L "!="));
   Plain (Cls is_space Star); Group (Cls is_listchar Plus)].

(** [(\w+)\s*=\s*([\d\., ]+)] *)
Definition pat_include : list item :=
  [Group (Cls is_word Plus); Plain (Cls is_space Star); Plain (Lit (L "="));
   Plain (Cls is_space Star); Group (Cls is_listchar Plus)].

(** [([\d\.]+)\s*<=\s*(\w+)\s*<=\s*([\d\.]+)] *)
Definition pat_range : list item :=
  [Group (Cls is_numchar Plus); Plain (Cls is_space Star);
   Plain (Lit (L "<=")); Plain (Cls is_space Star);
   Group (Cls is_word Plus); Plain (Cls is_space Star);
   Plain (Lit (L "<=")); Plain (Cls is_space Star);
   Group (Cls is_numchar Plus)].

(** [(\w+)\s*(>=|<=|=|!=|>|<)\s*([\d\.]+)] *)
Definition pat_compare : list item :=
  [Group (Cls is_word Plus); Plain (Cls is_space Star);
   Group (Alt [L ">="; L "<="; L "="; L "!="; L ">"; L "<"]);
   Plain (Cls is_space Star); Group (Cls is_numchar Plus)].

(** [(\w+)\s*=\s*(.+)] *)
Definition pat_equal : list item :=
  [Group (Cls is_word Plus); Plain (Cls is_space Star); Plain (Lit (L "="));
   Plain (Cls is_space Star); Group (Cls is_dot Plus)].

(* ================================================================== *)
(** * The fragment of pandas the program uses *)

(** A cell of the table, as [pd.read_csv] and [pd.to_numeric] produce it. *)
Inductive cell :=
| Num (q : Q)
| Text (s : str)
| Bool (b : bool)
| Missing.

(** A [Series]: values with their index labels, in row order. *)
Definition Series (A : Type) := list (nat * A).

(** A [DataFrame]: the index labels and the named columns, by position. *)
Record DataFrame := mkDF {
  index : list nat;
  columns : list (str * list cell)
}.

(** Python exceptions that the modelled code can raise. *)
Inductive exn := ValueError | KeyError | TypeError | IndexingError.

(** The result of a call: a value, an exception, or (for the fuelled
    recursion only) not enough fuel. *)
Inductive outcome (A : Type) :=
| Ok (a : A)
| Raise (e : exn)
| OutOfFuel.
Arguments Ok {A} a.
Arguments Raise {A} e.
Arguments OutOfFuel {A}.

(** [len(df)] *)
Definition len (df : DataFrame) : nat := length (index df).

(** [col in df.columns] *)
Definition has_col (df : DataFrame) (col : str) : bool :=
  existsb (fun nc => str_eqb (fst nc) col) (columns df).

Fixpoint lookup_col (cs : list (str * list cell)) (col : str)
  : option (list cell) :=
  match cs with
  | [] => None
  | (n, v) :: cs' => if str_eqb n col then Some v else lookup_col cs' col
  end.

(** [df[col]]: [None] stands for [KeyError]. *)
Definition getitem (df : DataFrame) (col : str) : option (Series cell) :=
  match lookup_col (columns df) col with
  | Some v => Some (combine (index df) v)
  | None => None
  end.

Fixpoint replace_col (cs : list (str * list cell)) (col : str)
         (v : list cell) : list (str * list cell) :=
  match cs with
  | [] => [(col, v)]
  | (n, w) :: cs' =>
      if str_eqb n col then (n, v) :: cs' else (n, w) :: replace_col cs' col v
  end.

(** [df[col] = s], for a series [s] that has the index of [df]. *)
Definition setitem (df : DataFrame) (col : str) (s : Series cell)
  : DataFrame :=
  mkDF (index df) (replace_col (columns df) col (map snd s)).

(** [pd.Series([b]*n)]: the default index [0 .. n-1]. *)
Definition const_series (b : bool) (n : nat) : Series bool :=
  map (fun i => (i, b)) (seq 0 n).

Definition smap {A B} (f : A -> B) (s : Series A) : Series B :=
  map (fun lx => (fst lx, f (snd lx))) s.

Definition labels {A} (s : Series A) : list nat := map fst s.

(** [~s] *)
Definition series_not (s : Series bool) : Series bool := smap negb s.

Fixpoint label_lookup {A} (l : nat) (s : Series A) : option A :=
  match s with
  | [] => None
  | (l', x) :: s' => if l =? l' then Some x else label_lookup l s'
  end.

Fixpoint nat_list_eqb (a b : list nat) : bool :=
  match a, b with
  | [], [] => true
  | x :: a', y :: b' => (x =? y) && nat_list_eqb a' b'
  | _, _ => false
  end.

(** The union of two increasing indexes, increasing (the outer join that
    pandas computes when it aligns two series). *)
Fixpoint merge_labels (a : list nat) : list nat -> list nat :=
  fix inner (b : list nat) : list nat :=
    match a, b with
    | [], _ => b
    | _, [] => a
    | x :: a', y :: b' =>
        if x <? y then x :: merge_labels a' b
        else if y <? x then y :: inner b'
        else x :: merge_labels a' b'
    end.

(** [a | b] and [a & b] on boolean series.  With equal indexes the
    operation is elementwise.  Otherwise pandas aligns both operands on the
    union of their labels, which leaves NaN where an operand has no value:
    a NaN on the right counts as [False], and a NaN on the left makes the
    result [False] (the operation fails on it and the hole is filled with
    [False]). *)
Definition logical_op (op : bool -> bool -> bool) (a b : Series bool)
  : Series bool :=
  if nat_list_eqb (labels a) (labels b)
  then map (fun xy => (fst (fst xy), op (snd (fst xy)) (snd (snd xy))))
           (combine a b)
  else map (fun l =>
              (l, match label_lookup l a with
                  | None => false
                  | Some x =>
                      op x (match label_lookup l b with
                            | Some y => y
                            | None => false
                            end)
                  end))
           (merge_labels (labels a) (labels b)).

Definition series_or : Series bool -> Series bool -> Series bool :=
  logical_op orb.
Definition series_and : Series bool -> Series bool -> Series bool :=
  logical_op andb.

(** The value of a boolean as a number, as Python compares it. *)
Definition bool_q (b : bool) : Q := if b then 1%Q else 0%Q.

Definition is_bool_cell (c : cell) : bool :=
  match c with Bool _ => true | _ => false end.

Definition is_float_cell (c : cell) : bool :=
  match c with Num _ | Missing => true | _ => false end.

(** A column that is all booleans, or all numbers and NaN, has a numeric
    dtype ([bool], [int64] or [float64]); any other column has the dtype
    [object]. *)
Definition numeric_dtype (v : list cell) : bool :=
  forallb is_bool_cell v || forallb is_float_cell v.

(** [s.isin(vals)] on one cell, for doubles [vals].  In a series of
    numeric dtype the cells are converted to [float64] and compared as
    doubles; in a series of dtype [object] a number or a boolean is
    compared by value, as Python compares it.  A text is never equal to a
    number, and NaN is in no list of numbers. *)
Definition isin_cell (numeric : bool) (vals : list Q) (c : cell) : bool :=
  match c with
  | Num q => existsb (Qeq_bool (if numeric then float64 q else q)) vals
  | Bool b => existsb (Qeq_bool (bool_q b)) vals
  | Text _ => false
  | Missing => false
  end.

(** [s.isin(vals)] *)
Definition isin (s : Series cell) (vals : list Q) : Series bool :=
  smap (isin_cell (numeric_dtype (map snd s)) vals) s.

(** [s == v] on one cell of a series of numeric dtype, for a double [v]:
    the cell is compared as a double. *)
Definition eq_cell (v : Q) (c : cell) : bool :=
  match c with
  | Num q => Qeq_bool (float64 q) v
  | Bool b => Qeq_bool (float64 (bool_q b)) v
  | Text _ => false
  | Missing => false
  end.

(** The ordering comparisons of one cell with a double [v]: a number is
    compared as a double, NaN compares false, and a text cannot be ordered
    against a number ([None] stands for the [TypeError]). *)
Definition ord_cell (op : Q -> Q -> bool) (v : Q) (c : cell) : option bool :=
  match c with
  | Num q => Some (op (float64 q) v)
  | Bool b => Some (op (float64 (bool_q b)) v)
  | Text _ => None
  | Missing => Some false
  end.

Definition Qgt_bool (a b : Q) : bool := negb (Qle_bool a b).
Definition Qlt_bool (a b : Q) : bool := negb (Qle_bool b a).
Definition Qge_bool (a b : Q) : bool := Qle_bool b a.

Fixpoint smap_opt {A B} (f : A -> option B) (s : Series A)
  : option (Series B) :=
  match s with
  | [] => Some []
  | (l, x) :: s' =>
      match f x, smap_opt f s' with
      | Some y, Some r => Some ((l, y) :: r)
      | _, _ => None
      end
  end.

(** [s > v], [s < v], [s >= v], [s <= v]. *)
Definition series_ord (op : Q -> Q -> bool) (s : Series cell) (v : Q)
  : outcome (Series bool) :=
  match smap_opt (ord_cell op v) s with
  | Some m => Ok m
  | None => Raise TypeError
  end.

(** [s == True] on one cell. *)
Definition eq_true_cell (c : cell) : bool :=
  match c with
  | Bool b => b
  | Num q => Qeq_bool q 1
  | Text _ => false
  | Missing => false
  end.

(** [s == ""] on one cell. *)
Definition eq_empty_cell (c : cell) : bool :=
  match c with
  | Text s => str_eqb s []
  | _ => false
  end.

(** [s.isna()] on one cell. *)
Definition isna_cell (c : cell) : bool :=
  match c with
  | Missing => true
  | _ => false
  end.

(** [df[mask]] for a boolean series: the mask is looked up at the labels
    of the frame ([IndexingError] when a label is absent from the mask) and
    the rows where it is true are kept, in order.  A series is boolean
    when it has an entry or comes from an operation on series.  The
    series [pd.Series([b]*0)] of a frame without rows has the dtype
    [object]; [df[...]] reads it as an empty list of column names, and
    that reading is not modelled. *)
Fixpoint keep_rows {A} (idx : list nat) (mask : Series bool) (v : list A)
  : list A :=
  match idx, v with
  | l :: idx', x :: v' =>
      match label_lookup l mask with
      | Some true => x :: keep_rows idx' mask v'
      | _ => keep_rows idx' mask v'
      end
  | _, _ => []
  end.

Definition getitem_mask (df : DataFrame) (mask : Series bool)
  : outcome DataFrame :=
  if forallb (fun l => match label_lookup l mask with
                       | Some _ => true
                       | None => false
                       end) (index df)
  then Ok (mkDF (keep_rows (index df) mask (index df))
                (map (fun nc => (fst nc, keep_rows (index df) mask (snd nc)))
                     (columns df)))
  else Raise IndexingError.

(* ================================================================== *)
(** * State and exceptions *)

(** A computation over a mutable state [S] that returns or raises; the
    state survives an exception. *)
Definition SM (S A : Type) := S -> outcome A * S.

Definition ret {S A} (a : A) : SM S A := fun s => (Ok a, s).

Definition raise {S A} (e : exn) : SM S A := fun s => (Raise e, s).

Definition bind {S A B} (m : SM S A) (f : A -> SM S B) : SM S B :=
  fun s =>
    match m s with
    | (Ok a, s') => f a s'
    | (Raise e, s') => (Raise e, s')
    | (OutOfFuel, s') => (OutOfFuel, s')
    end.

Definition lift {S A} (o : outcome A) : SM S A := fun s => (o, s).

Definition gets {S A} (f : S -> A) : SM S A := fun s => (Ok (f s), s).

Definition modify {S} (f : S -> S) : SM S unit := fun s => (Ok tt, f s).

Notation "x <- m ;; k" := (bind m (fun x => k))
  (at level 61, m at next level, right associativity).
Notation "m ;;; k" := (bind m (fun _ => k))
  (at level 61, right associativity).

(** Computations on the frame that a function received as [df]. *)
Definition M (A : Type) := SM DataFrame A.

(** [df[col]], raising [KeyError] for an unknown column. *)
Definition column (df : DataFrame) (col : str) : outcome (Series cell) :=
  match getitem df col with
  | Some s => Ok s
  | None => Raise KeyError
  end.

Definition read_col (col : str) : M (Series cell) :=
  fun df => (column df col, df).

(** [df[col] = s] *)
Definition assign_col (col : str) (s : Series cell) : M unit :=
  modify (fun df => setitem df col s).

(** [pd.Series([False]*len(df))] and [pd.Series([True]*len(df))] *)
Definition all_false : M (Series bool) :=
  gets (fun df => const_series false (len df)).
Definition all_true : M (Series bool) :=
  gets (fun df => const_series true (len df)).

(** [[float(v.strip()) for v in vs]]: [None] stands for [ValueError]. *)
Fixpoint float_list (vs : list str) : option (list Q) :=
  match vs with
  | [] => Some []
  | v :: vs' =>
      match py_float (strip v), float_list vs' with
      | Some q, Some qs => Some (q :: qs)
      | _, _ => None
      end
  end.

Definition float_of (s : str) : M Q :=
  match py_float s with
  | Some q => ret q
  | None => raise ValueError
  end.

Definition floats_of (vs : list str) : M (list Q) :=
  match float_list vs with
  | Some qs => ret qs
  | None => raise ValueError
  end.

(* ================================================================== *)
(** * The program *)

Section Program.

(** pandas' conversion of one text to a number inside [pd.to_numeric]
    ([None] when the text is no number, which [errors='coerce'] turns into
    NaN).  It is library code, outside the sources. *)
Variable to_numeric_str : str -> option Q.

(** The text of a numeric cell under [astype(str)]: library code too. *)
Variable str_of_num : Q -> str.

(** What [astype(str)] makes of a missing value, which depends on the
    version of the library: a text ([Some], the text [nan] before pandas
    3), or a value that is still missing and equals no text ([None]). *)
Variable str_of_missing : option str.

(** The number a cell is coerced to, if any. *)
Definition cell_num (c : cell) : option Q :=
  match c with
  | Num q => Some q
  | Bool b => Some (bool_q b)
  | Text s => to_numeric_str s
  | Missing => None
  end.

Definition coerce_cell (c : cell) : cell :=
  match cell_num c with
  | Some q => Num q
  | None => Missing
  end.

(** [pd.to_numeric(s, errors='coerce')]: a series of numeric dtype is
    returned as it is; otherwise every cell is converted. *)
Definition to_numeric (s : Series cell) : Series cell :=
  if numeric_dtype (map snd s) then s else smap coerce_cell s.

(** [str(x)] of one cell, as [astype(str)] applies it; [None] for a cell
    that is still missing after it. *)
Definition astype_str_cell (c : cell) : option str :=
  match c with
  | Num q => Some (str_of_num q)
  | Text s => Some s
  | Bool true => Some (L "True")
  | Bool false => Some (L "False")
  | Missing => str_of_missing
  end.

(** [s.astype(str) == val] on one cell: a missing value equals no text. *)
Definition str_eq_cell (val : str) (c : cell) : bool :=
  match astype_str_cell c with
  | Some s => str_eqb s val
  | None => false
  end.

(** The last shape of [parse_condition] and its final fallback (source
    lines 104 to 112). *)
Definition categorical_equality (cond : str) : M (Series bool) :=
  match re_match pat_equal cond with
  | Some m =>
      let col := group m 1 in
      let val := strip (group m 2) in
      present <- gets (fun df => has_col df col) ;;
      if negb present then all_false
      else
        s <- read_col col ;;
        ret (smap (str_eq_cell val) s)
  | None => all_false
  end.

(** [parse_condition(df, cond)] *)
Definition parse_condition (cond : str) : M (Series bool) :=
  let cond := strip cond in
  match re_match pat_exclude cond with
  | Some m =>
      let col := group m 1 in
      let vals := group m 2 in
      present <- gets (fun df => has_col df col) ;;
      if negb present then all_false
      else
        val_list <- floats_of (split_char "," vals) ;;
        s <- read_col col ;;
        ret (series_not (isin s val_list))
  | None =>
  match re_match pat_include cond with
  | Some m =>
      let col := group m 1 in
      let vals := group m 2 in
      present <- gets (fun df => has_col df col) ;;
      if negb present then all_false
      else
        val_list <- floats_of (split_char "," vals) ;;
        s <- read_col col ;;
        ret (isin s val_list)
  | None =>
  match re_match pat_range cond with
  | Some m =>
      val1 <- float_of (group m 1) ;;
      let col := group m 2 in
      val2 <- float_of (group m 3) ;;
      present <- gets (fun df => has_col df col) ;;
      if negb present then all_false
      else
        s <- read_col col ;;
        assign_col col (to_numeric s) ;;;
        s1 <- read_col col ;;
        lo <- lift (series_ord Qge_bool s1 val1) ;;
        s2 <- read_col col ;;
        hi <- lift (series_ord Qle_bool s2 val2) ;;
        ret (series_and lo hi)
  | None =>
  match re_match pat_compare cond with
  | Some m =>
      let col := group m 1 in
      let op := group m 2 in
      val <- float_of (group m 3) ;;
      present <- gets (fun df => has_col df col) ;;
      if negb present then all_false
      else
        s <- read_col col ;;
        assign_col col (to_numeric s) ;;;
        s' <- read_col col ;;
        if str_eqb op (L ">") then lift (series_ord Qgt_bool s' val)
        else if str_eqb op (L "<") then lift (series_ord Qlt_bool s' val)
        else if str_eqb op (L ">=") then lift (series_ord Qge_bool s' val)
        else if str_eqb op (L "<=") then lift (series_ord Qle_bool s' val)
        else if str_eqb op (L "=") then ret (smap (eq_cell val) s')
        else if str_eqb op (L "!=")
        then ret (smap (fun c => negb (eq_cell val c)) s')
        else categorical_equality cond
  | None => categorical_equality cond
  end end end end.

(** The loops of [evaluate_filter]: [mask = mask OP evaluate_filter(df,
    part)] for each part in turn. *)
Fixpoint accumulate (op : Series bool -> Series bool -> Series bool)
         (eval : str -> M (Series bool)) (parts : list str)
         (mask : Series bool) : M (Series bool) :=
  match parts with
  | [] => ret mask
  | part :: parts' =>
      m <- eval part ;;
      accumulate op eval parts' (op mask m)
  end.

(** The outer parentheses are removed when the text both starts with an
    opening and ends with a closing one. *)
Definition unwrap (expr : str) : str :=
  if startswith (L "(") expr && endswith (L ")") expr
  then strip (slice_1_m1 expr)
  else expr.

(** [evaluate_filter(df, expr)], with fuel for the recursion. *)
Fixpoint evaluate_filter_fuel (fuel : nat) (expr : str) : M (Series bool) :=
  match fuel with
  | 0 => lift OutOfFuel
  | S fuel' =>
      let expr := unwrap (strip expr) in
      let or_parts := re_split_word (L "OR") expr in
      if 1 <? length or_parts then
        mask <- all_false ;;
        accumulate series_or (evaluate_filter_fuel fuel') or_parts mask
      else
        let and_parts := re_split_word (L "AND") expr in
        if 1 <? length and_parts then
          mask <- all_true ;;
          accumulate series_and (evaluate_filter_fuel fuel') and_parts mask
        else parse_condition expr
  end.

(** Every recursive call is on a strictly shorter text, so this fuel is
    enough (lemma [evaluate_filter_fuel_enough]). *)
Definition evaluate_filter (expr : str) : M (Series bool) :=
  evaluate_filter_fuel (S (length expr)) expr.

(** [apply_bool_filters(df, filters)]: the loop over [filters.items()],
    in insertion order.  It does not assign into [df]. *)
Definition obind {A B} (o : outcome A) (f : A -> outcome B) : outcome B :=
  match o with
  | Ok a => f a
  | Raise e => Raise e
  | OutOfFuel => OutOfFuel
  end.

Definition BoolFilters := list (str * (bool * bool)).

Definition column_mask (df : DataFrame) (col : str) (inc_true inc_blank : bool)
  : outcome (Series bool) :=
  let col_mask := const_series false (len df) in
  obind (if inc_true
         then obind (column df col) (fun s =>
              Ok (series_or col_mask (smap eq_true_cell s)))
         else Ok col_mask) (fun col_mask =>
  if inc_blank
  then obind (column df col) (fun s =>
       obind (column df col) (fun s' =>
       Ok (series_or (series_or col_mask (smap isna_cell s))
                     (smap eq_empty_cell s'))))
  else Ok col_mask).

Fixpoint bool_filter_loop (df : DataFrame) (filters : BoolFilters)
         (mask : Series bool) : outcome (Series bool) :=
  match filters with
  | [] => Ok mask
  | (col, (inc_true, inc_blank)) :: rest =>
      obind (column_mask df col inc_true inc_blank) (fun col_mask =>
      bool_filter_loop df rest (series_and mask col_mask))
  end.

Definition apply_bool_filters (df : DataFrame) (filters : BoolFilters)
  : outcome (Series bool) :=
  bool_filter_loop df filters (const_series true (len df)).

(** ** The "Apply Filters" handler (source lines 157 to 165) *)

(** The objects of the script: a store of frames by address, the address
    bound to [df] (the upload), the one bound to
    [st.session_state.filtered_df], and the session's filter text and
    toggles. *)
Record World := mkWorld {
  heap : nat -> DataFrame;
  next_loc : nat;
  df_loc : nat;
  session_filtered_df : nat;
  filter_input : str;
  bool_cols : list str;
  bool_filters : BoolFilters
}.

Definition store (h : nat -> DataFrame) (l : nat) (d : DataFrame)
  : nat -> DataFrame :=
  fun l' => if l' =? l then d else h l'.

(** A new object holding [d]; its address is returned. *)
Definition alloc (d : DataFrame) : SM World nat :=
  fun w =>
    (Ok (next_loc w),
     mkWorld (store (heap w) (next_loc w) d) (S (next_loc w)) (df_loc w)
             (session_filtered_df w) (filter_input w) (bool_cols w)
             (bool_filters w)).

(** [obj.copy()] *)
Definition copy (l : nat) : SM World nat :=
  fun w => alloc (heap w l) w.

(** A call [f(obj, ...)] of a function that works on the object at [l]. *)
Definition call_on {A} (l : nat) (m : M A) : SM World A :=
  fun w =>
    let (r, d) := m (heap w l) in
    (r, mkWorld (store (heap w) l d) (next_loc w) (df_loc w)
                (session_filtered_df w) (filter_input w) (bool_cols w)
                (bool_filters w)).

(** [obj[mask]]: a new object. *)
Definition select (l : nat) (mask : Series bool) : SM World nat :=
  fun w =>
    match getitem_mask (heap w l) mask with
    | Ok d => alloc d w
    | Raise e => (Raise e, w)
    | OutOfFuel => (OutOfFuel, w)
    end.

Definition set_session_filtered_df (l : nat) : SM World unit :=
  modify (fun w =>
    mkWorld (heap w) (next_loc w) (df_loc w) l (filter_input w)
            (bool_cols w) (bool_filters w)).

Definition apply : SM World unit :=
  the_df <- gets df_loc ;;
  filtered_df <- copy the_df ;;
  text <- gets filter_input ;;
  filtered_df <-
    (if nonempty (strip text)
     then mask <- call_on filtered_df (evaluate_filter text) ;;
          select filtered_df mask
     else ret filtered_df) ;;
  cols <- gets bool_cols ;;
  filtered_df <-
    (if nonempty cols
     then filters <- gets bool_filters ;;
          bool_mask <- call_on filtered_df
                         (fun d => (apply_bool_filters d filters, d)) ;;
          select filtered_df bool_mask
     else ret filtered_df) ;;
  set_session_filtered_df filtered_df.

End Program.

(* ================================================================== *)
(** * Vocabulary of the statements *)

(** A column name as the patterns capture it: one or more word
    characters. *)
Definition word (s : str) : bool := nonempty s && forallb is_word s.

(** A plain number: digits with at most one dot, which [float] accepts. *)
Definition plain_number (s : str) : bool :=
  forallb is_numchar s
  && match py_float s with Some _ => true | None => false end.

(** The value of a plain number. *)
Definition number_of (s : str) : Q :=
  match py_float s with Some q => q | None => 0%Q end.

(** No whitespace at either end. *)
Definition starts_clean (s : str) : bool :=
  match s with [] => true | c :: _ => negb (is_space c) end.

Definition trimmed (s : str) : bool :=
  starts_clean s && starts_clean (rev s).

(** [sep.join(parts)] *)
Fixpoint join (sep : str) (parts : list str) : str :=
  match parts with
  | [] => []
  | [p] => p
  | p :: ps => p ++ sep ++ join sep ps
  end.

(** A frame as [pd.read_csv] returns it: the default index [0 .. n-1], and
    every column as long as the index. *)
Definition columns_ok (df : DataFrame) : Prop :=
  Forall (fun nc => length (snd nc) = len df) (columns df).

Definition loaded (df : DataFrame) : Prop :=
  index df = seq 0 (len df) /\ columns_ok df.

(** No whole-word occurrence of [kw] starts at any position of [s]. *)
Fixpoint no_occ (kw : str) (prev : bool) (s : str) : bool :=
  match s with
  | [] => true
  | c :: s' => negb (occurs_at kw prev s) && no_occ kw (is_word c) s'
  end.

(** An atomic condition text: not empty, trimmed, without the whole words
    [OR] and [AND], and not opening with a parenthesis. *)
Definition atomic (s : str) : bool :=
  nonempty s && trimmed s
  && no_occ (L "OR") false s && no_occ (L "AND") false s
  && negb (startswith (L "(") s).

(** The value of a mask at a row position. *)
Definition mask_at (m : Series bool) (i : nat) : option bool :=
  option_map snd (nth_error m i).

(** The cell of a column at a row position. *)
Definition cell_at (df : DataFrame) (col : str) (i : nat) : option cell :=
  match lookup_col (columns df) col with
  | Some v => nth_error v i
  | None => None
  end.

(** The column [df[col]] has a numeric dtype. *)
Definition numeric_column (df : DataFrame) (col : str) : bool :=
  match getitem df col with
  | Some s => numeric_dtype (map snd s)
  | None => false
  end.

(** The conditions of an expression: the texts at the leaves of the
    splits of [evaluate_filter], which are the texts that it passes to
    [parse_condition] (source line 132) unless an earlier one raises. *)
Fixpoint conditions_fuel (fuel : nat) (expr : str) : list str :=
  match fuel with
  | 0 => []
  | S fuel' =>
      let expr := unwrap (strip expr) in
      let or_parts := re_split_word (L "OR") expr in
      if 1 <? length or_parts then flat_map (conditions_fuel fuel') or_parts
      else
        let and_parts := re_split_word (L "AND") expr in
        if 1 <? length and_parts
        then flat_map (conditions_fuel fuel') and_parts
        else [expr]
  end.

Definition conditions (expr : str) : list str :=
  conditions_fuel (S (length expr)) expr.

(* ================================================================== *)
(** * Characters and strings *)

Definition all_ascii (f : ascii -> bool) : bool :=
  forallb (fun n => f (ascii_of_nat n)) (seq 0 256).

Lemma all_ascii_spec (f : ascii -> bool) :
  all_ascii f = true -> forall c, f c = true.
Proof.
  unfold all_ascii. intros H c.
  rewrite forallb_forall in H.
  rewrite <- (ascii_nat_embedding c).
  apply H. apply in_seq. pose proof (nat_ascii_bounded c). lia.
Qed.

Lemma code_inj a b : code a = code b -> a = b.
Proof.
  unfold code. intros H.
  rewrite <- (ascii_nat_embedding a), <- (ascii_nat_embedding b).
  now rewrite H.
Qed.

Lemma char_eqb_eq a b : char_eqb a b = true <-> a = b.
Proof.
  unfold char_eqb. rewrite Nat.eqb_eq. split.
  - apply code_inj.
  - now intros ->.
Qed.

Lemma char_eqb_refl a : char_eqb a a = true.
Proof. now apply char_eqb_eq. Qed.

Lemma str_eqb_eq a b : str_eqb a b = true <-> a = b.
Proof.
  revert b. induction a as [|x a IH]; intros [|y b]; simpl;
    try (split; intro; congruence).
  rewrite andb_true_iff, char_eqb_eq, IH.
  split; [intros [-> ->]; reflexivity | intros H; inversion H; auto].
Qed.

Lemma str_eqb_refl a : str_eqb a a = true.
Proof. now apply str_eqb_eq. Qed.

Lemma word_not_space c : is_word c = true -> is_space c = false.
Proof.
  intros H.
  pose proof (all_ascii_spec
    (fun c => implb (is_word c) (negb (is_space c))) eq_refl c) as A.
  simpl in A. rewrite H in A. simpl in A. now destruct (is_space c).
Qed.

Lemma numchar_not_space c : is_numchar c = true -> is_space c = false.
Proof.
  intros H.
  pose proof (all_ascii_spec
    (fun c => implb (is_numchar c) (negb (is_space c))) eq_refl c) as A.
  simpl in A. rewrite H in A. simpl in A. now destruct (is_space c).
Qed.

Lemma numchar_listchar c : is_numchar c = true -> is_listchar c = true.
Proof.
  unfold is_numchar, is_listchar. intros H.
  apply orb_true_iff in H as [-> | ->]; simpl; auto using orb_true_r.
  now rewrite orb_true_r.
Qed.

Lemma startswith_app p t : startswith p (p ++ t) = true.
Proof.
  induction p as [|x p IH]; simpl; auto.
  now rewrite char_eqb_refl.
Qed.

Lemma startswith_split p s :
  startswith p s = true -> s = p ++ skipn (length p) s.
Proof.
  revert s. induction p as [|x p IH]; intros [|y s]; simpl; auto;
    try discriminate.
  rewrite andb_true_iff, char_eqb_eq. intros [-> H]. f_equal. auto.
Qed.

Lemma startswith_head x p c s :
  startswith (x :: p) (c :: s) = true -> x = c.
Proof.
  simpl. rewrite andb_true_iff, char_eqb_eq. tauto.
Qed.

(** ** [take_while] and [drop_while] *)

(** [t] does not continue a run of [p]. *)
Definition stops (p : ascii -> bool) (t : str) : Prop :=
  match t with [] => True | c :: _ => p c = false end.

Lemma take_drop p s : take_while p s ++ drop_while p s = s.
Proof.
  induction s as [|c s IH]; simpl; auto.
  destruct (p c); simpl; congruence.
Qed.

Lemma take_while_all p s : forallb p (take_while p s) = true.
Proof.
  induction s as [|c s IH]; simpl; auto.
  destruct (p c) eqn:E; simpl; auto. now rewrite E.
Qed.

Lemma drop_while_stops p s : stops p (drop_while p s).
Proof.
  induction s as [|c s IH]; simpl; auto.
  destruct (p c) eqn:E; simpl; auto.
Qed.

Lemma take_while_app p w t :
  forallb p w = true -> stops p t -> take_while p (w ++ t) = w.
Proof.
  induction w as [|c w IH]; simpl; intros Hw Ht.
  - destruct t as [|d t]; simpl in *; auto. now rewrite Ht.
  - apply andb_true_iff in Hw as [-> Hw]. f_equal. auto.
Qed.

Lemma drop_while_app p w t :
  forallb p w = true -> stops p t -> drop_while p (w ++ t) = t.
Proof.
  induction w as [|c w IH]; simpl; intros Hw Ht.
  - destruct t as [|d t]; simpl in *; auto. now rewrite Ht.
  - apply andb_true_iff in Hw as [-> Hw]. auto.
Qed.

Lemma drop_while_id p s : stops p s -> drop_while p s = s.
Proof. destruct s as [|c s]; simpl; auto. now intros ->. Qed.

Lemma drop_while_length p s : length (drop_while p s) <= length s.
Proof.
  induction s as [|c s IH]; simpl; auto.
  destruct (p c); simpl; lia.
Qed.

(** ** [strip] *)

Lemma starts_clean_stops s : starts_clean s = true <-> stops is_space s.
Proof.
  destruct s as [|c s]; simpl; [tauto|].
  destruct (is_space c); simpl; split; congruence.
Qed.

Lemma strip_trimmed s : trimmed s = true -> strip s = s.
Proof.
  unfold trimmed, strip. rewrite andb_true_iff, !starts_clean_stops.
  intros [H1 H2].
  rewrite (drop_while_id _ _ H1), (drop_while_id _ _ H2).
  apply rev_involutive.
Qed.

Lemma strip_length s : length (strip s) <= length s.
Proof.
  unfold strip. rewrite length_rev.
  etransitivity; [apply drop_while_length|].
  rewrite length_rev. apply drop_while_length.
Qed.

Lemma drop_while_rev_clean p s :
  stops p s -> stops p (rev (drop_while p (rev s))).
Proof.
  intros Hs. destruct s as [|c s]; [exact I|].
  simpl in Hs. simpl rev.
  assert (G : forall u, exists v, drop_while p (u ++ [c]) = v ++ [c]).
  { induction u as [|d u IH]; simpl.
    - rewrite Hs. now exists [].
    - destruct (p d); auto. now exists (d :: u). }
  destruct (G (rev s)) as [v ->].
  rewrite rev_app_distr. simpl. exact Hs.
Qed.

Lemma strip_is_trimmed s : trimmed (strip s) = true.
Proof.
  unfold trimmed, strip. rewrite andb_true_iff, !starts_clean_stops.
  split.
  - apply drop_while_rev_clean, drop_while_stops.
  - rewrite rev_involutive. apply drop_while_stops.
Qed.

Lemma strip_idem s : strip (strip s) = strip s.
Proof. apply strip_trimmed, strip_is_trimmed. Qed.

(* ================================================================== *)
(** * The matcher *)

Lemma try_down_first {A} (f : nat -> option A) lo n r :
  f (lo + n) = Some r -> try_down f lo n = Some r.
Proof. destruct n; simpl; now intros ->. Qed.

Lemma try_down_none {A} (f : nat -> option A) lo n :
  (forall k, lo <= k <= lo + n -> f k = None) -> try_down f lo n = None.
Proof.
  induction n as [|n IH]; simpl; intros H.
  - rewrite H by lia. reflexivity.
  - rewrite H by lia. apply IH. intros k Hk. apply H. lia.
Qed.

Lemma try_down_some {A} (f : nat -> option A) lo n r :
  try_down f lo n = Some r -> exists k, lo <= k <= lo + n /\ f k = Some r.
Proof.
  induction n as [|n IH]; simpl.
  - destruct (f (lo + 0)) eqn:E; [|discriminate].
    intros [= <-]. exists (lo + 0). split; [lia|auto].
  - destruct (f (lo + S n)) eqn:E.
    + intros [= <-]. exists (lo + S n). split; [lia|auto].
    + intros H. destruct (IH H) as (k & Hk & Hf). exists k. split; [lia|auto].
Qed.

Lemma first_some_some {A B} (f : A -> option B) l r :
  first_some f l = Some r -> exists x, In x l /\ f x = Some r.
Proof.
  induction l as [|x l IH]; simpl; [discriminate|].
  destruct (f x) eqn:E.
  - intros [= <-]. eauto.
  - intros H. destruct (IH H) as (y & Hy & Hf). eauto.
Qed.

(** What is left of the match once the item [i] has taken [taken]
    characters of [s]. *)
Definition after (i : item) (rest : list item) (s : str) (taken : nat)
  : option (list str) :=
  match re_match rest (skipn taken s) with
  | Some gs => Some (if captures i then firstn taken s :: gs else gs)
  | None => None
  end.

Lemma re_match_cons i rest s :
  re_match (i :: rest) s =
  match item_atom i with
  | Lit l => if startswith l s then after i rest s (length l) else None
  | Alt alts =>
      first_some (fun l => if startswith l s
                           then after i rest s (length l) else None) alts
  | Cls p r =>
      let run := length (take_while p s) in
      if run <? rep_min r then None
      else try_down (after i rest s) (rep_min r) (run - rep_min r)
  end.
Proof. reflexivity. Qed.

Lemma after_app i rest w t :
  after i rest (w ++ t) (length w) =
  match re_match rest t with
  | Some gs => Some (if captures i then w :: gs else gs)
  | None => None
  end.
Proof.
  unfold after.
  rewrite skipn_app, skipn_all, Nat.sub_diag, firstn_app, firstn_all,
    Nat.sub_diag. simpl. now rewrite app_nil_r.
Qed.

(** A literal that starts the text is consumed. *)
Lemma re_match_lit i rest l t :
  item_atom i = Lit l ->
  re_match (i :: rest) (l ++ t) =
  match re_match rest t with
  | Some gs => Some (if captures i then l :: gs else gs)
  | None => None
  end.
Proof.
  intros Hi. rewrite re_match_cons, Hi, startswith_app. apply after_app.
Qed.

Lemma re_match_lit_no i rest l s :
  item_atom i = Lit l -> startswith l s = false ->
  re_match (i :: rest) s = None.
Proof. intros Hi H. now rewrite re_match_cons, Hi, H. Qed.

(** The greedy choice of a repetition, when the rest then matches. *)
Lemma re_match_greedy i rest p r w t gs :
  item_atom i = Cls p r ->
  forallb p w = true -> stops p t -> rep_min r <= length w ->
  re_match rest t = Some gs ->
  re_match (i :: rest) (w ++ t) = Some (if captures i then w :: gs else gs).
Proof.
  intros Hi Hw Ht Hmin Hrest.
  rewrite re_match_cons, Hi. cbv zeta.
  rewrite (take_while_app _ _ _ Hw Ht).
  destruct (Nat.ltb_spec (length w) (rep_min r)); [lia|].
  apply try_down_first.
  replace (rep_min r + (length w - rep_min r)) with (length w) by lia.
  now rewrite after_app, Hrest.
Qed.

(** [rest] cannot match a text that starts with a character of [p]. *)
Definition rejects (p : ascii -> bool) (rest : list item) : Prop :=
  forall c t, p c = true -> re_match rest (c :: t) = None.

Lemma skipn_take_while_head p s k :
  k < length (take_while p s) ->
  exists c t, skipn k s = c :: t /\ p c = true.
Proof.
  revert k. induction s as [|d s IH]; simpl; intros k Hk; [lia|].
  destruct (p d) eqn:E; simpl in Hk; [|lia].
  destruct k as [|k]; simpl; eauto.
  apply IH. lia.
Qed.

(** When what follows a repetition cannot start inside its run, the
    repetition never gives a character back: matching is greedy only. *)
Lemma re_match_det i rest p r w t :
  item_atom i = Cls p r -> rejects p rest ->
  forallb p w = true -> stops p t ->
  re_match (i :: rest) (w ++ t) =
  if length w <? rep_min r then None
  else match re_match rest t with
       | Some gs => Some (if captures i then w :: gs else gs)
       | None => None
       end.
Proof.
  intros Hi Hrej Hw Ht.
  rewrite re_match_cons, Hi. cbv zeta.
  rewrite (take_while_app _ _ _ Hw Ht).
  destruct (Nat.ltb_spec (length w) (rep_min r)) as [|Hmin]; [reflexivity|].
  destruct (re_match rest t) as [gs|] eqn:Hrest.
  - apply try_down_first.
    replace (rep_min r + (length w - rep_min r)) with (length w) by lia.
    now rewrite after_app, Hrest.
  - apply try_down_none. intros k Hk.
    destruct (Nat.eq_dec k (length w)) as [->|Hne].
    + now rewrite after_app, Hrest.
    + unfold after.
      destruct (skipn_take_while_head p (w ++ t) k) as (c & u & -> & Hc).
      { rewrite (take_while_app _ _ _ Hw Ht). lia. }
      now rewrite (Hrej c u Hc).
Qed.

Lemma rejects_lit p i rest x l :
  item_atom i = Lit (x :: l) -> p x = false -> rejects p (i :: rest).
Proof.
  intros Hi Hx c t Hc. apply (re_match_lit_no _ _ _ _ Hi).
  destruct (startswith (x :: l) (c :: t)) eqn:E; auto.
  apply startswith_head in E. congruence.
Qed.

Lemma rejects_star p i rest q :
  item_atom i = Cls q Star -> (forall c, p c = true -> q c = false) ->
  rejects p rest -> rejects p (i :: rest).
Proof.
  intros Hi D R c t Hc. rewrite re_match_cons, Hi. simpl.
  rewrite (D c Hc). simpl. unfold after. simpl. now rewrite (R c t Hc).
Qed.

Lemma rejects_alt p i rest alts :
  item_atom i = Alt alts ->
  Forall (fun l => match l with [] => False | x :: _ => p x = false end)
         alts ->
  rejects p (i :: rest).
Proof.
  intros Hi F c t Hc. rewrite re_match_cons, Hi. clear Hi.
  induction F as [|l alts Hl F IH]; simpl; auto.
  destruct l as [|x l]; [contradiction|].
  destruct (startswith (x :: l) (c :: t)) eqn:E.
  - apply startswith_head in E. congruence.
  - exact IH.
Qed.

(** ** Counting the characters that the literals of a pattern need *)

Definition count_char (c : ascii) (s : str) : nat :=
  length (filter (char_eqb c) s).

Fixpoint lit_count (c : ascii) (its : list item) : nat :=
  match its with
  | [] => 0
  | i :: rest =>
      match item_atom i with
      | Lit l => count_char c l + lit_count c rest
      | _ => lit_count c rest
      end
  end.

Lemma count_char_app c a b :
  count_char c (a ++ b) = count_char c a + count_char c b.
Proof. unfold count_char. now rewrite filter_app, length_app. Qed.

Lemma count_char_skipn c k s : count_char c (skipn k s) <= count_char c s.
Proof.
  rewrite <- (firstn_skipn k s) at 2. rewrite count_char_app. lia.
Qed.

(** A text that a pattern matches holds every character of the pattern's
    literals, as often as they do. *)
Lemma re_match_count c its : forall s gs,
  re_match its s = Some gs -> lit_count c its <= count_char c s.
Proof.
  induction its as [|i rest IH]; intros s gs; [simpl; lia|].
  rewrite re_match_cons. simpl lit_count.
  assert (K : forall k r, after i rest s k = Some r ->
                          lit_count c rest <= count_char c (skipn k s)).
  { unfold after. intros k r. destruct (re_match rest (skipn k s)) eqn:E;
      [|discriminate]. intros _. eapply IH; eauto. }
  destruct (item_atom i) as [p r|l|alts].
  - cbv zeta. destruct (_ <? _); [discriminate|]. intros H.
    apply try_down_some in H as (k & _ & Hk). apply K in Hk.
    pose proof (count_char_skipn c k s). lia.
  - destruct (startswith l s) eqn:E; [|discriminate]. intros H.
    apply K in H. rewrite (startswith_split _ _ E) at 1.
    rewrite count_char_app. lia.
  - intros H. apply first_some_some in H as (l & _ & Hl).
    destruct (startswith l s); [|discriminate].
    apply K in Hl. pose proof (count_char_skipn c (length l) s). lia.
Qed.

Lemma re_match_needs c its s :
  count_char c s < lit_count c its -> re_match its s = None.
Proof.
  intros H. destruct (re_match its s) eqn:E; auto.
  apply (re_match_count c) in E. lia.
Qed.

Lemma count_char_none c s (p : ascii -> bool) :
  forallb p s = true -> p c = false -> count_char c s = 0.
Proof.
  unfold count_char. induction s as [|d s IH]; simpl; auto.
  rewrite andb_true_iff. intros [Hd Hs] Hc.
  destruct (char_eqb c d) eqn:E; auto.
  apply char_eqb_eq in E. congruence.
Qed.

(** ** The common head [(\w+)\s*] of four of the patterns *)

Lemma word_parts col :
  word col = true -> col <> [] /\ forallb is_word col = true.
Proof.
  unfold word. rewrite andb_true_iff. intros [H1 H2]. split; auto.
  destruct col; simpl in *; congruence.
Qed.

Lemma word_length col : word col = true -> 1 <= length col.
Proof.
  unfold word. destruct col; simpl; [discriminate|]. intros _. lia.
Qed.

Lemma stops_app p ws t :
  stops p t -> (forall c, In c ws -> p c = false) -> stops p (ws ++ t).
Proof.
  intros Ht Hws. destruct ws as [|c ws]; simpl; auto.
  apply Hws. now left.
Qed.

Lemma spaces_not_word ws :
  forallb is_space ws = true -> forall c, In c ws -> is_word c = false.
Proof.
  intros H c Hc. rewrite forallb_forall in H. specialize (H c Hc).
  destruct (is_word c) eqn:E; auto.
  apply word_not_space in E. congruence.
Qed.

Lemma re_match_head rest col ws t :
  rejects is_word rest -> rejects is_space rest ->
  word col = true -> forallb is_space ws = true ->
  stops is_space t -> stops is_word t ->
  re_match (Group (Cls is_word Plus) :: Plain (Cls is_space Star) :: rest)
           (col ++ ws ++ t) =
  match re_match rest t with
  | Some gs => Some (col :: gs)
  | None => None
  end.
Proof.
  intros Rw Rs Hc Hws Hts Htw.
  destruct (word_parts _ Hc) as [_ Hall].
  rewrite (re_match_det (Group (Cls is_word Plus)) _ is_word Plus col
             (ws ++ t) eq_refl); auto.
  - pose proof (word_length _ Hc).
    destruct (Nat.ltb_spec (length col) (rep_min Plus)); [simpl in *; lia|].
    rewrite (re_match_det (Plain (Cls is_space Star)) _ is_space Star ws t
               eq_refl); auto.
    simpl. now destruct (re_match rest t).
  - eapply rejects_star; [reflexivity| |exact Rw].
    intros c. apply word_not_space.
  - apply stops_app; auto. now apply spaces_not_word.
Qed.

(** A class repetition that closes the pattern takes its whole run. *)
Lemma re_match_last_group p w t :
  forallb p w = true -> stops p t -> 1 <= length w ->
  re_match [Group (Cls p Plus)] (w ++ t) = Some [w].
Proof.
  intros Hw Ht Hl.
  now rewrite (re_match_greedy (Group (Cls p Plus)) [] p Plus w t []
                 eq_refl Hw Ht Hl eq_refl).
Qed.

(** [\s*] before a closing class repetition, on a text whose whitespace
    run is followed at once by a character of the class. *)
Lemma re_match_space_group p ws w t :
  forallb is_space ws = true -> forallb p w = true ->
  stops is_space (w ++ t) -> stops p t -> 1 <= length w ->
  re_match [Plain (Cls is_space Star); Group (Cls p Plus)] (ws ++ w ++ t)
  = Some [w].
Proof.
  intros Hws Hw Hs Ht Hl.
  rewrite (re_match_greedy (Plain (Cls is_space Star)) _ is_space Star ws
             (w ++ t) [w] eq_refl);
    simpl; auto; try lia.
  now apply re_match_last_group.
Qed.

(* ================================================================== *)
(** * Series and frames *)

Lemma labels_smap {A B} (f : A -> B) s : labels (smap f s) = labels s.
Proof. unfold labels, smap. rewrite map_map. reflexivity. Qed.

Lemma length_smap {A B} (f : A -> B) s : length (smap f s) = length s.
Proof. unfold smap. apply length_map. Qed.

Lemma nat_list_eqb_refl a : nat_list_eqb a a = true.
Proof. induction a; simpl; auto. now rewrite Nat.eqb_refl. Qed.

Lemma logical_op_same op a b :
  labels a = labels b ->
  logical_op op a b =
  map (fun xy => (fst (fst xy), op (snd (fst xy)) (snd (snd xy))))
      (combine a b).
Proof.
  intros H. unfold logical_op. now rewrite H, nat_list_eqb_refl.
Qed.

Lemma combine_same_map {A B C} (f : A -> B) (g : A -> C) (s : list A) :
  combine (map f s) (map g s) = map (fun x => (f x, g x)) s.
Proof. induction s; simpl; congruence. Qed.

(** On two masks computed cell by cell from one series, [|] and [&] are
    cell by cell. *)
Lemma logical_op_smap {A} op (f g : A -> bool) (s : Series A) :
  logical_op op (smap f s) (smap g s) = smap (fun c => op (f c) (g c)) s.
Proof.
  rewrite logical_op_same by now rewrite !labels_smap.
  unfold smap. rewrite combine_same_map, map_map. reflexivity.
Qed.

Lemma labels_logical_op_same op a b :
  labels a = labels b -> labels (logical_op op a b) = labels a.
Proof.
  intros H. rewrite logical_op_same by auto.
  unfold labels in *. rewrite map_map. simpl.
  revert b H. induction a as [|[l x] a IH]; intros [|[l' y] b]; simpl;
    try discriminate; auto.
  intros [= -> H]. f_equal. auto.
Qed.

Lemma labels_const b n : labels (const_series b n) = seq 0 n.
Proof.
  unfold labels, const_series. rewrite map_map. simpl. apply map_id.
Qed.

(** The seed of a loop of [evaluate_filter] is neutral on a mask that has
    the default index. *)
Lemma series_or_seed n m :
  labels m = seq 0 n -> series_or (const_series false n) m = m.
Proof.
  intros H. unfold series_or.
  rewrite logical_op_same by now rewrite labels_const.
  unfold const_series, labels in *. rewrite <- H. clear H.
  induction m as [|[l x] m IH]; simpl; auto. now rewrite IH.
Qed.

Lemma series_and_seed n m :
  labels m = seq 0 n -> series_and (const_series true n) m = m.
Proof.
  intros H. unfold series_and.
  rewrite logical_op_same by now rewrite labels_const.
  unfold const_series, labels in *. rewrite <- H. clear H.
  induction m as [|[l x] m IH]; simpl; auto. now rewrite IH.
Qed.

Lemma lookup_replace cs col v :
  lookup_col (replace_col cs col v) col = Some v.
Proof.
  induction cs as [|[n w] cs IH]; simpl.
  - now rewrite str_eqb_refl.
  - destruct (str_eqb n col) eqn:E; simpl; now rewrite E.
Qed.

Lemma has_col_lookup df col :
  has_col df col = true -> exists v, lookup_col (columns df) col = Some v.
Proof.
  unfold has_col. induction (columns df) as [|[n w] cs IH]; simpl;
    [discriminate|].
  destruct (str_eqb n col); simpl; eauto.
Qed.

Lemma lookup_has_col df col v :
  lookup_col (columns df) col = Some v -> has_col df col = true.
Proof.
  unfold has_col. induction (columns df) as [|[n w] cs IH]; simpl;
    [discriminate|].
  destruct (str_eqb n col); simpl; auto.
Qed.

Lemma combine_reread {A B} (f : A -> B) (idx : list nat) (v : list A) :
  combine idx (map snd (smap f (combine idx v))) = smap f (combine idx v).
Proof.
  revert v. induction idx as [|l idx IH]; intros [|x v]; simpl; auto.
  now rewrite IH.
Qed.

Lemma combine_reread_id {A} (idx : list nat) (v : list A) :
  combine idx (map snd (combine idx v)) = combine idx v.
Proof.
  revert v. induction idx as [|l idx IH]; intros [|x v]; simpl; auto.
  now rewrite IH.
Qed.

Lemma mask_at_smap {A} (f : A -> bool) idx (v : list A) i x :
  nth_error v i = Some x -> i < length idx ->
  mask_at (smap f (combine idx v)) i = Some (f x).
Proof.
  unfold mask_at. revert v i.
  induction idx as [|l idx IH]; intros [|y v] [|i]; simpl;
    try discriminate; try lia.
  - now intros [= ->].
  - intros H Hi. apply IH; auto. lia.
Qed.

(* ================================================================== *)
(** * [parse_condition], shape by shape *)

Section Theory.

Variable to_numeric_str : str -> option Q.
Variable str_of_num : Q -> str.
Variable str_of_missing : option str.

Local Abbreviation cell_num := (cell_num to_numeric_str).
Local Abbreviation coerce_cell := (coerce_cell to_numeric_str).
Local Abbreviation to_numeric := (to_numeric to_numeric_str).
Local Abbreviation astype_str_cell :=
  (astype_str_cell str_of_num str_of_missing).
Local Abbreviation str_eq_cell := (str_eq_cell str_of_num str_of_missing).
Local Abbreviation categorical_equality :=
  (categorical_equality str_of_num str_of_missing).
Local Abbreviation parse_condition :=
  (parse_condition to_numeric_str str_of_num str_of_missing).
Local Abbreviation evaluate_filter_fuel :=
  (evaluate_filter_fuel to_numeric_str str_of_num str_of_missing).
Local Abbreviation evaluate_filter :=
  (evaluate_filter to_numeric_str str_of_num str_of_missing).
Local Abbreviation apply := (apply to_numeric_str str_of_num str_of_missing).

(** A comparison of a cell with a double after the coercion: the coerced
    number is compared as a double, and a cell without one fails the
    test. *)
Definition num_test (op : Q -> Q -> bool) (v : Q) (c : cell) : bool :=
  match cell_num c with
  | Some q => op (float64 q) v
  | None => false
  end.

Lemma smap_opt_total {A B} (f : A -> option B) (g : A -> B) (s : Series A) :
  (forall x, In x (map snd s) -> f x = Some (g x)) ->
  smap_opt f s = Some (smap g s).
Proof.
  induction s as [|[l x] s IH]; simpl; intros H; auto.
  rewrite (H x) by now left. rewrite IH by (intros; apply H; now right).
  reflexivity.
Qed.

Lemma ord_cell_bool op v c :
  is_bool_cell c = true -> ord_cell op v c = Some (num_test op v c).
Proof. destruct c; simpl; try discriminate. reflexivity. Qed.

Lemma ord_cell_float op v c :
  is_float_cell c = true -> ord_cell op v c = Some (num_test op v c).
Proof. destruct c; simpl; try discriminate; reflexivity. Qed.

Lemma ord_cell_coerced op v c :
  ord_cell op v (coerce_cell c) = Some (num_test op v c).
Proof.
  unfold coerce_cell, num_test.
  destruct (cell_num c); reflexivity.
Qed.

(** After [pd.to_numeric] an ordering comparison never raises, and it is
    the test on the coerced number. *)
Lemma series_ord_to_numeric op s v :
  series_ord op (to_numeric s) v = Ok (smap (num_test op v) s).
Proof.
  unfold series_ord, to_numeric, numeric_dtype.
  destruct (forallb is_bool_cell (map snd s)) eqn:Eb; simpl.
  - rewrite (smap_opt_total _ (num_test op v)); auto.
    intros x Hx. rewrite forallb_forall in Eb.
    now apply ord_cell_bool, Eb.
  - destruct (forallb is_float_cell (map snd s)) eqn:Ef.
    + rewrite (smap_opt_total _ (num_test op v)); auto.
      intros x Hx. rewrite forallb_forall in Ef.
      now apply ord_cell_float, Ef.
    + assert (G : smap_opt (ord_cell op v) (smap coerce_cell s)
                  = Some (smap (num_test op v) s)).
      { clear. induction s as [|[l x] s IH]; simpl; auto.
        now rewrite ord_cell_coerced, IH. }
      now rewrite G.
Qed.

Lemma to_numeric_reread idx v :
  combine idx (map snd (to_numeric (combine idx v)))
  = to_numeric (combine idx v).
Proof.
  unfold to_numeric.
  destruct (numeric_dtype _).
  - apply combine_reread_id.
  - apply combine_reread.
Qed.

Lemma column_setitem df col v :
  column (setitem df col (to_numeric (combine (index df) v))) col
  = Ok (to_numeric (combine (index df) v)).
Proof.
  unfold column, getitem, setitem. simpl.
  now rewrite lookup_replace, to_numeric_reread.
Qed.

Lemma column_lookup df col v :
  lookup_col (columns df) col = Some v ->
  column df col = Ok (combine (index df) v).
Proof. unfold column, getitem. now intros ->. Qed.

(** The mask of the range shape on one cell. *)
Definition in_range (a b : Q) (c : cell) : bool :=
  num_test Qge_bool a c && num_test Qle_bool b c.

Lemma parse_condition_range cond df lo col hi a b v :
  trimmed cond = true ->
  re_match pat_exclude cond = None ->
  re_match pat_include cond = None ->
  re_match pat_range cond = Some [lo; col; hi] ->
  py_float lo = Some a -> py_float hi = Some b ->
  lookup_col (columns df) col = Some v ->
  parse_condition cond df =
  (Ok (smap (in_range a b) (combine (index df) v)),
   setitem df col (to_numeric (combine (index df) v))).
Proof.
  intros Ht H1 H2 H3 Ha Hb Hv.
  unfold parse_condition.
  rewrite (strip_trimmed _ Ht), H1, H2, H3.
  unfold group, float_of. simpl nth. rewrite Ha, Hb.
  unfold bind, ret, gets, read_col, assign_col, modify, lift, all_false.
  rewrite (lookup_has_col _ _ _ Hv). cbn [negb]. cbv beta iota.
  rewrite (column_lookup _ _ _ Hv).
  rewrite column_setitem, !series_ord_to_numeric.
  unfold series_and. now rewrite logical_op_smap.
Qed.

(** Comparisons of two closed strings are evaluated. *)
Ltac eval_str_eqb :=
  repeat match goal with
         | |- context [str_eqb ?a ?b] =>
             let r := eval vm_compute in (str_eqb a b) in
             change (str_eqb a b) with r
         end;
  cbv beta iota.

(** The mask of a single comparison on one cell. *)
Lemma parse_condition_compare cond df col op val q v test :
  trimmed cond = true ->
  re_match pat_exclude cond = None ->
  re_match pat_include cond = None ->
  re_match pat_range cond = None ->
  re_match pat_compare cond = Some [col; op; val] ->
  py_float val = Some q ->
  lookup_col (columns df) col = Some v ->
  In (op, test) [(L ">", Qgt_bool); (L "<", Qlt_bool);
                 (L ">=", Qge_bool); (L "<=", Qle_bool)] ->
  parse_condition cond df =
  (Ok (smap (num_test test q) (combine (index df) v)),
   setitem df col (to_numeric (combine (index df) v))).
Proof.
  intros Ht H1 H2 H3 H4 Hq Hv Hop.
  unfold parse_condition.
  rewrite (strip_trimmed _ Ht), H1, H2, H3, H4.
  unfold group, float_of. simpl nth. rewrite Hq.
  unfold bind, ret, gets, read_col, assign_col, modify, lift, all_false.
  rewrite (lookup_has_col _ _ _ Hv). cbn [negb]. cbv beta iota.
  rewrite (column_lookup _ _ _ Hv).
  rewrite column_setitem.
  simpl in Hop.
  destruct Hop as [E|[E|[E|[E|[]]]]]; inversion E; subst op test;
    eval_str_eqb; now rewrite series_ord_to_numeric.
Qed.

Lemma parse_condition_exclude cond df col vals qs v :
  trimmed cond = true ->
  re_match pat_exclude cond = Some [col; vals] ->
  float_list (split_char "," vals) = Some qs ->
  lookup_col (columns df) col = Some v ->
  parse_condition cond df =
  (Ok (series_not (isin (combine (index df) v) qs)), df).
Proof.
  intros Ht H1 Hq Hv.
  unfold parse_condition.
  rewrite (strip_trimmed _ Ht), H1.
  unfold group, floats_of. simpl nth. rewrite Hq.
  unfold bind, ret, gets, read_col.
  rewrite (lookup_has_col _ _ _ Hv). cbn [negb]. cbv beta iota.
  now rewrite (column_lookup _ _ _ Hv).
Qed.

Lemma parse_condition_include cond df col vals qs v :
  trimmed cond = true ->
  re_match pat_exclude cond = None ->
  re_match pat_include cond = Some [col; vals] ->
  float_list (split_char "," vals) = Some qs ->
  lookup_col (columns df) col = Some v ->
  parse_condition cond df =
  (Ok (isin (combine (index df) v) qs), df).
Proof.
  intros Ht H1 H2 Hq Hv.
  unfold parse_condition.
  rewrite (strip_trimmed _ Ht), H1, H2.
  unfold group, floats_of. simpl nth. rewrite Hq.
  unfold bind, ret, gets, read_col.
  rewrite (lookup_has_col _ _ _ Hv). cbn [negb]. cbv beta iota.
  now rewrite (column_lookup _ _ _ Hv).
Qed.

Lemma parse_condition_equal cond df col text v :
  trimmed cond = true ->
  re_match pat_exclude cond = None ->
  re_match pat_include cond = None ->
  re_match pat_range cond = None ->
  re_match pat_compare cond = None ->
  re_match pat_equal cond = Some [col; text] ->
  lookup_col (columns df) col = Some v ->
  parse_condition cond df =
  (Ok (smap (str_eq_cell (strip text)) (combine (index df) v)), df).
Proof.
  intros Ht H1 H2 H3 H4 H5 Hv.
  unfold parse_condition, categorical_equality.
  rewrite (strip_trimmed _ Ht), H1, H2, H3, H4, H5.
  unfold group. simpl nth.
  unfold bind, ret, gets, read_col.
  rewrite (lookup_has_col _ _ _ Hv). cbn [negb]. cbv beta iota.
  now rewrite (column_lookup _ _ _ Hv).
Qed.

(* ================================================================== *)
(** * The texts of the claims *)

Lemma plain_number_parts s :
  plain_number s = true ->
  forallb is_numchar s = true /\ s <> [] /\
  py_float s = Some (number_of s).
Proof.
  unfold plain_number, number_of. rewrite andb_true_iff. intros [H1 H2].
  split; [auto|]. split.
  - intros ->. discriminate.
  - destruct (py_float s); [reflexivity|discriminate].
Qed.

Lemma forallb_head {A} (p : A -> bool) x s :
  forallb p (x :: s) = true -> p x = true.
Proof. simpl. now intros [H _]%andb_true_iff. Qed.

Lemma numchars_stop_space s t :
  forallb is_numchar s = true -> s <> [] -> stops is_space (s ++ t).
Proof.
  destruct s as [|c s]; [congruence|]. intros H _. simpl.
  apply numchar_not_space. now apply forallb_head in H.
Qed.

Lemma word_stops_space s t : word s = true -> stops is_space (s ++ t).
Proof.
  intros [Hne Hall]%word_parts. destruct s as [|c s]; [congruence|]. simpl.
  apply word_not_space. now apply forallb_head in Hall.
Qed.

Lemma numchars_length s : forallb is_numchar s = true -> s <> [] ->
  1 <= length s.
Proof. destruct s; simpl; [congruence|lia]. Qed.

(** The general form of the head [(\w+)\s*]. *)
Lemma re_match_head_gen rest s :
  rejects is_word rest -> rejects is_space rest ->
  re_match (Group (Cls is_word Plus) :: Plain (Cls is_space Star) :: rest) s
  = if length (take_while is_word s) <? 1 then None
    else match re_match rest (drop_while is_space (drop_while is_word s)) with
         | Some gs => Some (take_while is_word s :: gs)
         | None => None
         end.
Proof.
  intros Rw Rs.
  rewrite <- (take_drop is_word s) at 1.
  rewrite (re_match_det (Group (Cls is_word Plus)) _ is_word Plus _ _
             eq_refl).
  - simpl rep_min. destruct (_ <? 1); [reflexivity|].
    rewrite <- (take_drop is_space (drop_while is_word s)) at 1.
    rewrite (re_match_det (Plain (Cls is_space Star)) _ is_space Star _ _
               eq_refl); auto.
    + simpl. now destruct (re_match rest _).
    + apply take_while_all.
    + apply drop_while_stops.
  - eapply rejects_star; [reflexivity| |exact Rw].
    intros c. apply word_not_space.
  - apply take_while_all.
  - apply drop_while_stops.
Qed.

Lemma rejects_word_eq rest :
  rejects is_word (Plain (Lit (L "=")) :: rest).
Proof. now apply (rejects_lit _ _ _ "="%char []). Qed.

Lemma rejects_space_eq rest :
  rejects is_space (Plain (Lit (L "=")) :: rest).
Proof. now apply (rejects_lit _ _ _ "="%char []). Qed.

Lemma rejects_word_ne rest :
  rejects is_word (Plain (Lit (L "!=")) :: rest).
Proof. now apply (rejects_lit _ _ _ "!"%char ["="%char]). Qed.

Lemma rejects_space_ne rest :
  rejects is_space (Plain (Lit (L "!=")) :: rest).
Proof. now apply (rejects_lit _ _ _ "!"%char ["="%char]). Qed.

(** [(\w+)\s*=] needs an equals sign right after the first word and the
    whitespace that follows it. *)
Lemma pat_include_needs s :
  startswith (L "=") (drop_while is_space (drop_while is_word s)) = false ->
  re_match pat_include s = None.
Proof.
  intros H. unfold pat_include.
  rewrite re_match_head_gen
    by (apply rejects_word_eq || apply rejects_space_eq).
  destruct (_ <? 1); [reflexivity|].
  now rewrite (re_match_lit_no (Plain (Lit (L "="))) _ (L "=") _ eq_refl H).
Qed.

(** ** The range text [lo <= col <= hi] *)

(** [ws1], [ws2], [ws3] and [ws4] are the whitespace around the two
    [<=]; each of them may be empty. *)
Definition range_text (lo ws1 ws2 col ws3 ws4 hi : str) : str :=
  lo ++ ws1 ++ L "<=" ++ ws2 ++ col ++ ws3 ++ L "<=" ++ ws4 ++ hi.

Lemma count_char_numchars c s :
  forallb is_numchar s = true -> is_numchar c = false -> count_char c s = 0.
Proof. apply count_char_none. Qed.

Lemma count_char_word c s :
  word s = true -> is_word c = false -> count_char c s = 0.
Proof. intros [_ H]%word_parts. now apply count_char_none. Qed.

Lemma count_char_spaces c s :
  forallb is_space s = true -> is_space c = false -> count_char c s = 0.
Proof. apply count_char_none. Qed.

(** What follows the first word of a text and the whitespace after it. *)
Lemma after_spaces ws t :
  forallb is_space ws = true -> stops is_space t -> stops is_word t ->
  drop_while is_space (drop_while is_word (ws ++ t)) = t.
Proof.
  intros Hws Hs Hw.
  rewrite (drop_while_id is_word)
    by (apply stops_app; auto; now apply spaces_not_word).
  now apply drop_while_app.
Qed.

Lemma after_word_spaces col ws t :
  word col = true -> forallb is_space ws = true ->
  stops is_space t -> stops is_word t ->
  drop_while is_space (drop_while is_word (col ++ ws ++ t)) = t.
Proof.
  intros [_ W]%word_parts Hws Hs Hw.
  rewrite (drop_while_app is_word col)
    by (auto; apply stops_app; auto; now apply spaces_not_word).
  now apply drop_while_app.
Qed.

Lemma range_text_not_exclude lo ws1 ws2 col ws3 ws4 hi :
  plain_number lo = true -> plain_number hi = true -> word col = true ->
  forallb is_space ws1 = true -> forallb is_space ws2 = true ->
  forallb is_space ws3 = true -> forallb is_space ws4 = true ->
  re_match pat_exclude (range_text lo ws1 ws2 col ws3 ws4 hi) = None.
Proof.
  intros (Hlo & _ & _)%plain_number_parts (Hhi & _ & _)%plain_number_parts
         Hcol H1 H2 H3 H4.
  apply (re_match_needs "!"%char). unfold range_text.
  rewrite !count_char_app.
  rewrite (count_char_numchars _ lo), (count_char_numchars _ hi),
    (count_char_word _ col), (count_char_spaces _ ws1),
    (count_char_spaces _ ws2), (count_char_spaces _ ws3),
    (count_char_spaces _ ws4) by auto.
  vm_compute. lia.
Qed.

Lemma range_text_not_include lo ws1 ws2 col ws3 ws4 hi :
  plain_number lo = true -> forallb is_space ws1 = true ->
  re_match pat_include (range_text lo ws1 ws2 col ws3 ws4 hi) = None.
Proof.
  intros (Hlo & _ & _)%plain_number_parts H1.
  apply pat_include_needs. unfold range_text.
  induction lo as [|c lo IH].
  - rewrite app_nil_l, after_spaces by (auto; reflexivity). reflexivity.
  - simpl in Hlo. apply andb_true_iff in Hlo as [Hc Hlo].
    simpl. destruct (is_word c) eqn:Ew; [now apply IH|].
    simpl. rewrite (numchar_not_space _ Hc). simpl.
    destruct (char_eqb "=" c) eqn:E; auto.
    apply char_eqb_eq in E. subst c. discriminate.
Qed.

Lemma range_text_match lo ws1 ws2 col ws3 ws4 hi :
  plain_number lo = true -> plain_number hi = true -> word col = true ->
  forallb is_space ws1 = true -> forallb is_space ws2 = true ->
  forallb is_space ws3 = true -> forallb is_space ws4 = true ->
  re_match pat_range (range_text lo ws1 ws2 col ws3 ws4 hi)
  = Some [lo; col; hi].
Proof.
  intros (Hlo & Nlo & _)%plain_number_parts
         (Hhi & Nhi & _)%plain_number_parts Hcol H1 H2 H3 H4.
  destruct (word_parts _ Hcol) as [Ncol Wcol].
  assert (Sp : forall ws t, forallb is_space ws = true ->
                 stops is_numchar (ws ++ L "<=" ++ t)).
  { intros ws t Hws. apply stops_app; [reflexivity|].
    intros c Hc. rewrite forallb_forall in Hws. specialize (Hws c Hc).
    destruct (is_numchar c) eqn:E; auto.
    apply numchar_not_space in E. congruence. }
  unfold pat_range, range_text.
  apply (re_match_greedy (Group (Cls is_numchar Plus)) _ is_numchar Plus
           lo (ws1 ++ L "<=" ++ ws2 ++ col ++ ws3 ++ L "<=" ++ ws4 ++ hi)
           [col; hi] eq_refl);
    auto; [now apply numchars_length |].
  apply (re_match_greedy (Plain (Cls is_space Star)) _ is_space Star
           ws1 (L "<=" ++ ws2 ++ col ++ ws3 ++ L "<=" ++ ws4 ++ hi)
           [col; hi] eq_refl);
    auto; [reflexivity | simpl; lia |].
  rewrite (re_match_lit (Plain (Lit (L "<="))) _ (L "<=")
             (ws2 ++ col ++ ws3 ++ L "<=" ++ ws4 ++ hi) eq_refl).
  assert (G : re_match
            [Plain (Cls is_space Star); Group (Cls is_word Plus);
             Plain (Cls is_space Star); Plain (Lit (L "<="));
             Plain (Cls is_space Star); Group (Cls is_numchar Plus)]
            (ws2 ++ col ++ ws3 ++ L "<=" ++ ws4 ++ hi) = Some [col; hi]);
    [|now rewrite G].
  apply (re_match_greedy (Plain (Cls is_space Star)) _ is_space Star
           ws2 (col ++ ws3 ++ L "<=" ++ ws4 ++ hi) [col; hi] eq_refl);
    auto; [now apply word_stops_space | simpl; lia |].
  apply (re_match_greedy (Group (Cls is_word Plus)) _ is_word Plus
           col (ws3 ++ L "<=" ++ ws4 ++ hi) [hi] eq_refl);
    auto; [| now apply word_length |].
  { apply stops_app; [reflexivity | now apply spaces_not_word]. }
  apply (re_match_greedy (Plain (Cls is_space Star)) _ is_space Star
           ws3 (L "<=" ++ ws4 ++ hi) [hi] eq_refl);
    auto; [reflexivity | simpl; lia |].
  rewrite (re_match_lit (Plain (Lit (L "<="))) _ (L "<=")
             (ws4 ++ hi) eq_refl).
  assert (G : re_match
            [Plain (Cls is_space Star); Group (Cls is_numchar Plus)]
            (ws4 ++ hi ++ []) = Some [hi]).
  { apply re_match_space_group; auto.
    - now apply numchars_stop_space.
    - exact I.
    - now apply numchars_length. }
  rewrite app_nil_r in G. now rewrite G.
Qed.

Lemma starts_clean_app a t :
  a <> [] -> starts_clean a = true -> starts_clean (a ++ t) = true.
Proof. destruct a; simpl; congruence. Qed.

Lemma trimmed_ends a m b :
  a <> [] -> b <> [] -> starts_clean a = true ->
  starts_clean (rev b) = true -> trimmed (a ++ m ++ b) = true.
Proof.
  intros Na Nb Ha Hb. unfold trimmed. rewrite andb_true_iff. split.
  - now apply starts_clean_app.
  - rewrite !rev_app_distr, <- app_assoc. apply starts_clean_app; auto.
    intros E. apply (f_equal (@rev ascii)) in E.
    rewrite rev_involutive in E. now subst.
Qed.

Lemma clean_of_class (p : ascii -> bool) s :
  (forall c, p c = true -> is_space c = false) ->
  forallb p s = true ->
  starts_clean s = true /\ starts_clean (rev s) = true.
Proof.
  intros D H.
  assert (G : forall u, forallb p u = true -> starts_clean u = true).
  { intros [|c u]; simpl; auto. intros [Hc _]%andb_true_iff.
    now rewrite (D c Hc). }
  split; apply G; auto.
  rewrite forallb_forall in *. intros c Hc. apply H. now apply in_rev.
Qed.

Lemma range_text_trimmed lo ws1 ws2 col ws3 ws4 hi :
  plain_number lo = true -> plain_number hi = true ->
  trimmed (range_text lo ws1 ws2 col ws3 ws4 hi) = true.
Proof.
  intros (Hlo & Nlo & _)%plain_number_parts
         (Hhi & Nhi & _)%plain_number_parts.
  replace (range_text lo ws1 ws2 col ws3 ws4 hi)
    with (lo ++ (ws1 ++ L "<=" ++ ws2 ++ col ++ ws3 ++ L "<=" ++ ws4) ++ hi)
    by (unfold range_text; now rewrite <- !app_assoc).
  apply trimmed_ends; auto.
  - now apply (clean_of_class is_numchar lo numchar_not_space).
  - now apply (clean_of_class is_numchar hi numchar_not_space).
Qed.

Lemma in_range_bounds a b c v :
  (a <= b)%Q -> cell_num c = Some v ->
  (float64 v == a \/ float64 v == b)%Q ->
  in_range a b c = true.
Proof.
  intros Hab Hc Hv. unfold in_range, num_test, Qge_bool. rewrite Hc.
  rewrite andb_true_iff, !Qle_bool_iff.
  destruct Hv as [E|E]; rewrite E; split;
    auto using Qle_refl.
Qed.

(** C6.  A range condition [lo <= col <= hi], with plain numbers [lo] and
    [hi] such that [lo <= hi], an existing column [col] and any
    whitespace around the two [<=], is evaluated without error, and its
    mask is true at every row whose coerced value of [col] equals [lo] or
    equals [hi]: both bounds are inclusive.  The numbers are the doubles
    that the code compares: [number_of] is the value of [float] on the
    literal, and the coerced value of the cell is taken as a double. *)
Theorem range_bounds_inclusive :
  forall (df : DataFrame) (lo ws1 ws2 col ws3 ws4 hi : str)
         (i : nat) (c : cell) (v : Q),
    plain_number lo = true -> plain_number hi = true -> word col = true ->
    forallb is_space ws1 = true -> forallb is_space ws2 = true ->
    forallb is_space ws3 = true -> forallb is_space ws4 = true ->
    (number_of lo <= number_of hi)%Q ->
    cell_at df col i = Some c -> i < len df ->
    cell_num c = Some v ->
    (float64 v == number_of lo \/ float64 v == number_of hi)%Q ->
    exists m df',
      parse_condition (range_text lo ws1 ws2 col ws3 ws4 hi) df
      = (Ok m, df') /\
      mask_at m i = Some true.
Proof.
  intros df lo ws1 ws2 col ws3 ws4 hi i c v Hlo Hhi Hcol H1 H2 H3 H4
         Hle Hcell Hi Hv Hb.
  unfold cell_at in Hcell.
  destruct (lookup_col (columns df) col) as [vals|] eqn:Hvals;
    [|discriminate].
  destruct (plain_number_parts _ Hlo) as (_ & _ & Flo).
  destruct (plain_number_parts _ Hhi) as (_ & _ & Fhi).
  eexists _, _. split.
  - apply (parse_condition_range _ _ lo col hi (number_of lo)
             (number_of hi) vals); auto.
    + now apply range_text_trimmed.
    + now apply range_text_not_exclude.
    + now apply range_text_not_include.
    + now apply range_text_match.
  - rewrite (mask_at_smap _ _ _ _ _ Hcell Hi). f_equal.
    eapply in_range_bounds; eauto.
Qed.

(** ** The comparison text [col op value] *)

(** [ws1] and [ws2] are the whitespace before and after the operator;
    each of them may be empty. *)
Definition comparison_text (col ws1 op ws2 value : str) : str :=
  col ++ ws1 ++ op ++ ws2 ++ value.

Definition operators : list str :=
  [L ">="; L "<="; L ">"; L "<"; L "="; L "!="].

Lemma comparison_text_trimmed_gen col ws1 op ws2 value :
  word col = true -> value <> [] -> starts_clean (rev value) = true ->
  trimmed (comparison_text col ws1 op ws2 value) = true.
Proof.
  intros [Ncol Wcol]%word_parts Nv Hv.
  replace (comparison_text col ws1 op ws2 value)
    with (col ++ (ws1 ++ op ++ ws2) ++ value)
    by (unfold comparison_text; now rewrite <- !app_assoc).
  apply trimmed_ends; auto.
  now apply (clean_of_class is_word col word_not_space).
Qed.

Lemma comparison_text_trimmed col ws1 op ws2 value :
  word col = true -> plain_number value = true ->
  trimmed (comparison_text col ws1 op ws2 value) = true.
Proof.
  intros Hcol (Hv & Nv & _)%plain_number_parts.
  apply comparison_text_trimmed_gen; auto.
  now apply (clean_of_class is_numchar value numchar_not_space).
Qed.

Lemma comparison_text_not_range_gen col ws1 op ws2 value :
  word col = true -> forallb is_numchar value = true -> In op operators ->
  forallb is_space ws1 = true -> forallb is_space ws2 = true ->
  re_match pat_range (comparison_text col ws1 op ws2 value) = None.
Proof.
  intros Hcol Hv Hop H1 H2.
  apply (re_match_needs "<"%char). unfold comparison_text.
  rewrite !count_char_app.
  rewrite (count_char_numchars _ value), (count_char_word _ col),
    (count_char_spaces _ ws1), (count_char_spaces _ ws2) by auto.
  simpl in Hop.
  destruct Hop as [<-|[<-|[<-|[<-|[<-|[<-|[]]]]]]]; vm_compute; lia.
Qed.

Lemma comparison_text_not_range col ws1 op ws2 value :
  word col = true -> plain_number value = true -> In op operators ->
  forallb is_space ws1 = true -> forallb is_space ws2 = true ->
  re_match pat_range (comparison_text col ws1 op ws2 value) = None.
Proof.
  intros Hcol (Hv & _ & _)%plain_number_parts.
  now apply comparison_text_not_range_gen.
Qed.

Lemma count_char_listchars c s :
  forallb is_listchar s = true -> is_listchar c = false ->
  count_char c s = 0.
Proof. apply count_char_none. Qed.

Lemma comparison_text_not_exclude_gen col ws1 op ws2 value :
  word col = true -> forallb is_listchar value = true -> In op operators ->
  forallb is_space ws1 = true -> forallb is_space ws2 = true ->
  op <> L "!=" ->
  re_match pat_exclude (comparison_text col ws1 op ws2 value) = None.
Proof.
  intros Hcol Hv Hop H1 H2 Hne.
  apply (re_match_needs "!"%char). unfold comparison_text.
  rewrite !count_char_app.
  rewrite (count_char_listchars _ value), (count_char_word _ col),
    (count_char_spaces _ ws1), (count_char_spaces _ ws2) by auto.
  simpl in Hop.
  destruct Hop as [<-|[<-|[<-|[<-|[<-|[<-|[]]]]]]];
    try (vm_compute; lia).
  now elim Hne.
Qed.

Lemma number_listchars value :
  plain_number value = true -> forallb is_listchar value = true.
Proof.
  intros (H & _ & _)%plain_number_parts.
  rewrite forallb_forall in *. intros c Hc.
  now apply numchar_listchar, H.
Qed.

Lemma comparison_text_not_exclude col ws1 op ws2 value :
  word col = true -> plain_number value = true -> In op operators ->
  forallb is_space ws1 = true -> forallb is_space ws2 = true ->
  op <> L "!=" ->
  re_match pat_exclude (comparison_text col ws1 op ws2 value) = None.
Proof.
  intros Hcol Hv. apply comparison_text_not_exclude_gen; auto.
  now apply number_listchars.
Qed.

Lemma comparison_text_not_include col ws1 op ws2 value :
  word col = true -> In op operators -> forallb is_space ws1 = true ->
  op <> L "=" ->
  re_match pat_include (comparison_text col ws1 op ws2 value) = None.
Proof.
  intros Hcol Hop H1 Hne. apply pat_include_needs. unfold comparison_text.
  simpl in Hop.
  destruct Hop as [<-|[<-|[<-|[<-|[<-|[<-|[]]]]]]];
    try (rewrite after_word_spaces by (auto; reflexivity); reflexivity).
  now elim Hne.
Qed.

(** A list of one plain number, as the list shapes read it. *)
Lemma split_char_no_sep sep s :
  forallb (fun c => negb (char_eqb c sep)) s = true ->
  split_char sep s = [s].
Proof.
  induction s as [|c s IH]; simpl; auto.
  rewrite andb_true_iff. intros [Hc Hs].
  destruct (char_eqb c sep); [discriminate|]. now rewrite IH.
Qed.

Lemma numchars_no_comma s :
  forallb is_numchar s = true ->
  forallb (fun c => negb (char_eqb c ",")) s = true.
Proof.
  rewrite !forallb_forall. intros H c Hc. specialize (H c Hc).
  destruct (char_eqb c ",") eqn:E; auto.
  apply char_eqb_eq in E. subst c. discriminate.
Qed.

Lemma strip_number s : plain_number s = true -> strip s = s.
Proof.
  intros (H & _ & _)%plain_number_parts. apply strip_trimmed.
  unfold trimmed. apply andb_true_iff.
  now apply (clean_of_class is_numchar s numchar_not_space).
Qed.

Lemma float_list_one value :
  plain_number value = true ->
  float_list (split_char "," value) = Some [number_of value].
Proof.
  intros H. destruct (plain_number_parts _ H) as (Hn & _ & Hf).
  rewrite split_char_no_sep by now apply numchars_no_comma.
  simpl. now rewrite (strip_number _ H), Hf.
Qed.

Lemma list_tail_match p ws value :
  forallb is_space ws = true -> forallb p value = true -> value <> [] ->
  stops is_space value ->
  re_match [Plain (Cls is_space Star); Group (Cls p Plus)] (ws ++ value)
  = Some [value].
Proof.
  intros Hws Hv Nv Hs.
  pose proof (re_match_space_group p ws value [] Hws Hv) as G.
  rewrite !app_nil_r in G. apply G; auto.
  - exact I.
  - destruct value; simpl; [congruence|lia].
Qed.

Lemma number_stops_space value :
  plain_number value = true -> stops is_space value.
Proof.
  intros (H & N & _)%plain_number_parts.
  pose proof (numchars_stop_space value [] H N) as G.
  now rewrite app_nil_r in G.
Qed.

Lemma list_text_exclude col ws1 ws2 vals :
  word col = true -> forallb is_listchar vals = true -> vals <> [] ->
  stops is_space vals ->
  forallb is_space ws1 = true -> forallb is_space ws2 = true ->
  re_match pat_exclude (comparison_text col ws1 (L "!=") ws2 vals)
  = Some [col; vals].
Proof.
  intros Hcol Hv Nv Sv H1 H2. unfold pat_exclude, comparison_text.
  rewrite (re_match_head _ col ws1 (L "!=" ++ ws2 ++ vals));
    auto using rejects_word_ne, rejects_space_ne; try reflexivity.
  rewrite (re_match_lit (Plain (Lit (L "!="))) _ (L "!=") (ws2 ++ vals)
             eq_refl).
  now rewrite (list_tail_match is_listchar ws2 vals).
Qed.

Lemma list_text_include col ws1 ws2 vals :
  word col = true -> forallb is_listchar vals = true -> vals <> [] ->
  stops is_space vals ->
  forallb is_space ws1 = true -> forallb is_space ws2 = true ->
  re_match pat_include (comparison_text col ws1 (L "=") ws2 vals)
  = Some [col; vals].
Proof.
  intros Hcol Hv Nv Sv H1 H2. unfold pat_include, comparison_text.
  rewrite (re_match_head _ col ws1 (L "=" ++ ws2 ++ vals));
    auto using rejects_word_eq, rejects_space_eq; try reflexivity.
  rewrite (re_match_lit (Plain (Lit (L "="))) _ (L "=") (ws2 ++ vals)
             eq_refl).
  now rewrite (list_tail_match is_listchar ws2 vals).
Qed.

Lemma comparison_text_exclude col ws1 ws2 value :
  word col = true -> plain_number value = true ->
  forallb is_space ws1 = true -> forallb is_space ws2 = true ->
  re_match pat_exclude (comparison_text col ws1 (L "!=") ws2 value)
  = Some [col; value].
Proof.
  intros Hcol Hv H1 H2. apply list_text_exclude; auto.
  - now apply number_listchars.
  - now destruct (plain_number_parts _ Hv) as (_ & N & _).
  - now apply number_stops_space.
Qed.

Lemma comparison_text_include col ws1 ws2 value :
  word col = true -> plain_number value = true ->
  forallb is_space ws1 = true -> forallb is_space ws2 = true ->
  re_match pat_include (comparison_text col ws1 (L "=") ws2 value)
  = Some [col; value].
Proof.
  intros Hcol Hv H1 H2. apply list_text_include; auto.
  - now apply number_listchars.
  - now destruct (plain_number_parts _ Hv) as (_ & N & _).
  - now apply number_stops_space.
Qed.

Lemma first_some_skip {A B} (f : A -> option B) pre x post r :
  Forall (fun a => f a = None) pre -> f x = Some r ->
  first_some f (pre ++ x :: post) = Some r.
Proof.
  intros F Hx. induction F as [|a pre Ha F IH]; simpl.
  - now rewrite Hx.
  - now rewrite Ha.
Qed.

(** The alternative that matches, when none before it starts the text. *)
Lemma re_match_alt i rest pre l post t gs :
  item_atom i = Alt (pre ++ l :: post) ->
  Forall (fun a => startswith a (l ++ t) = false) pre ->
  re_match rest t = Some gs ->
  re_match (i :: rest) (l ++ t) = Some (if captures i then l :: gs else gs).
Proof.
  intros Hi F Hrest. rewrite re_match_cons, Hi.
  apply first_some_skip.
  - eapply Forall_impl; [|exact F]. simpl. now intros a ->.
  - now rewrite startswith_app, after_app, Hrest.
Qed.

Definition orderings : list (str * (Q -> Q -> bool)) :=
  [(L ">", Qgt_bool); (L "<", Qlt_bool);
   (L ">=", Qge_bool); (L "<=", Qle_bool)].

Lemma rejects_word_ops rest :
  rejects is_word
    (Group (Alt [L ">="; L "<="; L "="; L "!="; L ">"; L "<"]) :: rest).
Proof.
  eapply rejects_alt; [reflexivity|]. repeat constructor.
Qed.

Lemma rejects_space_ops rest :
  rejects is_space
    (Group (Alt [L ">="; L "<="; L "="; L "!="; L ">"; L "<"]) :: rest).
Proof.
  eapply rejects_alt; [reflexivity|]. repeat constructor.
Qed.

(** The whitespace and the number after an operator do not start with an
    equals sign: [>] is not read as [>=], nor [<] as [<=]. *)
Lemma value_not_eq ws value junk :
  forallb is_space ws = true -> forallb is_numchar value = true ->
  value <> [] ->
  startswith (L "=") (ws ++ value ++ junk) = false.
Proof.
  intros Hws Hv Nv.
  assert (G : forall c t, is_space c = true \/ is_numchar c = true ->
                          startswith (L "=") (c :: t) = false).
  { intros c t Hc. simpl. destruct (char_eqb "=" c) eqn:E; auto.
    apply char_eqb_eq in E. subst c. now destruct Hc. }
  destruct ws as [|c ws]; [destruct value as [|c value]|]; simpl app.
  - congruence.
  - apply G. right. now apply forallb_head in Hv.
  - apply G. left. now apply forallb_head in Hws.
Qed.

(** The single comparison is matched at the start of the text, whatever
    follows the number: [junk] is what [re.match] leaves unread. *)
Lemma comparison_text_compare_tail col ws1 op ws2 test value junk :
  word col = true -> forallb is_numchar value = true -> value <> [] ->
  stops is_numchar junk -> In (op, test) orderings ->
  forallb is_space ws1 = true -> forallb is_space ws2 = true ->
  re_match pat_compare (comparison_text col ws1 op ws2 (value ++ junk))
  = Some [col; op; value].
Proof.
  intros Hcol Hv Nv Hj Hop H1 H2. unfold pat_compare, comparison_text.
  assert (T : re_match
            [Plain (Cls is_space Star); Group (Cls is_numchar Plus)]
            (ws2 ++ value ++ junk) = Some [value]).
  { apply re_match_space_group; auto.
    - now apply numchars_stop_space.
    - now apply numchars_length. }
  assert (E : startswith (L "=") (ws2 ++ value ++ junk) = false)
    by now apply value_not_eq.
  simpl in Hop.
  destruct Hop as [K|[K|[K|[K|[]]]]]; inversion K; subst op test; clear K.
  - rewrite (re_match_head _ col ws1 (L ">" ++ ws2 ++ value ++ junk));
      auto using rejects_word_ops, rejects_space_ops; try reflexivity.
    rewrite (re_match_alt (Group (Alt _)) _
               [L ">="; L "<="; L "="; L "!="] (L ">") [L "<"]
               (ws2 ++ value ++ junk) [value] eq_refl); auto.
    all: repeat (constructor; auto).
  - rewrite (re_match_head _ col ws1 (L "<" ++ ws2 ++ value ++ junk));
      auto using rejects_word_ops, rejects_space_ops; try reflexivity.
    rewrite (re_match_alt (Group (Alt _)) _
               [L ">="; L "<="; L "="; L "!="; L ">"] (L "<") []
               (ws2 ++ value ++ junk) [value] eq_refl); auto.
    all: repeat (constructor; auto).
  - rewrite (re_match_head _ col ws1 (L ">=" ++ ws2 ++ value ++ junk));
      auto using rejects_word_ops, rejects_space_ops; try reflexivity.
    rewrite (re_match_alt (Group (Alt _)) _
               [] (L ">=") [L "<="; L "="; L "!="; L ">"; L "<"]
               (ws2 ++ value ++ junk) [value] eq_refl); auto.
  - rewrite (re_match_head _ col ws1 (L "<=" ++ ws2 ++ value ++ junk));
      auto using rejects_word_ops, rejects_space_ops; try reflexivity.
    rewrite (re_match_alt (Group (Alt _)) _
               [L ">="] (L "<=") [L "="; L "!="; L ">"; L "<"]
               (ws2 ++ value ++ junk) [value] eq_refl); auto.
    all: repeat (constructor; auto).
Qed.

Lemma comparison_text_compare col ws1 op ws2 test value :
  word col = true -> plain_number value = true -> In (op, test) orderings ->
  forallb is_space ws1 = true -> forallb is_space ws2 = true ->
  re_match pat_compare (comparison_text col ws1 op ws2 value)
  = Some [col; op; value].
Proof.
  intros Hcol (Hv & Nv & _)%plain_number_parts Hop H1 H2.
  rewrite <- (app_nil_r value) at 1.
  now apply (comparison_text_compare_tail col ws1 op ws2 test value []).
Qed.

Lemma smap_smap {A B C} (f : A -> B) (g : B -> C) (s : Series A) :
  smap g (smap f s) = smap (fun x => g (f x)) s.
Proof. unfold smap. rewrite map_map. reflexivity. Qed.

Lemma isin_uncoercible n qs c :
  cell_num c = None -> isin_cell n qs c = false.
Proof. destruct c; simpl; auto; discriminate. Qed.

Lemma num_test_uncoercible op v c :
  cell_num c = None -> num_test op v c = false.
Proof. unfold num_test. now intros ->. Qed.

(** C3, as the code has it.  A single comparison [col op value] with a
    plain number [value], an existing column and any whitespace around
    the operator is evaluated without error.  At a row whose cell has no
    numeric coercion the mask is false for [>=], [<=], [>], [<] and [=],
    and it is true for [!=]. *)
Theorem comparison_on_uncoercible_cell :
  forall (df : DataFrame) (col ws1 op ws2 value : str) (i : nat) (c : cell),
    word col = true -> plain_number value = true -> In op operators ->
    forallb is_space ws1 = true -> forallb is_space ws2 = true ->
    cell_at df col i = Some c -> i < len df ->
    cell_num c = None ->
    exists m df',
      parse_condition (comparison_text col ws1 op ws2 value) df
      = (Ok m, df') /\
      mask_at m i = Some (str_eqb op (L "!=")).
Proof.
  intros df col ws1 op ws2 value i c Hcol Hval Hop H1 H2 Hcell Hi Hc.
  unfold cell_at in Hcell.
  destruct (lookup_col (columns df) col) as [vals|] eqn:Hvals;
    [|discriminate].
  pose proof (comparison_text_trimmed col ws1 op ws2 value Hcol Hval) as Ht.
  pose proof (comparison_text_not_range col ws1 op ws2 value Hcol Hval Hop
                H1 H2) as Hr.
  destruct (plain_number_parts _ Hval) as (_ & _ & Hf).
  assert (Ord : forall test, In (op, test) orderings ->
            op <> L "!=" -> op <> L "=" ->
            exists m df',
              parse_condition (comparison_text col ws1 op ws2 value) df
              = (Ok m, df') /\ mask_at m i = Some false).
  { intros test Hin N1 N2. eexists _, _. split.
    - apply (parse_condition_compare _ _ col op value (number_of value)
               vals test); auto.
      + now apply comparison_text_not_exclude.
      + now apply comparison_text_not_include.
      + now apply (comparison_text_compare col ws1 op ws2 test).
    - rewrite (mask_at_smap _ _ _ _ _ Hcell Hi).
      now rewrite num_test_uncoercible. }
  unfold operators in Hop. simpl in Hop.
  destruct Hop as [E|[E|[E|[E|[E|[E|[]]]]]]]; subst op.
  - apply (Ord Qge_bool); [simpl; auto | discriminate | discriminate].
  - apply (Ord Qle_bool); [simpl; auto | discriminate | discriminate].
  - apply (Ord Qgt_bool); [simpl; auto | discriminate | discriminate].
  - apply (Ord Qlt_bool); [simpl; auto | discriminate | discriminate].
  - eexists _, _. split.
    + apply (parse_condition_include _ _ col value [number_of value] vals);
        auto.
      * apply comparison_text_not_exclude; auto; [|discriminate].
        unfold operators. simpl. auto 10.
      * now apply comparison_text_include.
      * now apply float_list_one.
    + unfold isin. rewrite (mask_at_smap _ _ _ _ _ Hcell Hi).
      now rewrite isin_uncoercible.
  - eexists _, _. split.
    + apply (parse_condition_exclude _ _ col value [number_of value] vals);
        auto.
      * now apply comparison_text_exclude.
      * now apply float_list_one.
    + unfold series_not, isin. rewrite smap_smap.
      rewrite (mask_at_smap _ _ _ _ _ Hcell Hi).
      now rewrite isin_uncoercible.
Qed.

(** ** The list texts [col = v1,...,vk] and [col != v1,...,vk] *)

Definition numbers (vs : list str) : Prop :=
  vs <> [] /\ Forall (fun v => plain_number v = true) vs.

(** Runs of the space character: the list class [[\d\., ]] holds no
    other whitespace. *)
Definition blanks (s : str) : bool := forallb (char_eqb " ") s.

(** The comma between two numbers of a list, with the blanks [a] before
    it and [b] after it. *)
Definition separator (a b : str) : str := a ++ L "," ++ b.

Definition list_text (a b : str) (vs : list str) : str :=
  join (separator a b) vs.

Lemma blanks_all (p : ascii -> bool) s :
  p " "%char = true -> blanks s = true -> forallb p s = true.
Proof.
  unfold blanks. rewrite !forallb_forall. intros Hp H c Hc.
  specialize (H c Hc). apply char_eqb_eq in H. now subst c.
Qed.

Lemma blanks_spaces s : blanks s = true -> forallb is_space s = true.
Proof. now apply blanks_all. Qed.

Lemma separator_listchars a b :
  blanks a = true -> blanks b = true ->
  forallb is_listchar (separator a b) = true.
Proof.
  intros Ha Hb. unfold separator.
  rewrite !forallb_app, (blanks_all is_listchar a),
    (blanks_all is_listchar b) by auto.
  reflexivity.
Qed.

Lemma join_cons sep v w vs :
  join sep (v :: w :: vs) = v ++ sep ++ join sep (w :: vs).
Proof. reflexivity. Qed.

Lemma numbers_join sep vs :
  numbers vs -> forallb is_listchar sep = true ->
  forallb is_listchar (join sep vs) = true /\
  join sep vs <> [] /\
  stops is_space (join sep vs) /\
  starts_clean (rev (join sep vs)) = true.
Proof.
  intros [N F] Hsep. induction F as [|v vs Hv F IH]; [congruence|].
  destruct (plain_number_parts _ Hv) as (Cv & Nv & _).
  destruct vs as [|w vs].
  - simpl. repeat split; auto.
    + now apply number_listchars.
    + now apply number_stops_space.
    + now apply (clean_of_class is_numchar v numchar_not_space).
  - destruct IH as (I1 & I2 & I3 & I4); [discriminate|].
    rewrite join_cons. repeat split.
    + rewrite !forallb_app, (number_listchars _ Hv), Hsep, I1. reflexivity.
    + destruct v; [congruence|discriminate].
    + now apply numchars_stop_space.
    + rewrite !rev_app_distr, <- app_assoc.
      apply starts_clean_app; auto.
      intros E. apply (f_equal (@rev ascii)) in E.
      rewrite rev_involutive in E. now apply I2.
Qed.

Lemma split_char_app_sep sep v rest :
  forallb (fun c => negb (char_eqb c sep)) v = true ->
  split_char sep (v ++ sep :: rest) = v :: split_char sep rest.
Proof.
  induction v as [|c v IH]; simpl.
  - now rewrite char_eqb_refl.
  - rewrite andb_true_iff. intros [Hc Hv].
    destruct (char_eqb c sep); [discriminate|]. now rewrite IH.
Qed.

Lemma strip_pad ws1 x ws2 :
  forallb is_space ws1 = true -> forallb is_space ws2 = true ->
  x <> [] -> trimmed x = true -> strip (ws1 ++ x ++ ws2) = x.
Proof.
  intros H1 H2 N [T1 T2]%andb_true_iff. unfold strip.
  rewrite drop_while_app; auto.
  - rewrite rev_app_distr, drop_while_app; auto.
    + apply rev_involutive.
    + rewrite forallb_forall in *. intros c Hc. apply H2.
      now apply in_rev.
    + now apply starts_clean_stops.
  - apply starts_clean_stops. now apply starts_clean_app.
Qed.

(** [float(v.strip())] on a number between blanks. *)
Lemma float_padded a v b :
  plain_number v = true -> blanks a = true -> blanks b = true ->
  py_float (strip (a ++ v ++ b)) = Some (number_of v).
Proof.
  intros Hv Ha Hb. destruct (plain_number_parts _ Hv) as (Cv & Nv & Hf).
  rewrite strip_pad; auto using blanks_spaces.
  unfold trimmed. apply andb_true_iff.
  now apply (clean_of_class is_numchar v numchar_not_space).
Qed.

Lemma padded_no_comma a v b :
  plain_number v = true -> blanks a = true -> blanks b = true ->
  forallb (fun c => negb (char_eqb c ",")) (a ++ v ++ b) = true.
Proof.
  intros (Cv & _ & _)%plain_number_parts Ha Hb.
  rewrite !forallb_app, (numchars_no_comma v),
    (blanks_all _ a), (blanks_all _ b) by auto.
  reflexivity.
Qed.

(** [vals.split(",")] and the conversion of the pieces, on the text of a
    list of numbers: [b'] is what is left of the separator before the
    first number. *)
Lemma float_list_text a b vs :
  Forall (fun v => plain_number v = true) vs -> vs <> [] ->
  blanks a = true -> blanks b = true ->
  forall b', blanks b' = true ->
    float_list (split_char "," (b' ++ list_text a b vs))
    = Some (map number_of vs).
Proof.
  intros F N Ha Hb. unfold list_text.
  induction F as [|v vs Hv F IH]; [congruence|]. intros b' Hb'.
  destruct vs as [|w vs].
  - replace (b' ++ join (separator a b) [v]) with (b' ++ v ++ [])
      by (simpl; now rewrite app_nil_r).
    rewrite split_char_no_sep by now apply padded_no_comma.
    cbn [float_list]. now rewrite float_padded.
  - replace (b' ++ join (separator a b) (v :: w :: vs))
      with ((b' ++ v ++ a)
              ++ ","%char :: (b ++ join (separator a b) (w :: vs)))
      by (rewrite join_cons; unfold separator at 2;
          rewrite <- !app_assoc; reflexivity).
    rewrite split_char_app_sep by now apply padded_no_comma.
    cbn [float_list]. rewrite float_padded, IH by (auto; discriminate).
    reflexivity.
Qed.

(** C2, as the code has it.  For an existing column and a list of plain
    numbers, typed with any whitespace around the operator and any blanks
    around the commas, both list conditions are evaluated without error
    and leave the frame as it is; the mask of [col != v1,...,vk] is the
    negation of the mask of [col = v1,...,vk] at every row; and a row
    whose cell has no numeric coercion is false in the [=] mask and true
    in the [!=] mask. *)
Theorem list_masks_complementary :
  forall (df : DataFrame) (col ws1 ws2 a b : str) (vs : list str),
    word col = true -> numbers vs ->
    forallb is_space ws1 = true -> forallb is_space ws2 = true ->
    blanks a = true -> blanks b = true ->
    has_col df col = true ->
    exists inc exc,
      parse_condition
        (comparison_text col ws1 (L "=") ws2 (list_text a b vs)) df
      = (Ok inc, df) /\
      parse_condition
        (comparison_text col ws1 (L "!=") ws2 (list_text a b vs)) df
      = (Ok exc, df) /\
      exc = series_not inc /\
      forall i c,
        cell_at df col i = Some c -> i < len df -> cell_num c = None ->
        mask_at inc i = Some false /\ mask_at exc i = Some true.
Proof.
  intros df col ws1 ws2 a b vs Hcol Hvs H1 H2 Ha Hb Hhas.
  destruct (has_col_lookup _ _ Hhas) as [vals Hvals].
  destruct (numbers_join (separator a b) vs Hvs
              (separator_listchars a b Ha Hb)) as (J1 & J2 & J3 & J4).
  fold (list_text a b vs) in J1, J2, J3, J4.
  assert (Hq : float_list (split_char "," (list_text a b vs))
               = Some (map number_of vs)).
  { destruct Hvs as [N F].
    now apply (float_list_text a b vs F N Ha Hb []). }
  exists (isin (combine (index df) vals) (map number_of vs)).
  eexists. split; [|split; [|split; [reflexivity|]]].
  - apply (parse_condition_include _ _ col (list_text a b vs)); auto.
    + now apply comparison_text_trimmed_gen.
    + apply comparison_text_not_exclude_gen; auto; [|discriminate].
      unfold operators. simpl. auto 10.
    + now apply list_text_include.
  - apply (parse_condition_exclude _ _ col (list_text a b vs)); auto.
    + now apply comparison_text_trimmed_gen.
    + now apply list_text_exclude.
  - intros i c Hcell Hi Hc. unfold cell_at in Hcell. rewrite Hvals in Hcell.
    unfold series_not, isin. rewrite smap_smap.
    rewrite !(mask_at_smap _ _ _ _ _ Hcell Hi).
    now rewrite isin_uncoercible.
Qed.

(** ** The equality text [col = text] *)

(** [ws] and [ws'] are the whitespace before and after the equals sign. *)
Definition equality_text (col ws ws' text : str) : str :=
  col ++ ws ++ L "=" ++ ws' ++ text.

Lemma equality_text_trimmed col ws ws' text :
  word col = true -> text <> [] -> trimmed text = true ->
  trimmed (equality_text col ws ws' text) = true.
Proof.
  intros [Ncol Wcol]%word_parts Nt [T1 T2]%andb_true_iff.
  unfold equality_text.
  rewrite (app_assoc (L "=")), (app_assoc ws).
  apply trimmed_ends; auto.
  now apply (clean_of_class is_word col word_not_space).
Qed.

Lemma equality_text_match col ws ws' text :
  word col = true -> forallb is_space ws = true ->
  forallb is_space ws' = true ->
  text <> [] -> trimmed text = true -> forallb is_dot text = true ->
  re_match pat_equal (equality_text col ws ws' text) = Some [col; text].
Proof.
  intros Hcol Hws Hws' Nt [T1 T2]%andb_true_iff Hdot.
  unfold pat_equal, equality_text.
  rewrite (re_match_head _ col ws (L "=" ++ ws' ++ text));
    auto using rejects_word_eq, rejects_space_eq; try reflexivity.
  rewrite (re_match_lit (Plain (Lit (L "="))) _ (L "=") (ws' ++ text)
             eq_refl).
  assert (G : re_match [Plain (Cls is_space Star); Group (Cls is_dot Plus)]
                       (ws' ++ text) = Some [text]).
  { pose proof (re_match_space_group is_dot ws' text [] Hws' Hdot) as G.
    rewrite app_nil_r in G. apply G.
    - now apply starts_clean_stops.
    - exact I.
    - destruct text; simpl; [congruence|lia]. }
  now rewrite G.
Qed.

(* ================================================================== *)
(** * Splitting on a keyword *)

Lemma split_aux_len_le kw s : forall prev skip acc part,
  In part (split_aux kw prev skip acc s) ->
  length part <= length acc + length s.
Proof.
  induction s as [|c s IH]; intros prev skip acc part; simpl.
  - intros [<-|[]]. rewrite length_rev. lia.
  - destruct skip as [|k].
    + destruct (occurs_at kw prev (c :: s)).
      * intros [<-|H].
        -- rewrite length_rev. lia.
        -- apply IH in H. simpl in H. lia.
      * intros H. apply IH in H. simpl in H. lia.
    + intros H. apply IH in H. lia.
Qed.

(** Either the text is not split, or every part is strictly shorter than
    the text. *)
Lemma split_aux_shorter kw s : forall prev skip acc,
  (exists x, split_aux kw prev skip acc s = [x]) \/
  (forall part, In part (split_aux kw prev skip acc s) ->
                length part < length acc + length s).
Proof.
  induction s as [|c s IH]; intros prev skip acc; simpl.
  - left. eauto.
  - destruct skip as [|k].
    + destruct (occurs_at kw prev (c :: s)).
      * right. intros part [<-|H].
        -- rewrite length_rev. lia.
        -- apply split_aux_len_le in H. simpl in H. lia.
      * destruct (IH (is_word c) 0 (c :: acc)) as [E|H]; [now left|].
        right. intros part Hp. apply H in Hp. simpl in Hp. lia.
    + right. intros part Hp. apply split_aux_len_le in Hp. lia.
Qed.

Lemma re_split_word_shorter kw s part :
  (1 <? length (re_split_word kw s)) = true ->
  In part (re_split_word kw s) -> length part < length s.
Proof.
  unfold re_split_word. intros H Hp.
  destruct (split_aux_shorter kw s false 0 []) as [[x E]|G].
  - rewrite E in H. discriminate.
  - apply G in Hp. simpl in Hp. lia.
Qed.

Lemma split_no_occ kw s : forall prev acc,
  no_occ kw prev s = true -> split_aux kw prev 0 acc s = [rev acc ++ s].
Proof.
  induction s as [|c s IH]; intros prev acc; simpl.
  - now rewrite app_nil_r.
  - rewrite andb_true_iff. intros [H1 H2].
    destruct (occurs_at kw prev (c :: s)); [discriminate|].
    rewrite IH by auto. simpl. now rewrite <- app_assoc.
Qed.

Lemma re_split_word_none kw s :
  no_occ kw false s = true -> re_split_word kw s = [s].
Proof. intros H. unfold re_split_word. now rewrite split_no_occ. Qed.

Lemma removelast_length {A} (l : list A) :
  length (removelast l) <= length l.
Proof.
  induction l as [|x l IH]; simpl; auto.
  destruct l; simpl in *; lia.
Qed.

Lemma unwrap_length s : length (unwrap s) <= length s.
Proof.
  unfold unwrap. destruct (_ && _); auto.
  etransitivity; [apply strip_length|]. unfold slice_1_m1.
  etransitivity; [apply removelast_length|].
  destruct s; simpl; lia.
Qed.

(* ================================================================== *)
(** * A program logic for the state and exception monad *)

(** From a state in [P], the computation does not run out of fuel; it
    returns a value and a state in [Q], or raises in a state in [E]. *)
Definition hoare {S A} (P : S -> Prop) (m : SM S A)
           (Q : A -> S -> Prop) (E : S -> Prop) : Prop :=
  forall s, P s ->
    match m s with
    | (Ok a, s') => Q a s'
    | (Raise _, s') => E s'
    | (OutOfFuel, _) => False
    end.

Lemma hoare_bind {S A B} (P : S -> Prop) (m : SM S A) (f : A -> SM S B)
      (Q1 : A -> S -> Prop) (Q : B -> S -> Prop) (E : S -> Prop) :
  hoare P m Q1 E -> (forall a, hoare (Q1 a) (f a) Q E) ->
  hoare P (bind m f) Q E.
Proof.
  intros Hm Hf s Hs. unfold bind. specialize (Hm s Hs).
  destruct (m s) as [[a|e|] s']; auto.
  now apply Hf.
Qed.

Lemma hoare_ret {S A} (P : S -> Prop) (a : A) (Q : A -> S -> Prop) E :
  (forall s, P s -> Q a s) -> hoare P (ret a) Q E.
Proof. intros H s Hs. now apply H. Qed.

Lemma hoare_raise {S A} (P : S -> Prop) e (Q : A -> S -> Prop)
      (E : S -> Prop) :
  (forall s, P s -> E s) -> hoare P (raise e) Q E.
Proof. intros H s Hs. now apply H. Qed.

Lemma hoare_gets {S A} (P : S -> Prop) (f : S -> A) (Q : A -> S -> Prop) E :
  (forall s, P s -> Q (f s) s) -> hoare P (gets f) Q E.
Proof. intros H s Hs. now apply H. Qed.

Lemma hoare_modify {S} (P : S -> Prop) (f : S -> S)
      (Q : unit -> S -> Prop) E :
  (forall s, P s -> Q tt (f s)) -> hoare P (modify f) Q E.
Proof. intros H s Hs. now apply H. Qed.

Lemma hoare_weaken {S A} (P P' : S -> Prop) (m : SM S A)
      (Q Q' : A -> S -> Prop) (E : S -> Prop) :
  hoare P' m Q' E -> (forall s, P s -> P' s) ->
  (forall a s, Q' a s -> Q a s) -> hoare P m Q E.
Proof.
  intros H HP HQ s Hs. specialize (H s (HP s Hs)).
  destruct (m s) as [[a|e|] s']; auto.
Qed.

(* ================================================================== *)
(** * What a filter can do to the frame it works on *)

(** The cells of a column [v] of the frame [df0] after its coercion. *)
Definition coerced (df0 : DataFrame) (v : list cell) : list cell :=
  map snd (to_numeric (combine (index df0) v)).

(** A column keeps its name, and its cells are the old ones or the old
    ones coerced to numbers. *)
Definition column_kept (df0 : DataFrame) (nc0 nc : str * list cell) : Prop :=
  fst nc = fst nc0 /\ (snd nc = snd nc0 \/ snd nc = coerced df0 (snd nc0)).

(** The frame [df] is [df0] up to the coercion of some columns: same index
    (so same row count), same columns in the same order. *)
Definition frame_kept (df0 df : DataFrame) : Prop :=
  index df = index df0 /\
  Forall2 (column_kept df0) (columns df0) (columns df).

Lemma Forall2_same {A} (R : A -> A -> Prop) l :
  (forall x, R x x) -> Forall2 R l l.
Proof. intros H. induction l; constructor; auto. Qed.

Lemma frame_kept_refl df : frame_kept df df.
Proof.
  split; auto. apply Forall2_same. intros x. split; auto.
Qed.

Lemma length_to_numeric s : length (to_numeric s) = length s.
Proof.
  unfold to_numeric. destruct (numeric_dtype _); auto.
  apply length_smap.
Qed.

Lemma labels_to_numeric s : labels (to_numeric s) = labels s.
Proof.
  unfold to_numeric. destruct (numeric_dtype _); auto.
  apply labels_smap.
Qed.

Lemma coerce_cell_float c : is_float_cell (coerce_cell c) = true.
Proof. unfold coerce_cell. now destruct (cell_num c). Qed.

Lemma to_numeric_idem s : to_numeric (to_numeric s) = to_numeric s.
Proof.
  unfold to_numeric.
  destruct (numeric_dtype (map snd s)) eqn:E.
  - now rewrite E.
  - assert (G : numeric_dtype (map snd (smap coerce_cell s)) = true);
      [|now rewrite G].
    unfold numeric_dtype. apply orb_true_iff. right.
    apply forallb_forall. intros c Hc.
    unfold smap in Hc. rewrite map_map in Hc. simpl in Hc.
    apply in_map_iff in Hc as (x & <- & _). apply coerce_cell_float.
Qed.

Lemma coerced_idem df0 v : coerced df0 (coerced df0 v) = coerced df0 v.
Proof.
  unfold coerced. now rewrite to_numeric_reread, to_numeric_idem.
Qed.

Lemma replace_col_kept df0 cs0 cs col v :
  Forall2 (column_kept df0) cs0 cs ->
  lookup_col cs col = Some v ->
  Forall2 (column_kept df0) cs0 (replace_col cs col (coerced df0 v)).
Proof.
  induction 1 as [|[n0 v0] [n w] cs0 cs [Hn Hv] F IH]; simpl;
    [discriminate|].
  simpl in Hn, Hv. destruct (str_eqb n col).
  - intros [= ->]. constructor; auto. split; simpl; auto.
    right. destruct Hv as [->| ->]; auto using coerced_idem.
  - intros H. constructor; auto. split; auto.
Qed.

Lemma frame_kept_setitem df0 df col v :
  frame_kept df0 df -> lookup_col (columns df) col = Some v ->
  frame_kept df0 (setitem df col (to_numeric (combine (index df) v))).
Proof.
  intros [Hi Hc] Hv. split; simpl; auto.
  rewrite Hi. now apply replace_col_kept.
Qed.

Lemma len_kept df0 df : frame_kept df0 df -> len df = len df0.
Proof. unfold len. now intros [-> _]. Qed.

Lemma lookup_kept df0 cs0 cs col v :
  Forall2 (column_kept df0) cs0 cs -> lookup_col cs col = Some v ->
  exists v0, In (col, v0) cs0 /\ (v = v0 \/ v = coerced df0 v0).
Proof.
  induction 1 as [|[n0 v0] [n w] cs0 cs [Hn Hv] F IH]; simpl;
    [discriminate|].
  simpl in Hn, Hv. destruct (str_eqb n col) eqn:E.
  - apply str_eqb_eq in E. subst. intros [= ->]. exists v0. auto.
  - intros H. destruct (IH H) as (x & Hx & Hy). exists x. auto.
Qed.

Lemma length_coerced df0 v :
  length v = len df0 -> length (coerced df0 v) = len df0.
Proof.
  intros H. unfold coerced.
  rewrite length_map, length_to_numeric, length_combine. unfold len in *.
  lia.
Qed.

Lemma lookup_length df0 df col v :
  loaded df0 -> frame_kept df0 df ->
  lookup_col (columns df) col = Some v -> length v = len df0.
Proof.
  intros [_ Hok] [_ Hc] Hv.
  destruct (lookup_kept _ _ _ _ _ Hc Hv) as (v0 & Hin & Hv0).
  unfold columns_ok in Hok. rewrite Forall_forall in Hok.
  specialize (Hok _ Hin). simpl in Hok.
  destruct Hv0 as [->| ->]; auto using length_coerced.
Qed.

Lemma labels_combine {A} idx (v : list A) :
  length v = length idx -> labels (combine idx v) = idx.
Proof.
  unfold labels. revert v.
  induction idx as [|l idx IH]; intros [|x v]; simpl; try discriminate;
    auto.
  intros [= H]. now rewrite IH.
Qed.

(** The invariant of a filter run that started on the frame [df0], and
    what holds of the masks it computes. *)
Section Run.

Variable df0 : DataFrame.

Definition kept (df : DataFrame) : Prop := frame_kept df0 df.

(** A series read from the frame, or a mask: on a loaded frame it carries
    the default index. *)
Definition aligned {A} (s : Series A) : Prop :=
  loaded df0 -> labels s = seq 0 (len df0).

Definition mask_spec (m : M (Series bool)) : Prop :=
  hoare kept m (fun mask df => kept df /\ aligned mask) kept.

Lemma aligned_const b df : kept df -> aligned (const_series b (len df)).
Proof.
  intros K _. rewrite labels_const. now rewrite (len_kept _ _ K).
Qed.

Lemma aligned_smap {A B} (f : A -> B) s : aligned s -> aligned (smap f s).
Proof. intros H L. rewrite labels_smap. auto. Qed.

Lemma aligned_logical op a b :
  aligned a -> aligned b -> aligned (logical_op op a b).
Proof.
  intros Ha Hb Ld. rewrite labels_logical_op_same; auto.
  now rewrite Ha, Hb.
Qed.

Lemma aligned_column df col s :
  kept df -> column df col = Ok s -> aligned s.
Proof.
  unfold column, getitem. intros K.
  destruct (lookup_col (columns df) col) as [v|] eqn:E; [|discriminate].
  intros [= <-] Ld.
  rewrite labels_combine.
  - destruct K as [-> _]. apply Ld.
  - rewrite (lookup_length _ _ _ _ Ld K E). symmetry. apply (len_kept _ _ K).
Qed.

Lemma mask_spec_all_false : mask_spec all_false.
Proof.
  apply hoare_gets. intros df K. split; auto. now apply aligned_const.
Qed.

Lemma mask_spec_all_true : mask_spec all_true.
Proof.
  apply hoare_gets. intros df K. split; auto. now apply aligned_const.
Qed.

Lemma hoare_has_col col :
  hoare kept (gets (fun df => has_col df col)) (fun _ df => kept df) kept.
Proof. now apply hoare_gets. Qed.

Lemma hoare_floats_of vs :
  hoare kept (floats_of vs) (fun _ df => kept df) kept.
Proof.
  unfold floats_of. destruct (float_list vs).
  - now apply hoare_ret.
  - now apply hoare_raise.
Qed.

Lemma hoare_float_of s :
  hoare kept (float_of s) (fun _ df => kept df) kept.
Proof.
  unfold float_of. destruct (py_float s).
  - now apply hoare_ret.
  - now apply hoare_raise.
Qed.

Lemma hoare_read_col (P : DataFrame -> Prop) col :
  (forall df, P df -> kept df) ->
  hoare P (read_col col)
        (fun s df => P df /\ column df col = Ok s /\ aligned s) kept.
Proof.
  intros HP df Hdf. unfold read_col.
  destruct (column df col) as [s|e|] eqn:E; auto.
  - repeat split; auto. eapply aligned_column; eauto.
  - unfold column in E. destruct (getitem df col); discriminate.
Qed.

Lemma hoare_coerce col s :
  hoare (fun df => kept df /\ column df col = Ok s /\ aligned s)
        (assign_col col (to_numeric s))
        (fun _ df => kept df /\ column df col = Ok (to_numeric s)) kept.
Proof.
  apply hoare_modify. intros df (K & C & _).
  unfold column, getitem in C.
  destruct (lookup_col (columns df) col) as [v|] eqn:E; [|discriminate].
  injection C as <-. split.
  - now apply frame_kept_setitem.
  - apply column_setitem.
Qed.

End Run.

Lemma hoare_coerce_then {A} df0 col (k : Series cell -> M A)
      (Q : A -> DataFrame -> Prop) :
  (forall s, aligned df0 s ->
     hoare (fun df => kept df0 df /\ column df col = Ok (to_numeric s))
           (k (to_numeric s)) Q (kept df0)) ->
  hoare (kept df0)
        (s <- read_col col ;;
         assign_col col (to_numeric s) ;;;
         s' <- read_col col ;;
         k s')
        Q (kept df0).
Proof.
  intros Hk.
  eapply hoare_bind; [apply hoare_read_col; auto|]. intros s.
  intros df (K & C & Al).
  unfold bind at 1.
  pose proof (hoare_coerce df0 col s df (conj K (conj C Al))) as H1.
  destruct (assign_col col (to_numeric s) df) as [[[]|e|] df1]; auto.
  destruct H1 as [K1 C1].
  unfold bind, read_col. rewrite C1.
  now apply (Hk s Al).
Qed.

Lemma aligned_to_numeric df0 s : aligned df0 s -> aligned df0 (to_numeric s).
Proof. intros H Ld. rewrite labels_to_numeric. auto. Qed.

Lemma mask_spec_categorical df0 cond :
  mask_spec df0 (categorical_equality cond).
Proof.
  unfold categorical_equality.
  destruct (re_match pat_equal cond); [|apply mask_spec_all_false].
  eapply hoare_bind; [apply hoare_has_col|]. intros present.
  destruct (negb present); [apply mask_spec_all_false|].
  eapply hoare_bind; [apply hoare_read_col; auto|]. intros s.
  apply hoare_ret. intros df (K & C & Al). split; auto.
  now apply aligned_smap.
Qed.

Lemma mask_spec_ord df0 col op s v :
  aligned df0 s ->
  hoare (fun df => kept df0 df /\ column df col = Ok (to_numeric s))
        (lift (series_ord op (to_numeric s) v))
        (fun m df => kept df0 df /\ aligned df0 m) (kept df0).
Proof.
  intros Al df [K C]. unfold lift. rewrite series_ord_to_numeric.
  split; auto. now apply aligned_smap.
Qed.

(** Whatever the condition text, [parse_condition] does not loop, keeps
    the frame up to coercions, and returns an aligned mask if it returns. *)
Lemma mask_spec_parse_condition df0 cond :
  mask_spec df0 (parse_condition cond).
Proof.
  unfold parse_condition.
  destruct (re_match pat_exclude (strip cond)) as [m1|].
  { eapply hoare_bind; [apply hoare_has_col|]. intros present.
    destruct (negb present); [apply mask_spec_all_false|].
    eapply hoare_bind; [apply hoare_floats_of|]. intros qs.
    eapply hoare_bind; [apply hoare_read_col; auto|]. intros s.
    apply hoare_ret. intros df (K & C & Al). split; auto.
    unfold series_not. now apply aligned_smap, aligned_smap. }
  destruct (re_match pat_include (strip cond)) as [m2|].
  { eapply hoare_bind; [apply hoare_has_col|]. intros present.
    destruct (negb present); [apply mask_spec_all_false|].
    eapply hoare_bind; [apply hoare_floats_of|]. intros qs.
    eapply hoare_bind; [apply hoare_read_col; auto|]. intros s.
    apply hoare_ret. intros df (K & C & Al). split; auto.
    now apply aligned_smap. }
  destruct (re_match pat_range (strip cond)) as [m3|].
  { eapply hoare_bind; [apply hoare_float_of|]. intros val1.
    eapply hoare_bind; [apply hoare_float_of|]. intros val2.
    eapply hoare_bind; [apply hoare_has_col|]. intros present.
    destruct (negb present); [apply mask_spec_all_false|].
    apply hoare_coerce_then. intros s Al.
    intros df [K C]. unfold bind, lift, read_col, ret.
    rewrite series_ord_to_numeric, C, series_ord_to_numeric.
    split; auto. apply aligned_logical; now apply aligned_smap. }
  destruct (re_match pat_compare (strip cond)) as [m4|];
    [|apply mask_spec_categorical].
  eapply hoare_bind; [apply hoare_float_of|]. intros val.
  eapply hoare_bind; [apply hoare_has_col|]. intros present.
  destruct (negb present); [apply mask_spec_all_false|].
  apply hoare_coerce_then. intros s Al.
  repeat match goal with
         | |- hoare _ (if ?b then _ else _) _ _ => destruct b
         end;
    try (now apply mask_spec_ord).
  - apply hoare_ret. intros df [K C]. split; auto.
    now apply aligned_smap, aligned_to_numeric.
  - apply hoare_ret. intros df [K C]. split; auto.
    now apply aligned_smap, aligned_to_numeric.
  - eapply hoare_weaken; [apply mask_spec_categorical| |auto].
    now intros df [K _].
Qed.

(* ================================================================== *)
(** * [evaluate_filter] *)

Lemma hoare_assume {S A} (P : S -> Prop) (F : Prop) (m : SM S A) Q E :
  (F -> hoare P m Q E) -> hoare (fun s => P s /\ F) m Q E.
Proof. intros H s [Hs HF]. now apply H. Qed.

Lemma mask_spec_accumulate df0 op eval parts :
  (forall a b, aligned df0 a -> aligned df0 b -> aligned df0 (op a b)) ->
  (forall part, In part parts -> mask_spec df0 (eval part)) ->
  forall mask, aligned df0 mask ->
    mask_spec df0 (accumulate op eval parts mask).
Proof.
  intros Hop. induction parts as [|part parts IH]; intros Hev mask Hm;
    simpl.
  - apply hoare_ret. auto.
  - eapply hoare_bind; [apply Hev; now left|]. intros m.
    apply hoare_assume. intros Al. apply IH; auto.
    intros p Hp. apply Hev. now right.
Qed.

Lemma evaluate_filter_fuel_S fuel expr :
  evaluate_filter_fuel (S fuel) expr =
  (let e := unwrap (strip expr) in
   if 1 <? length (re_split_word (L "OR") e) then
     mask <- all_false ;;
     accumulate series_or (evaluate_filter_fuel fuel)
                (re_split_word (L "OR") e) mask
   else if 1 <? length (re_split_word (L "AND") e) then
     mask <- all_true ;;
     accumulate series_and (evaluate_filter_fuel fuel)
                (re_split_word (L "AND") e) mask
   else parse_condition e).
Proof. reflexivity. Qed.

(** With more fuel than the text is long, [evaluate_filter] does not run
    out of fuel; it keeps the frame up to coercions and returns an aligned
    mask if it returns. *)
Lemma mask_spec_evaluate df0 : forall fuel expr,
  length expr < fuel -> mask_spec df0 (evaluate_filter_fuel fuel expr).
Proof.
  induction fuel as [|fuel IH]; intros expr Hlen; [lia|].
  rewrite evaluate_filter_fuel_S. cbv zeta.
  pose proof (unwrap_length (strip expr)) as L1.
  pose proof (strip_length expr) as L2.
  set (e := unwrap (strip expr)) in *.
  destruct (1 <? length (re_split_word (L "OR") e)) eqn:Eor.
  - eapply hoare_bind; [apply mask_spec_all_false|]. intros mask.
    apply hoare_assume. intros Al.
    apply mask_spec_accumulate; auto.
    + intros a b. apply aligned_logical.
    + intros part Hp. apply IH.
      pose proof (re_split_word_shorter _ _ _ Eor Hp). lia.
  - destruct (1 <? length (re_split_word (L "AND") e)) eqn:Eand.
    + eapply hoare_bind; [apply mask_spec_all_true|]. intros mask.
      apply hoare_assume. intros Al.
      apply mask_spec_accumulate; auto.
      * intros a b. apply aligned_logical.
      * intros part Hp. apply IH.
        pose proof (re_split_word_shorter _ _ _ Eand Hp). lia.
    + apply mask_spec_parse_condition.
Qed.

Lemma accumulate_ext op f g parts :
  (forall part, In part parts -> forall df, f part df = g part df) ->
  forall mask df,
    accumulate op f parts mask df = accumulate op g parts mask df.
Proof.
  induction parts as [|part parts IH]; intros H mask df; simpl; auto.
  unfold bind. rewrite (H part) by now left.
  destruct (g part df) as [[m|e|] df']; auto.
  apply IH. intros p Hp. apply H. now right.
Qed.

(** Any two amounts of fuel above the length of the text give the same
    run. *)
Lemma evaluate_filter_fuel_enough : forall n m expr df,
  length expr < n -> length expr < m ->
  evaluate_filter_fuel n expr df = evaluate_filter_fuel m expr df.
Proof.
  induction n as [|n IH]; intros [|m] expr df Hn Hm; try lia.
  rewrite !evaluate_filter_fuel_S. cbv zeta.
  pose proof (unwrap_length (strip expr)) as L1.
  pose proof (strip_length expr) as L2.
  set (e := unwrap (strip expr)) in *.
  destruct (1 <? length (re_split_word (L "OR") e)) eqn:Eor.
  - unfold bind. destruct (all_false df) as [[mask|x|] df']; auto.
    apply accumulate_ext. intros part Hp d.
    pose proof (re_split_word_shorter _ _ _ Eor Hp). apply IH; lia.
  - destruct (1 <? length (re_split_word (L "AND") e)) eqn:Eand; auto.
    unfold bind. destruct (all_true df) as [[mask|x|] df']; auto.
    apply accumulate_ext. intros part Hp d.
    pose proof (re_split_word_shorter _ _ _ Eand Hp). apply IH; lia.
Qed.

(** The recursion equation of [evaluate_filter]. *)
Lemma evaluate_filter_step expr df :
  evaluate_filter expr df =
  (let e := unwrap (strip expr) in
   if 1 <? length (re_split_word (L "OR") e) then
     mask <- all_false ;;
     accumulate series_or evaluate_filter (re_split_word (L "OR") e) mask
   else if 1 <? length (re_split_word (L "AND") e) then
     mask <- all_true ;;
     accumulate series_and evaluate_filter (re_split_word (L "AND") e) mask
   else parse_condition e) df.
Proof.
  unfold evaluate_filter at 1.
  rewrite evaluate_filter_fuel_S. cbv zeta.
  pose proof (unwrap_length (strip expr)) as L1.
  pose proof (strip_length expr) as L2.
  set (e := unwrap (strip expr)) in *.
  destruct (1 <? length (re_split_word (L "OR") e)) eqn:Eor.
  - unfold bind. destruct (all_false df) as [[mask|x|] df']; auto.
    apply accumulate_ext. intros part Hp d.
    pose proof (re_split_word_shorter _ _ _ Eor Hp).
    apply evaluate_filter_fuel_enough; lia.
  - destruct (1 <? length (re_split_word (L "AND") e)) eqn:Eand; auto.
    unfold bind. destruct (all_true df) as [[mask|x|] df']; auto.
    apply accumulate_ext. intros part Hp d.
    pose proof (re_split_word_shorter _ _ _ Eand Hp).
    apply evaluate_filter_fuel_enough; lia.
Qed.

Lemma mask_spec_evaluate_filter df0 expr :
  mask_spec df0 (evaluate_filter expr).
Proof. apply mask_spec_evaluate. lia. Qed.

(** [evaluate_filter] returns or raises: the fuel never runs out. *)
Lemma evaluate_filter_total expr df :
  fst (evaluate_filter expr df) <> OutOfFuel.
Proof.
  pose proof (mask_spec_evaluate_filter df expr df (frame_kept_refl df)) as H.
  destruct (evaluate_filter expr df) as [[m|e|] df']; simpl;
    try discriminate. contradiction.
Qed.

(** The text only matters up to whitespace at its ends. *)
Lemma evaluate_filter_strip expr df :
  evaluate_filter (strip expr) df = evaluate_filter expr df.
Proof. rewrite !evaluate_filter_step. now rewrite strip_idem. Qed.

(* ================================================================== *)
(** * Splitting a text built from atomic conditions *)

Lemma upper_word c : is_word (upper c) = is_word c.
Proof.
  pose proof (all_ascii_spec
    (fun c => Bool.eqb (is_word (upper c)) (is_word c)) eq_refl c) as H.
  now apply Bool.eqb_prop in H.
Qed.

Lemma prefix_ci_refl kw t : prefix_ci kw (kw ++ t) = true.
Proof. induction kw; simpl; auto. now rewrite char_eqb_refl. Qed.

Lemma char_ci_word k c :
  is_word k = true -> is_word c = false ->
  char_eqb (upper k) (upper c) = false.
Proof.
  intros Hk Hc. destruct (char_eqb (upper k) (upper c)) eqn:E; auto.
  apply char_eqb_eq in E.
  rewrite <- (upper_word k), E, upper_word in Hk. congruence.
Qed.

(** A keyword made of word characters cannot run over a space, so what
    follows a space never matters to an occurrence before it. *)
Lemma occurs_core_sep kw : forall s t,
  forallb is_word kw = true ->
  prefix_ci kw (s ++ " "%char :: t) && boundary_after kw (s ++ " "%char :: t)
  = prefix_ci kw s && boundary_after kw s.
Proof.
  unfold boundary_after.
  induction kw as [|k kw IH]; intros s t Hkw.
  - destruct s; reflexivity.
  - simpl in Hkw. apply andb_true_iff in Hkw as [Hk Hkw].
    destruct s as [|c s].
    + simpl. now rewrite (char_ci_word k " "%char Hk eq_refl).
    + simpl. rewrite <- !andb_assoc. f_equal. now apply IH.
Qed.

Lemma occurs_at_sep kw p s t :
  forallb is_word kw = true ->
  occurs_at kw p (s ++ " "%char :: t) = occurs_at kw p s.
Proof.
  intros Hkw. unfold occurs_at. rewrite <- !andb_assoc.
  now rewrite occurs_core_sep.
Qed.

Lemma occurs_at_space kw p t :
  forallb is_word kw = true -> kw <> [] ->
  occurs_at kw p (" "%char :: t) = false.
Proof.
  intros Hkw N. change (" "%char :: t) with ([] ++ " "%char :: t).
  rewrite (occurs_at_sep kw p [] t Hkw).
  unfold occurs_at. destruct kw; [congruence|]. simpl.
  now rewrite andb_false_r.
Qed.

Lemma no_occ_app kw X : forall p T,
  forallb is_word kw = true -> kw <> [] ->
  no_occ kw p X = true -> no_occ kw false T = true ->
  no_occ kw p (X ++ " "%char :: T) = true.
Proof.
  induction X as [|c X IH]; intros p T Hkw N HX HT.
  - simpl app. change (no_occ kw p (" "%char :: T))
      with (negb (occurs_at kw p (" "%char :: T)) && no_occ kw false T).
    now rewrite occurs_at_space, HT.
  - simpl in HX. apply andb_true_iff in HX as [H1 H2].
    change (no_occ kw p ((c :: X) ++ " "%char :: T))
      with (negb (occurs_at kw p ((c :: X) ++ " "%char :: T))
            && no_occ kw (is_word c) (X ++ " "%char :: T)).
    rewrite occurs_at_sep by auto. rewrite H1. simpl. now apply IH.
Qed.

(** The scan passes over a text without occurrence and the space after
    it. *)
Lemma split_scan kw X : forall p acc tail,
  forallb is_word kw = true -> kw <> [] ->
  no_occ kw p X = true ->
  split_aux kw p 0 acc (X ++ " "%char :: tail)
  = split_aux kw false 0 (" "%char :: rev X ++ acc) tail.
Proof.
  induction X as [|c X IH]; intros p acc tail Hkw N HX.
  - simpl app.
    change (split_aux kw p 0 acc (" "%char :: tail))
      with (if occurs_at kw p (" "%char :: tail)
            then rev acc :: split_aux kw false (length kw - 1) [] tail
            else split_aux kw false 0 (" "%char :: acc) tail).
    now rewrite occurs_at_space.
  - simpl in HX. apply andb_true_iff in HX as [H1 H2].
    change (split_aux kw p 0 acc ((c :: X) ++ " "%char :: tail))
      with (if occurs_at kw p ((c :: X) ++ " "%char :: tail)
            then rev acc :: split_aux kw (is_word c) (length kw - 1) []
                                      (X ++ " "%char :: tail)
            else split_aux kw (is_word c) 0 (c :: acc)
                           (X ++ " "%char :: tail)).
    rewrite occurs_at_sep by auto.
    destruct (occurs_at kw p (c :: X)); [discriminate|].
    rewrite IH by auto. simpl. now rewrite <- app_assoc.
Qed.

Lemma split_skip kw u : forall p acc s,
  u <> [] ->
  split_aux kw p (length u) acc (u ++ s)
  = split_aux kw (is_word (last u " "%char)) 0 acc s.
Proof.
  induction u as [|c u IH]; intros p acc s N; [congruence|].
  destruct u as [|d u].
  - reflexivity.
  - change (split_aux kw p (length (c :: d :: u)) acc ((c :: d :: u) ++ s))
      with (split_aux kw (is_word c) (length (d :: u)) acc ((d :: u) ++ s)).
    rewrite IH by discriminate. reflexivity.
Qed.

Lemma is_word_last kw :
  forallb is_word kw = true -> kw <> [] ->
  is_word (last kw " "%char) = true.
Proof.
  intros H N. rewrite forallb_forall in H. apply H.
  destruct (exists_last N) as (u & x & ->).
  rewrite last_last. apply in_or_app. right. now left.
Qed.

(** A text with one whole-word keyword between two texts without it is
    split there: the spaces stay with the parts. *)
Lemma split_at_kw kw X Y :
  forallb is_word kw = true -> kw <> [] ->
  no_occ kw false X = true -> no_occ kw false Y = true ->
  re_split_word kw (X ++ " "%char :: kw ++ " "%char :: Y)
  = [X ++ [" "%char]; " "%char :: Y].
Proof.
  intros Hkw N HX HY. unfold re_split_word.
  rewrite split_scan by auto.
  destruct kw as [|k kw]; [congruence|].
  change (split_aux (k :: kw) false 0 (" "%char :: rev X ++ [])
                    ((k :: kw) ++ " "%char :: Y))
    with (if occurs_at (k :: kw) false ((k :: kw) ++ " "%char :: Y)
          then rev (" "%char :: rev X ++ [])
               :: split_aux (k :: kw) (is_word k) (length (k :: kw) - 1) []
                            (kw ++ " "%char :: Y)
          else split_aux (k :: kw) (is_word k) 0
                         (k :: " "%char :: rev X ++ [])
                         (kw ++ " "%char :: Y)).
  assert (O : occurs_at (k :: kw) false ((k :: kw) ++ " "%char :: Y) = true).
  { unfold occurs_at, boundary_after.
    rewrite prefix_ci_refl, skipn_app, skipn_all, Nat.sub_diag.
    reflexivity. }
  rewrite O, app_nil_r. simpl rev. rewrite rev_involutive. f_equal.
  assert (T : split_aux (k :: kw) true 0 [] (" "%char :: Y)
              = [" "%char :: Y]).
  { change (split_aux (k :: kw) true 0 [] (" "%char :: Y))
      with (split_aux (k :: kw) false 0 [" "%char] Y).
    now rewrite split_no_occ. }
  change (length (k :: kw) - 1) with (length kw - 0).
  rewrite Nat.sub_0_r.
  destruct kw as [|k' kw].
  - simpl in Hkw. rewrite andb_true_r in Hkw. simpl app. simpl length.
    now rewrite Hkw.
  - rewrite split_skip by discriminate.
    rewrite is_word_last; [exact T| |discriminate].
    simpl in Hkw. now apply andb_true_iff in Hkw as [_ Hkw].
Qed.

(* ================================================================== *)
(** * [A AND B OR C] *)

Definition precedence_text (A B C : str) : str :=
  A ++ L " AND " ++ B ++ L " OR " ++ C.

Lemma atomic_parts s :
  atomic s = true ->
  s <> [] /\ trimmed s = true /\ no_occ (L "OR") false s = true /\
  no_occ (L "AND") false s = true /\ startswith (L "(") s = false.
Proof.
  unfold atomic. rewrite !andb_true_iff, negb_true_iff.
  intros ((((H1 & H2) & H3) & H4) & H5). repeat split; auto.
  intros ->. discriminate.
Qed.

Lemma strip_pad_right x :
  x <> [] -> trimmed x = true -> strip (x ++ L " ") = x.
Proof. intros N T. now apply (strip_pad [] x (L " ")). Qed.

Lemma strip_pad_left x :
  x <> [] -> trimmed x = true -> strip (L " " ++ x) = x.
Proof.
  intros N T. rewrite <- (app_nil_r x) at 1.
  now apply (strip_pad (L " ") x []).
Qed.

Lemma unwrap_plain s : startswith (L "(") s = false -> unwrap s = s.
Proof. unfold unwrap. now intros ->. Qed.

Lemma startswith_paren_app a t :
  a <> [] -> startswith (L "(") (a ++ t) = startswith (L "(") a.
Proof. destruct a; [congruence|reflexivity]. Qed.

Lemma evaluate_filter_padded_right x df :
  x <> [] -> trimmed x = true ->
  evaluate_filter (x ++ L " ") df = evaluate_filter x df.
Proof.
  intros N T. rewrite <- (evaluate_filter_strip (x ++ L " ")).
  now rewrite strip_pad_right.
Qed.

Lemma evaluate_filter_padded_left x df :
  x <> [] -> trimmed x = true ->
  evaluate_filter (L " " ++ x) df = evaluate_filter x df.
Proof.
  intros N T. rewrite <- (evaluate_filter_strip (L " " ++ x)).
  now rewrite strip_pad_left.
Qed.

Definition and_text (A B : str) : str := A ++ L " AND " ++ B.

Lemma and_text_trimmed A B :
  atomic A = true -> atomic B = true ->
  and_text A B <> [] /\ trimmed (and_text A B) = true /\
  startswith (L "(") (and_text A B) = false.
Proof.
  intros (NA & TA & _ & _ & PA)%atomic_parts
         (NB & TB & _ & _ & _)%atomic_parts.
  apply andb_true_iff in TA as [TA1 TA2].
  apply andb_true_iff in TB as [TB1 TB2].
  unfold and_text. repeat split.
  - destruct A; [congruence|discriminate].
  - now apply trimmed_ends.
  - now rewrite startswith_paren_app.
Qed.

(** The conjunction of two atomic conditions. *)
Lemma evaluate_filter_and A B df :
  atomic A = true -> atomic B = true ->
  evaluate_filter (and_text A B) df =
  (mA <- evaluate_filter A ;;
   mB <- evaluate_filter B ;;
   ret (series_and (series_and (const_series true (len df)) mA) mB)) df.
Proof.
  intros HA HB.
  destruct (and_text_trimmed A B HA HB) as (N & T & P).
  destruct (atomic_parts _ HA) as (NA & TA & OA & AA & PA).
  destruct (atomic_parts _ HB) as (NB & TB & OB & AB & PB).
  rewrite evaluate_filter_step. cbv zeta.
  rewrite (strip_trimmed _ T), (unwrap_plain _ P).
  assert (E1 : re_split_word (L "OR") (and_text A B) = [and_text A B]).
  { apply re_split_word_none. unfold and_text.
    apply (no_occ_app (L "OR") A); auto; discriminate. }
  assert (E2 : re_split_word (L "AND") (and_text A B)
               = [A ++ L " "; L " " ++ B]).
  { now apply (split_at_kw (L "AND") A B). }
  rewrite E1, E2. cbn [length Nat.ltb Nat.leb accumulate].
  unfold bind, all_true, gets, ret.
  rewrite (evaluate_filter_padded_right A) by auto.
  destruct (evaluate_filter A df) as [[mA|e|] d1]; auto.
  now rewrite (evaluate_filter_padded_left B) by auto.
Qed.

Lemma precedence_text_assoc A B C :
  precedence_text A B C = and_text A B ++ " "%char :: L "OR" ++ " "%char :: C.
Proof.
  unfold precedence_text, and_text. now rewrite <- !app_assoc.
Qed.

Lemma run_spec df0 expr d m d' :
  kept df0 d -> evaluate_filter expr d = (Ok m, d') ->
  kept df0 d' /\ aligned df0 m.
Proof.
  intros K E.
  pose proof (mask_spec_evaluate_filter df0 expr d K) as H.
  now rewrite E in H.
Qed.

(** C1, as the code has it.  On a loaded frame and for atomic condition
    texts [A], [B] and [C], the text [A AND B OR C] is split on [OR]
    first, so its mask is [(A AND B) OR C]: the masks of [A], [B] and [C],
    evaluated in this order on the frame as the conditions before them
    left it, combined as [(mA & mB) | mC]; an exception of one of them is
    the exception of the whole. *)
Theorem and_or_grouping :
  forall (df : DataFrame) (A B C : str),
    loaded df -> atomic A = true -> atomic B = true -> atomic C = true ->
    evaluate_filter (precedence_text A B C) df =
    (mA <- evaluate_filter A ;;
     mB <- evaluate_filter B ;;
     mC <- evaluate_filter C ;;
     ret (series_or (series_and mA mB) mC)) df.
Proof.
  intros df A B C Ld HA HB HC.
  destruct (and_text_trimmed A B HA HB) as (NX & TX & PX).
  destruct (atomic_parts _ HA) as (NA & TA & OA & AA & PA).
  destruct (atomic_parts _ HB) as (NB & TB & OB & AB & PB).
  destruct (atomic_parts _ HC) as (NC & TC & OC & AC & PC).
  assert (OX : no_occ (L "OR") false (and_text A B) = true).
  { unfold and_text. apply (no_occ_app (L "OR") A); auto; discriminate. }
  rewrite evaluate_filter_step. cbv zeta.
  rewrite precedence_text_assoc.
  assert (T : trimmed (and_text A B ++ " "%char :: L "OR" ++ " "%char :: C)
              = true).
  { apply andb_true_iff in TX as [T1 _]. apply andb_true_iff in TC as [_ T2].
    change (and_text A B ++ " "%char :: L "OR" ++ " "%char :: C)
      with (and_text A B ++ L " OR " ++ C).
    now apply trimmed_ends. }
  rewrite (strip_trimmed _ T), unwrap_plain
    by now rewrite startswith_paren_app.
  rewrite (split_at_kw (L "OR") (and_text A B) C) by (auto; discriminate).
  cbn [length Nat.ltb Nat.leb accumulate].
  unfold bind, all_false, gets, ret.
  rewrite (evaluate_filter_padded_right (and_text A B)) by auto.
  rewrite evaluate_filter_and by auto.
  unfold bind, ret.
  destruct (evaluate_filter A df) as [[mA|e|] d1] eqn:EA; auto.
  destruct (run_spec df A df mA d1 (frame_kept_refl df) EA) as [K1 AlA].
  destruct (evaluate_filter B d1) as [[mB|e|] d2] eqn:EB; auto.
  destruct (run_spec df B d1 mB d2 K1 EB) as [K2 AlB].
  change (" "%char :: C) with (L " " ++ C).
  rewrite (evaluate_filter_padded_left C) by auto.
  destruct (evaluate_filter C d2) as [[mC|e|] d3] eqn:EC; auto.
  rewrite (series_and_seed _ mA (AlA Ld)).
  rewrite series_or_seed; auto.
  unfold series_and. rewrite labels_logical_op_same; auto.
  now rewrite AlA, AlB.
Qed.

(* ================================================================== *)
(** * Masks have the length of the frame; unknown columns *)

Lemma aligned_length df (m : Series bool) :
  loaded df -> aligned df m -> length m = len df.
Proof.
  intros Ld Al. apply (f_equal (@length nat)) in Al; auto.
  unfold labels in Al. now rewrite length_map, length_seq in Al.
Qed.

(** On a loaded frame, a mask that [evaluate_filter] returns has one entry
    per row, and the frame keeps its rows. *)
Lemma evaluate_filter_mask_length df expr m df' :
  loaded df -> evaluate_filter expr df = (Ok m, df') ->
  length m = len df /\ len df' = len df.
Proof.
  intros Ld E.
  destruct (run_spec df expr df m df' (frame_kept_refl df) E) as [K Al].
  split; [now apply aligned_length | apply (len_kept _ _ K)].
Qed.

Lemma parse_condition_mask_length df cond m df' :
  loaded df -> parse_condition cond df = (Ok m, df') ->
  length m = len df /\ len df' = len df.
Proof.
  intros Ld E.
  pose proof (mask_spec_parse_condition df cond df (frame_kept_refl df)) as H.
  rewrite E in H. destruct H as [K Al].
  split; [now apply aligned_length | apply (len_kept _ _ K)].
Qed.

(** No shape matches: the all-false mask. *)
Lemma parse_condition_no_shape cond df :
  re_match pat_exclude (strip cond) = None ->
  re_match pat_include (strip cond) = None ->
  re_match pat_range (strip cond) = None ->
  re_match pat_compare (strip cond) = None ->
  re_match pat_equal (strip cond) = None ->
  parse_condition cond df = (Ok (const_series false (len df)), df).
Proof.
  intros H1 H2 H3 H4 H5.
  unfold parse_condition, categorical_equality.
  now rewrite H1, H2, H3, H4, H5.
Qed.

(** A single comparison, or a one-number list condition, on a column that
    does not exist, with a plain number: the all-false mask. *)
Lemma comparison_unknown_column df col ws1 op ws2 value :
  word col = true -> plain_number value = true -> In op operators ->
  forallb is_space ws1 = true -> forallb is_space ws2 = true ->
  has_col df col = false ->
  parse_condition (comparison_text col ws1 op ws2 value) df
  = (Ok (const_series false (len df)), df).
Proof.
  intros Hcol Hval Hop H1 H2 Hno.
  pose proof (comparison_text_trimmed col ws1 op ws2 value Hcol Hval) as Ht.
  pose proof (comparison_text_not_range col ws1 op ws2 value Hcol Hval Hop
                H1 H2) as Hr.
  destruct (plain_number_parts _ Hval) as (_ & _ & Hf).
  assert (Ord : forall test, In (op, test) orderings ->
            op <> L "!=" -> op <> L "=" ->
            parse_condition (comparison_text col ws1 op ws2 value) df
            = (Ok (const_series false (len df)), df)).
  { intros test Hin N1 N2. unfold parse_condition.
    rewrite (strip_trimmed _ Ht).
    rewrite comparison_text_not_exclude, comparison_text_not_include, Hr,
      (comparison_text_compare col ws1 op ws2 test) by auto.
    unfold group, float_of. cbn [nth Nat.sub]. rewrite Hf.
    unfold all_false, bind, ret, gets. cbv beta iota. now rewrite Hno. }
  unfold operators in Hop. simpl in Hop.
  destruct Hop as [E|[E|[E|[E|[E|[E|[]]]]]]]; subst op.
  - apply (Ord Qge_bool); [simpl; auto | discriminate | discriminate].
  - apply (Ord Qle_bool); [simpl; auto | discriminate | discriminate].
  - apply (Ord Qgt_bool); [simpl; auto | discriminate | discriminate].
  - apply (Ord Qlt_bool); [simpl; auto | discriminate | discriminate].
  - unfold parse_condition. rewrite (strip_trimmed _ Ht).
    rewrite comparison_text_not_exclude
      by (auto; try discriminate; unfold operators; simpl; auto 10).
    rewrite comparison_text_include by auto.
    unfold group, all_false, bind, gets. cbn [nth Nat.sub]. cbv beta iota.
    now rewrite Hno.
  - unfold parse_condition. rewrite (strip_trimmed _ Ht).
    rewrite comparison_text_exclude by auto.
    unfold group, all_false, bind, gets. cbn [nth Nat.sub]. cbv beta iota.
    now rewrite Hno.
Qed.

(** A range on a column that does not exist, with plain numbers: the
    all-false mask. *)
Lemma range_unknown_column df lo ws1 ws2 col ws3 ws4 hi :
  plain_number lo = true -> plain_number hi = true -> word col = true ->
  forallb is_space ws1 = true -> forallb is_space ws2 = true ->
  forallb is_space ws3 = true -> forallb is_space ws4 = true ->
  has_col df col = false ->
  parse_condition (range_text lo ws1 ws2 col ws3 ws4 hi) df
  = (Ok (const_series false (len df)), df).
Proof.
  intros Hlo Hhi Hcol H1 H2 H3 H4 Hno.
  destruct (plain_number_parts _ Hlo) as (_ & _ & Flo).
  destruct (plain_number_parts _ Hhi) as (_ & _ & Fhi).
  unfold parse_condition.
  rewrite (strip_trimmed _
             (range_text_trimmed lo ws1 ws2 col ws3 ws4 hi Hlo Hhi)).
  rewrite range_text_not_exclude, range_text_not_include, range_text_match
    by auto.
  unfold group, float_of. cbn [nth Nat.sub]. rewrite Flo, Fhi.
  unfold all_false, bind, ret, gets. cbv beta iota. now rewrite Hno.
Qed.

(* ================================================================== *)
(** * The frame after [parse_condition] *)

(** The column that the matched shape coerces, if it coerces one: when
    neither list shape matches, the middle group of the range shape, or
    else the first group of the single comparison. *)
Definition referenced (cond col : str) : Prop :=
  re_match pat_exclude cond = None /\
  re_match pat_include cond = None /\
  ((exists m, re_match pat_range cond = Some m /\ col = group m 2) \/
   (re_match pat_range cond = None /\
    exists m, re_match pat_compare cond = Some m /\ col = group m 1)).

Definition touched (cond : str) (df df' : DataFrame) : Prop :=
  df' = df \/
  exists col v,
    referenced (strip cond) col /\
    lookup_col (columns df) col = Some v /\
    df' = setitem df col (to_numeric (combine (index df) v)).

(** Case analysis on the innermost scrutinees of the goal. *)
Ltac split_cases :=
  cbv beta iota;
  repeat (match goal with
          | |- context [match ?x with _ => _ end] =>
              lazymatch x with
              | context [match _ with _ => _ end] => fail
              | _ => destruct x
              end
          end; cbv beta iota).

Lemma categorical_equality_pure cond df :
  snd (categorical_equality cond df) = df.
Proof.
  unfold categorical_equality, all_false, read_col, bind,
    gets, ret.
  split_cases; reflexivity.
Qed.

(** [parse_condition] leaves the frame as it is, except that the range
    and the single-comparison shapes replace the one column they name by
    its coercion. *)
Lemma parse_condition_touches cond df :
  touched cond df (snd (parse_condition cond df)).
Proof.
  unfold parse_condition.
  destruct (re_match pat_exclude (strip cond)) as [m1|] eqn:E1.
  { left. unfold all_false, floats_of, read_col, bind, gets, ret, raise.
    split_cases; reflexivity. }
  destruct (re_match pat_include (strip cond)) as [m2|] eqn:E2.
  { left. unfold all_false, floats_of, read_col, bind, gets, ret, raise.
    split_cases; reflexivity. }
  destruct (re_match pat_range (strip cond)) as [m3|] eqn:E3.
  { unfold all_false, float_of, read_col, assign_col, bind, gets, ret,
      raise, modify, lift.
    destruct (py_float (group m3 1)); [|now left].
    destruct (py_float (group m3 3)); [|now left].
    destruct (negb (has_col df _)); [now left|].
    unfold column at 1, getitem.
    destruct (lookup_col (columns df) (group m3 2)) as [v|] eqn:Ev;
      [|now left].
    assert (R : touched cond df
                  (setitem df (group m3 2)
                     (to_numeric (combine (index df) v)))).
    { right. exists (group m3 2), v.
      split; [|split]; auto. split; [|split]; auto. left. eauto. }
    rewrite !column_setitem, !series_ord_to_numeric. exact R. }
  destruct (re_match pat_compare (strip cond)) as [m4|] eqn:E4.
  - unfold all_false, float_of, read_col, assign_col, bind, gets, ret,
      raise, modify, lift.
    destruct (py_float (group m4 3)); [|now left].
    destruct (negb (has_col df _)); [now left|].
    unfold column at 1, getitem.
    destruct (lookup_col (columns df) (group m4 1)) as [v|] eqn:Ev;
      [|now left].
    assert (R : touched cond df
                  (setitem df (group m4 1)
                     (to_numeric (combine (index df) v)))).
    { right. exists (group m4 1), v.
      split; [|split]; auto. split; [|split]; auto. right. eauto. }
    rewrite !column_setitem.
    repeat match goal with
           | |- context [if ?b then _ else _] => destruct b
           end;
      rewrite ?series_ord_to_numeric, ?categorical_equality_pure; exact R.
  - left. apply categorical_equality_pure.
Qed.

(** ** The columns that a filter may coerce *)

(** A column keeps its name; its cells are the old ones or, for a column
    that [P] names, the old ones coerced to numbers. *)
Definition column_kept_on (P : str -> Prop) (df0 : DataFrame)
           (nc0 nc : str * list cell) : Prop :=
  fst nc = fst nc0 /\
  (snd nc = snd nc0 \/ (P (fst nc0) /\ snd nc = coerced df0 (snd nc0))).

(** The frame [df] is [df0] up to the coercion of columns that [P] names:
    same index, same columns in the same order, and every other column
    with its old cells. *)
Definition frame_kept_on (P : str -> Prop) (df0 df : DataFrame) : Prop :=
  index df = index df0 /\
  Forall2 (column_kept_on P df0) (columns df0) (columns df).

Lemma frame_kept_on_refl P df : frame_kept_on P df df.
Proof.
  split; auto. apply Forall2_same. intros x. split; auto.
Qed.

Lemma frame_kept_on_kept P df0 df :
  frame_kept_on P df0 df -> frame_kept df0 df.
Proof.
  intros [Hi F]. split; auto.
  induction F as [|nc0 nc cs0 cs [Hn Hv] F IH]; constructor; auto.
  split; auto. destruct Hv as [Hv|[_ Hv]]; auto.
Qed.

Lemma replace_col_kept_on P df0 cs0 cs col v :
  P col ->
  Forall2 (column_kept_on P df0) cs0 cs ->
  lookup_col cs col = Some v ->
  Forall2 (column_kept_on P df0) cs0 (replace_col cs col (coerced df0 v)).
Proof.
  intros HP.
  induction 1 as [|[n0 v0] [n w] cs0 cs [Hn Hv] F IH]; simpl;
    [discriminate|].
  simpl in Hn, Hv. destruct (str_eqb n col) eqn:E.
  - apply str_eqb_eq in E. subst n0 col.
    intros [= ->]. constructor; auto. split; simpl; auto.
    right. split; auto.
    destruct Hv as [->|[_ ->]]; auto using coerced_idem.
  - intros H. constructor; auto. split; auto.
Qed.

Lemma frame_kept_on_setitem P df0 df col v :
  P col -> frame_kept_on P df0 df ->
  lookup_col (columns df) col = Some v ->
  frame_kept_on P df0 (setitem df col (to_numeric (combine (index df) v))).
Proof.
  intros HP [Hi Hc] Hv. split; simpl; auto.
  rewrite Hi. now apply replace_col_kept_on.
Qed.

(** A column that [P] does not name holds its old cells. *)
Lemma frame_kept_on_lookup P df0 df col :
  frame_kept_on P df0 df -> ~ P col ->
  lookup_col (columns df) col = lookup_col (columns df0) col.
Proof.
  intros [_ F] N.
  induction F as [|[n0 v0] [n w] cs0 cs [Hn Hv] F IH]; simpl; auto.
  simpl in Hn, Hv. subst n0.
  destruct (str_eqb n col) eqn:E; auto.
  apply str_eqb_eq in E. subst n.
  destruct Hv as [->|[HP _]]; [reflexivity|contradiction].
Qed.

Lemma parse_condition_kept_on P df0 cond d :
  (forall col, referenced (strip cond) col -> P col) ->
  frame_kept_on P df0 d ->
  frame_kept_on P df0 (snd (parse_condition cond d)).
Proof.
  intros HP K.
  destruct (parse_condition_touches cond d) as [->|(col & v & R & Hv & ->)];
    auto.
  apply frame_kept_on_setitem; auto.
Qed.

Lemma accumulate_kept_on P df0 op (eval : str -> M (Series bool)) parts :
  (forall part d, In part parts -> frame_kept_on P df0 d ->
                  frame_kept_on P df0 (snd (eval part d))) ->
  forall mask d, frame_kept_on P df0 d ->
    frame_kept_on P df0 (snd (accumulate op eval parts mask d)).
Proof.
  induction parts as [|part parts IH]; intros Hev mask d K;
    [exact K|].
  cbn [accumulate]. unfold bind.
  pose proof (Hev part d (or_introl eq_refl) K) as K1.
  destruct (eval part d) as [[m|e|] d1]; cbn [snd] in *;
    [|exact K1|exact K1].
  apply IH; [|exact K1]. intros p d' Hp. apply Hev. now right.
Qed.

(** [evaluate_filter] coerces no column but those that its conditions
    name where the range or the comparison shape has its column. *)
Lemma evaluate_filter_fuel_kept_on P df0 : forall fuel expr d,
  (forall cond col, In cond (conditions_fuel fuel expr) ->
                    referenced (strip cond) col -> P col) ->
  frame_kept_on P df0 d ->
  frame_kept_on P df0 (snd (evaluate_filter_fuel fuel expr d)).
Proof.
  induction fuel as [|fuel IH]; intros expr d HP K; [exact K|].
  cbn [evaluate_filter_fuel conditions_fuel] in *. cbv zeta in *.
  destruct (1 <? length (re_split_word (L "OR") (unwrap (strip expr)))).
  - unfold bind at 1, all_false at 1, gets at 1.
    apply accumulate_kept_on; auto.
    intros part d' Hp K'. apply IH; auto.
    intros cond col Hc. apply HP. apply in_flat_map. eauto.
  - destruct (1 <? length (re_split_word (L "AND") (unwrap (strip expr)))).
    + unfold bind at 1, all_true at 1, gets at 1.
      apply accumulate_kept_on; auto.
      intros part d' Hp K'. apply IH; auto.
      intros cond col Hc. apply HP. apply in_flat_map. eauto.
    + apply parse_condition_kept_on; auto.
      intros col. apply HP. now left.
Qed.

(** The columns that a filter text may coerce. *)
Definition coerced_by (text col : str) : Prop :=
  exists cond, In cond (conditions text) /\ referenced (strip cond) col.

Lemma evaluate_filter_kept_on text d :
  frame_kept_on (coerced_by text) d (snd (evaluate_filter text d)).
Proof.
  apply evaluate_filter_fuel_kept_on.
  - intros cond col Hc R. exists cond. auto.
  - apply frame_kept_on_refl.
Qed.

(* ================================================================== *)
(** * The "Apply Filters" handler *)

Lemma store_same h l d : store h l d l = d.
Proof. unfold store. now rewrite Nat.eqb_refl. Qed.

Lemma store_other h l d l' : l' <> l -> store h l d l' = h l'.
Proof.
  unfold store. intros N. destruct (Nat.eqb_spec l' l); congruence.
Qed.

Ltac world_simpl :=
  cbn [heap next_loc df_loc session_filtered_df filter_input bool_cols
       bool_filters fst snd] in *.

Lemma column_mask_returns df col t b :
  column_mask df col t b <> OutOfFuel.
Proof.
  unfold column_mask, obind, column.
  split_cases; discriminate.
Qed.

Lemma bool_filter_loop_returns df filters : forall mask,
  bool_filter_loop df filters mask <> OutOfFuel.
Proof.
  induction filters as [|[col [t b]] filters IH]; intros mask; simpl;
    [discriminate|].
  pose proof (column_mask_returns df col t b).
  destruct (column_mask df col t b); simpl; auto; discriminate.
Qed.

Section Handler.

Variable w : World.

(** What holds of the store all along a run of the handler that started
    in [w]: nothing that existed has changed, [df] is still bound to the
    upload, and the working copy, the object allocated first, is the
    upload up to the coercion of some columns. *)
Definition handler_inv (s : World) : Prop :=
  (next_loc w < next_loc s) /\
  (forall l, l < next_loc w -> heap s l = heap w l) /\
  df_loc s = df_loc w /\
  frame_kept (heap w (df_loc w)) (heap s (next_loc w)).

Lemma hoare_copy :
  hoare (fun s => s = w) (copy (df_loc w))
        (fun a s => handler_inv s /\ a = next_loc w) handler_inv.
Proof.
  intros s ->. unfold copy, alloc. split; auto.
  unfold handler_inv. world_simpl. split; [|split; [|split]]; auto.
  - intros l Hl. now rewrite store_other by lia.
  - rewrite store_same. apply frame_kept_refl.
Qed.

Lemma hoare_call_evaluate text :
  hoare handler_inv (call_on (next_loc w) (evaluate_filter text))
        (fun _ s => handler_inv s) handler_inv.
Proof.
  intros s (H1 & H2 & H3 & H4). unfold call_on.
  pose proof (mask_spec_evaluate_filter (heap w (df_loc w)) text
                (heap s (next_loc w)) H4) as K.
  destruct (evaluate_filter text (heap s (next_loc w))) as [[m|e|] d];
    [destruct K as [K _]| |contradiction];
    (unfold handler_inv; world_simpl; split; [|split; [|split]]; auto;
     [intros l Hl; rewrite store_other by lia; auto
     |now rewrite store_same]).
Qed.

Lemma hoare_select l mask :
  hoare handler_inv (select l mask)
        (fun a s => handler_inv s /\ next_loc w <= a) handler_inv.
Proof.
  intros s (H1 & H2 & H3 & H4). unfold select, alloc.
  destruct (getitem_mask (heap s l) mask) as [d|e|] eqn:E.
  - unfold handler_inv. world_simpl.
    split; [split; [|split; [|split]]|]; auto; try lia.
    + intros l' Hl. rewrite store_other by lia. auto.
    + now rewrite store_other by lia.
  - unfold handler_inv. auto.
  - unfold getitem_mask in E. destruct (forallb _ _); discriminate.
Qed.

Lemma hoare_call_bool l filters :
  hoare handler_inv
        (call_on l (fun d => (apply_bool_filters d filters, d)))
        (fun _ s => handler_inv s) handler_inv.
Proof.
  intros s (H1 & H2 & H3 & H4). unfold call_on.
  assert (J : handler_inv
            (mkWorld (store (heap s) l (heap s l)) (next_loc s) (df_loc s)
               (session_filtered_df s) (filter_input s) (bool_cols s)
               (bool_filters s))).
  { unfold handler_inv. world_simpl. split; [|split; [|split]]; auto.
    - intros l' Hl. rewrite <- H2 by auto. unfold store.
      destruct (Nat.eqb_spec l' l); congruence.
    - unfold store. destruct (Nat.eqb_spec (next_loc w) l); subst; auto. }
  pose proof (bool_filter_loop_returns (heap s l) filters
                (const_series true (len (heap s l)))) as R.
  unfold apply_bool_filters.
  destruct (bool_filter_loop _ _ _); auto.
Qed.

Lemma hoare_set_session l :
  hoare (fun s => handler_inv s /\ next_loc w <= l)
        (set_session_filtered_df l)
        (fun _ s => handler_inv s /\ next_loc w <= session_filtered_df s)
        handler_inv.
Proof.
  apply hoare_modify. intros s [(H1 & H2 & H3 & H4) Hl].
  unfold handler_inv. world_simpl. auto.
Qed.

(** The whole handler. *)
Lemma hoare_apply :
  hoare (fun s => s = w) apply
        (fun _ s => handler_inv s /\ next_loc w <= session_filtered_df s)
        handler_inv.
Proof.
  unfold apply.
  apply hoare_bind with (Q1 := fun a s => s = w /\ a = df_loc w).
  { apply hoare_gets. now intros s ->. }
  intros a. apply (hoare_assume (fun s => s = w) (a = df_loc w)).
  intros ->.
  apply hoare_bind with (Q1 := fun a s => handler_inv s /\ a = next_loc w).
  { apply hoare_copy. }
  intros work. apply (hoare_assume handler_inv (work = next_loc w)).
  intros ->.
  apply hoare_bind with (Q1 := fun _ s => handler_inv s).
  { now apply hoare_gets. }
  intros text.
  apply hoare_bind with (Q1 := fun a s => handler_inv s /\ next_loc w <= a).
  { destruct (nonempty (strip text)).
    - apply hoare_bind with (Q1 := fun _ s => handler_inv s).
      + apply hoare_call_evaluate.
      + intros mask. apply hoare_select.
    - apply hoare_ret. intros s Hs. split; auto. }
  intros fdf. apply (hoare_assume handler_inv (next_loc w <= fdf)).
  intros Hf.
  apply hoare_bind with (Q1 := fun _ s => handler_inv s).
  { now apply hoare_gets. }
  intros cols.
  apply hoare_bind with (Q1 := fun a s => handler_inv s /\ next_loc w <= a).
  { destruct (nonempty cols).
    - apply hoare_bind with (Q1 := fun _ s => handler_inv s).
      { now apply hoare_gets. }
      intros filters.
      apply hoare_bind with (Q1 := fun _ s => handler_inv s).
      + apply hoare_call_bool.
      + intros bool_mask. apply hoare_select.
    - apply hoare_ret. intros s Hs. split; auto. }
  intros fdf2. apply hoare_set_session.
Qed.

End Handler.

(** The working copy is the object that [df.copy()] allocates first:
    after the run it holds what [evaluate_filter] left of the copy, or the
    copy itself when the filter text is blank. *)
Lemma apply_working_copy w r w' :
  apply w = (r, w') ->
  heap w' (next_loc w)
  = if nonempty (strip (filter_input w))
    then snd (evaluate_filter (filter_input w) (heap w (df_loc w)))
    else heap w (df_loc w).
Proof.
  unfold apply, copy, alloc, bind, gets, ret, call_on, select,
    set_session_filtered_df, modify.
  world_simpl.
  destruct (nonempty (strip (filter_input w))); cbv beta; world_simpl;
    rewrite ?store_same.
  - destruct (evaluate_filter (filter_input w) (heap w (df_loc w)))
      as [[m|e|] d]; world_simpl; rewrite ?store_same.
    + destruct (getitem_mask d m) as [d1|e|]; unfold alloc; world_simpl.
      * destruct (nonempty (bool_cols w)); cbv beta; world_simpl;
          rewrite ?store_same.
        -- destruct (apply_bool_filters d1 (bool_filters w)) as [bm|e|];
             world_simpl; rewrite ?store_same.
           ++ destruct (getitem_mask d1 bm) as [d2|e|]; unfold alloc;
                world_simpl; intros [= _ <-]; world_simpl;
                repeat (rewrite store_same || rewrite store_other by lia);
                reflexivity.
           ++ intros [= _ <-]; world_simpl;
                repeat (rewrite store_same || rewrite store_other by lia);
                reflexivity.
           ++ intros [= _ <-]; world_simpl;
                repeat (rewrite store_same || rewrite store_other by lia);
                reflexivity.
        -- intros [= _ <-]; world_simpl;
             repeat (rewrite store_same || rewrite store_other by lia);
             reflexivity.
      * intros [= _ <-]; world_simpl; now rewrite store_same.
      * intros [= _ <-]; world_simpl; now rewrite store_same.
    + intros [= _ <-]; world_simpl; now rewrite store_same.
    + intros [= _ <-]; world_simpl; now rewrite store_same.
  - destruct (nonempty (bool_cols w)); cbv beta; world_simpl;
      rewrite ?store_same.
    + destruct (apply_bool_filters (heap w (df_loc w)) (bool_filters w))
        as [bm|e|]; world_simpl; rewrite ?store_same.
      * destruct (getitem_mask (heap w (df_loc w)) bm) as [d2|e|];
          unfold alloc; world_simpl; intros [= _ <-]; world_simpl;
          repeat (rewrite store_same || rewrite store_other by lia);
          reflexivity.
      * intros [= _ <-]; world_simpl;
          repeat (rewrite store_same || rewrite store_other by lia);
          reflexivity.
      * intros [= _ <-]; world_simpl;
          repeat (rewrite store_same || rewrite store_other by lia);
          reflexivity.
    + intros [= _ <-]; world_simpl; now rewrite store_same.
Qed.

Lemma apply_working_copy_kept w r w' :
  apply w = (r, w') ->
  frame_kept_on (coerced_by (filter_input w)) (heap w (df_loc w))
                (heap w' (next_loc w)).
Proof.
  intros E. rewrite (apply_working_copy w r w' E).
  destruct (nonempty (strip (filter_input w))).
  - apply evaluate_filter_kept_on.
  - apply frame_kept_on_refl.
Qed.

(** C9.  Whatever the filter text and the toggles, and whether the
    handler returns or raises, every object that existed before the run,
    the uploaded frame among them, is unchanged after it and [df] is still
    bound to the upload.  What the filter works on is a copy, a new
    object: after the run it has the index (so the row count) and the
    columns of the upload.  A column of the copy may hold its old cells
    coerced to numbers only if a condition of the filter text names it
    where the range or the single comparison has its column
    ([coerced_by]); every other column holds its old cells.  The result
    that the session then holds is a new object as well. *)
Theorem apply_keeps_upload :
  forall (w : World) (r : outcome unit) (w' : World),
    df_loc w < next_loc w ->
    apply w = (r, w') ->
    heap w' (df_loc w') = heap w (df_loc w) /\
    (forall l, l < next_loc w -> heap w' l = heap w l) /\
    frame_kept_on (coerced_by (filter_input w)) (heap w (df_loc w))
                  (heap w' (next_loc w)) /\
    (forall col, ~ coerced_by (filter_input w) col ->
       lookup_col (columns (heap w' (next_loc w))) col
       = lookup_col (columns (heap w (df_loc w))) col) /\
    r <> OutOfFuel /\
    (r = Ok tt -> next_loc w <= session_filtered_df w').
Proof.
  intros w r w' Hlt E.
  pose proof (apply_working_copy_kept w r w' E) as K.
  pose proof (hoare_apply w w eq_refl) as H. rewrite E in H.
  assert (G : forall col, ~ coerced_by (filter_input w) col ->
            lookup_col (columns (heap w' (next_loc w))) col
            = lookup_col (columns (heap w (df_loc w))) col).
  { intros col N. now apply (frame_kept_on_lookup _ _ _ _ K). }
  destruct r as [[]|e|].
  - destruct H as [(H1 & H2 & H3 & H4) H5].
    rewrite H3, H2 by auto.
    split; [|split; [|split; [|split; [|split]]]]; auto. discriminate.
  - destruct H as (H1 & H2 & H3 & H4).
    rewrite H3, H2 by auto.
    split; [|split; [|split; [|split; [|split]]]]; auto; discriminate.
  - contradiction.
Qed.

(** C8.  With a blank filter text (empty or whitespace only) and no
    boolean-like column, the handler returns, and the frame that the
    session then holds is the uploaded frame: the same index and the same
    columns with the same cells, so the same rows in the same order. *)
Theorem apply_blank_is_identity :
  forall (w : World),
    strip (filter_input w) = [] -> bool_cols w = [] ->
    exists w',
      apply w = (Ok tt, w') /\
      heap w' (session_filtered_df w') = heap w (df_loc w).
Proof.
  intros w Ht Hc. eexists. split.
  - unfold apply, copy, alloc, bind, gets, ret,
      set_session_filtered_df, modify.
    world_simpl. rewrite Ht, Hc. reflexivity.
  - world_simpl. apply store_same.
Qed.

(* ================================================================== *)
(** * The masks of the numeric shapes *)

Lemma orderings_operators op test :
  In (op, test) orderings ->
  In op operators /\ op <> L "!=" /\ op <> L "=".
Proof.
  unfold orderings, operators. simpl.
  intros [E|[E|[E|[E|[]]]]]; inversion E; subst;
    (split; [auto 10 | split; discriminate]).
Qed.

(** X1.  An ordering comparison [col op value], with [op] one of [>],
    [<], [>=], [<=], a plain number [value], an existing column and any
    whitespace around the operator, is evaluated without error.  A row is
    selected exactly when its cell coerces to a number and that number,
    as a double, satisfies the comparison with the double of the literal:
    a text that reads as a number is compared as that number, and a cell
    without a number is not selected. *)
Theorem ordering_comparison_mask :
  forall (df : DataFrame) (col ws1 op ws2 value : str)
         (test : Q -> Q -> bool) (i : nat) (c : cell),
    word col = true -> plain_number value = true ->
    In (op, test) orderings ->
    forallb is_space ws1 = true -> forallb is_space ws2 = true ->
    cell_at df col i = Some c -> i < len df ->
    exists m df',
      parse_condition (comparison_text col ws1 op ws2 value) df
      = (Ok m, df') /\
      mask_at m i = Some (match cell_num c with
                          | Some v => test (float64 v) (number_of value)
                          | None => false
                          end).
Proof.
  intros df col ws1 op ws2 value test i c Hcol Hval Hop H1 H2 Hcell Hi.
  destruct (orderings_operators op test Hop) as (Hin & N1 & N2).
  unfold cell_at in Hcell.
  destruct (lookup_col (columns df) col) as [vals|] eqn:Hvals;
    [|discriminate].
  destruct (plain_number_parts _ Hval) as (_ & _ & Hf).
  eexists _, _. split.
  - apply (parse_condition_compare _ _ col op value (number_of value)
             vals test); auto.
    + now apply comparison_text_trimmed.
    + now apply comparison_text_not_exclude.
    + now apply comparison_text_not_include.
    + now apply comparison_text_not_range.
    + now apply (comparison_text_compare col ws1 op ws2 test).
  - now rewrite (mask_at_smap _ _ _ _ _ Hcell Hi).
Qed.

(** X2.  A range condition [lo <= col <= hi] with plain numbers, an
    existing column and any whitespace around the two [<=] is evaluated
    without error, and a row is selected exactly when its cell coerces to
    a number [v] with [lo <= v] and [v <= hi], all three taken as
    doubles; a cell without a number is not selected, and nothing is
    selected when [hi < lo]. *)
Theorem range_mask :
  forall (df : DataFrame) (lo ws1 ws2 col ws3 ws4 hi : str)
         (i : nat) (c : cell),
    plain_number lo = true -> plain_number hi = true -> word col = true ->
    forallb is_space ws1 = true -> forallb is_space ws2 = true ->
    forallb is_space ws3 = true -> forallb is_space ws4 = true ->
    cell_at df col i = Some c -> i < len df ->
    exists m df',
      parse_condition (range_text lo ws1 ws2 col ws3 ws4 hi) df
      = (Ok m, df') /\
      mask_at m i = Some (match cell_num c with
                          | Some v => Qle_bool (number_of lo) (float64 v)
                                      && Qle_bool (float64 v) (number_of hi)
                          | None => false
                          end).
Proof.
  intros df lo ws1 ws2 col ws3 ws4 hi i c Hlo Hhi Hcol H1 H2 H3 H4
         Hcell Hi.
  unfold cell_at in Hcell.
  destruct (lookup_col (columns df) col) as [vals|] eqn:Hvals;
    [|discriminate].
  destruct (plain_number_parts _ Hlo) as (_ & _ & Flo).
  destruct (plain_number_parts _ Hhi) as (_ & _ & Fhi).
  eexists _, _. split.
  - apply (parse_condition_range _ _ lo col hi (number_of lo)
             (number_of hi) vals); auto.
    + now apply range_text_trimmed.
    + now apply range_text_not_exclude.
    + now apply range_text_not_include.
    + now apply range_text_match.
  - rewrite (mask_at_smap _ _ _ _ _ Hcell Hi). f_equal.
    unfold in_range, num_test, Qge_bool.
    now destruct (cell_num c).
Qed.

(** X3.  The list conditions do not coerce the column.  For an existing
    column and a list of plain numbers, [col = v1,...,vk] selects a row
    exactly when its cell is a number (or a boolean, read as 1 or 0) equal
    to the double of one of the values, and [col != v1,...,vk] selects
    the other rows.  In a column of numeric dtype the cell is compared as
    a double; in a column of dtype [object] it is compared by its value.
    A text cell is never selected by [=] and always by [!=], even a text
    that reads as one of the numbers. *)
Theorem list_membership_mask :
  forall (df : DataFrame) (col ws1 ws2 a b : str) (vs : list str)
         (i : nat) (c : cell),
    word col = true -> numbers vs ->
    forallb is_space ws1 = true -> forallb is_space ws2 = true ->
    blanks a = true -> blanks b = true ->
    cell_at df col i = Some c -> i < len df ->
    exists inc exc,
      parse_condition
        (comparison_text col ws1 (L "=") ws2 (list_text a b vs)) df
      = (Ok inc, df) /\
      parse_condition
        (comparison_text col ws1 (L "!=") ws2 (list_text a b vs)) df
      = (Ok exc, df) /\
      mask_at inc i
      = Some (isin_cell (numeric_column df col) (map number_of vs) c) /\
      mask_at exc i
      = Some (negb (isin_cell (numeric_column df col) (map number_of vs)
                              c)) /\
      (forall s, c = Text s ->
                 mask_at inc i = Some false /\ mask_at exc i = Some true).
Proof.
  intros df col ws1 ws2 a b vs i c Hcol Hvs H1 H2 Ha Hb Hcell Hi.
  unfold cell_at in Hcell.
  destruct (lookup_col (columns df) col) as [vals|] eqn:Hvals;
    [|discriminate].
  destruct (numbers_join (separator a b) vs Hvs
              (separator_listchars a b Ha Hb)) as (J1 & J2 & J3 & J4).
  fold (list_text a b vs) in J1, J2, J3, J4.
  assert (Hq : float_list (split_char "," (list_text a b vs))
               = Some (map number_of vs)).
  { destruct Hvs as [N F].
    now apply (float_list_text a b vs F N Ha Hb []). }
  assert (Hn : numeric_column df col
               = numeric_dtype (map snd (combine (index df) vals))).
  { unfold numeric_column, getitem. now rewrite Hvals. }
  assert (Ei : mask_at (isin (combine (index df) vals) (map number_of vs)) i
               = Some (isin_cell (numeric_column df col)
                                 (map number_of vs) c)).
  { unfold isin. rewrite Hn. now apply mask_at_smap. }
  assert (Ee : mask_at (series_not (isin (combine (index df) vals)
                                         (map number_of vs))) i
               = Some (negb (isin_cell (numeric_column df col)
                                       (map number_of vs) c))).
  { unfold series_not, isin. rewrite smap_smap, Hn.
    now rewrite (mask_at_smap _ _ _ _ _ Hcell Hi). }
  eexists _, _. split; [|split; [|split; [exact Ei|split; [exact Ee|]]]].
  - apply (parse_condition_include _ _ col (list_text a b vs)); auto.
    + now apply comparison_text_trimmed_gen.
    + apply comparison_text_not_exclude_gen; auto; [|discriminate].
      unfold operators. simpl. auto 10.
    + now apply list_text_include.
  - apply (parse_condition_exclude _ _ col (list_text a b vs)); auto.
    + now apply comparison_text_trimmed_gen.
    + now apply list_text_exclude.
  - intros s ->. now rewrite Ei, Ee.
Qed.

(* ================================================================== *)
(** * What a comparison does to the column *)

Lemma nth_error_smap_combine {A B} (f : A -> B) (idx : list nat)
      (v : list A) i x :
  nth_error v i = Some x -> i < length idx ->
  nth_error (map snd (smap f (combine idx v))) i = Some (f x).
Proof.
  revert v i.
  induction idx as [|l idx IH]; intros [|y v] [|i]; simpl;
    try discriminate; try lia.
  - now intros [= ->].
  - intros H Hi. apply IH; auto. lia.
Qed.

Lemma nth_error_combine_snd {A} (idx : list nat) (v : list A) i x :
  nth_error v i = Some x -> i < length idx ->
  nth_error (map snd (combine idx v)) i = Some x.
Proof.
  revert v i.
  induction idx as [|l idx IH]; intros [|y v] [|i]; simpl;
    try discriminate; try lia; auto.
  intros H Hi. apply IH; auto. lia.
Qed.

Lemma lookup_replace_other cs col col' v :
  col' <> col ->
  lookup_col (replace_col cs col v) col' = lookup_col cs col'.
Proof.
  intros N. induction cs as [|[n w] cs IH]; simpl.
  - destruct (str_eqb col col') eqn:E; auto.
    apply str_eqb_eq in E. congruence.
  - destruct (str_eqb n col) eqn:E; simpl.
    + apply str_eqb_eq in E. subst n.
      destruct (str_eqb col col') eqn:E'; auto.
      apply str_eqb_eq in E'. congruence.
    + now rewrite IH.
Qed.

Lemma text_not_numeric_dtype v s :
  In (Text s) v -> numeric_dtype v = false.
Proof.
  intros H. unfold numeric_dtype. apply orb_false_iff.
  split; apply not_true_is_false; intros F; rewrite forallb_forall in F;
    now specialize (F _ H).
Qed.

(** X4.  An ordering comparison rewrites the column it names in the
    frame it is given: after [col op value] on a column that holds a text
    at some row, that cell is the number the text reads as, or a missing
    value when the text is no number.  The index and the other columns are
    as before. *)
Theorem comparison_coerces_column :
  forall (df : DataFrame) (col ws1 op ws2 value : str)
         (test : Q -> Q -> bool) (i : nat) (s : str),
    word col = true -> plain_number value = true ->
    In (op, test) orderings ->
    forallb is_space ws1 = true -> forallb is_space ws2 = true ->
    cell_at df col i = Some (Text s) -> i < len df ->
    exists m df',
      parse_condition (comparison_text col ws1 op ws2 value) df
      = (Ok m, df') /\
      index df' = index df /\
      cell_at df' col i = Some (match to_numeric_str s with
                                | Some q => Num q
                                | None => Missing
                                end) /\
      forall col', col' <> col ->
        lookup_col (columns df') col' = lookup_col (columns df) col'.
Proof.
  intros df col ws1 op ws2 value test i s Hcol Hval Hop H1 H2 Hcell Hi.
  destruct (orderings_operators op test Hop) as (Hin & N1 & N2).
  unfold cell_at in Hcell.
  destruct (lookup_col (columns df) col) as [vals|] eqn:Hvals;
    [|discriminate].
  destruct (plain_number_parts _ Hval) as (_ & _ & Hf).
  eexists _, _. split; [|split; [|split]].
  - apply (parse_condition_compare _ _ col op value (number_of value)
             vals test); auto.
    + now apply comparison_text_trimmed.
    + now apply comparison_text_not_exclude.
    + now apply comparison_text_not_include.
    + now apply comparison_text_not_range.
    + now apply (comparison_text_compare col ws1 op ws2 test).
  - reflexivity.
  - unfold cell_at, setitem. cbn [columns]. rewrite lookup_replace.
    unfold to_numeric.
    rewrite (text_not_numeric_dtype _ s)
      by (eapply nth_error_In, nth_error_combine_snd; eauto).
    now rewrite (nth_error_smap_combine coerce_cell _ _ _ _ Hcell Hi).
  - intros col' N. unfold setitem. cbn [columns].
    now apply lookup_replace_other.
Qed.

(* ================================================================== *)
(** * Texts that no shape reads *)

Lemma take_while_stops p s : stops p s -> take_while p s = [].
Proof. destruct s as [|c s]; simpl; auto. now intros ->. Qed.

(** A pattern that opens with [p+] needs a character of [p] first. *)
Lemma re_match_needs_class i rest p s :
  item_atom i = Cls p Plus -> stops p s -> re_match (i :: rest) s = None.
Proof.
  intros Hi Hs. rewrite re_match_cons, Hi. cbv zeta.
  now rewrite take_while_stops.
Qed.

(** X5.  Every shape opens with a word character or, for the range, with
    a digit or a dot.  A condition that, once trimmed, is empty or opens
    with any other character (an opening parenthesis, an operator, a
    quote) is read by no shape: the mask is all false, with one entry per
    row, nothing is raised and the frame is untouched. *)
Theorem unreadable_condition_selects_nothing :
  forall (cond : str) (df : DataFrame),
    stops is_word (strip cond) -> stops is_numchar (strip cond) ->
    parse_condition cond df = (Ok (const_series false (len df)), df).
Proof.
  intros cond df Hw Hn.
  apply parse_condition_no_shape.
  - now apply (re_match_needs_class _ _ is_word).
  - now apply (re_match_needs_class _ _ is_word).
  - now apply (re_match_needs_class _ _ is_numchar).
  - now apply (re_match_needs_class _ _ is_word).
  - now apply (re_match_needs_class _ _ is_word).
Qed.

(** A text without any of the characters [=], [<] and [>]. *)
Definition operator_char (c : ascii) : bool :=
  char_eqb c "=" || char_eqb c "<" || char_eqb c ">".

Definition operator_free (s : str) : bool :=
  forallb (fun c => negb (operator_char c)) s.

Lemma forallb_drop_while (p q : ascii -> bool) s :
  forallb p s = true -> forallb p (drop_while q s) = true.
Proof.
  induction s as [|c s IH]; simpl; auto.
  intros [Hc Hs]%andb_true_iff.
  destruct (q c); simpl; auto.
  now rewrite Hc, Hs.
Qed.

Lemma forallb_rev (p : ascii -> bool) s :
  forallb p s = true -> forallb p (rev s) = true.
Proof.
  rewrite !forallb_forall. intros H c Hc. apply H. now apply in_rev.
Qed.

Lemma operator_free_strip s :
  operator_free s = true -> operator_free (strip s) = true.
Proof.
  unfold operator_free, strip. intros H.
  now apply forallb_rev, forallb_drop_while, forallb_rev,
    forallb_drop_while.
Qed.

Lemma operator_free_count c s :
  operator_free s = true -> operator_char c = true -> count_char c s = 0.
Proof.
  intros H Hc.
  apply (count_char_none c s (fun c => negb (operator_char c)) H).
  now rewrite Hc.
Qed.

(** The single comparison needs one of its six operators. *)
Lemma pat_compare_needs_operator s :
  operator_free s = true -> re_match pat_compare s = None.
Proof.
  intros H. unfold pat_compare.
  rewrite re_match_head_gen
    by (apply rejects_word_ops || apply rejects_space_ops).
  destruct (_ <? 1); [reflexivity|].
  set (t := drop_while is_space (drop_while is_word s)).
  assert (Ht : operator_free t = true)
    by now apply forallb_drop_while, forallb_drop_while.
  destruct (re_match _ t) as [gs|] eqn:E; auto.
  rewrite re_match_cons in E. cbn [item_atom] in E.
  apply first_some_some in E as (l & Hl & Hf).
  destruct (startswith l t) eqn:Es; [|discriminate].
  apply startswith_split in Es. rewrite Es in Ht.
  simpl in Hl.
  destruct Hl as [<-|[<-|[<-|[<-|[<-|[<-|[]]]]]]]; discriminate Ht.
Qed.

(** X6.  Every shape needs one of the characters [=], [<] and [>].  A
    condition without any of them (a column name alone, a name and a
    number, free text) selects nothing: the mask is all false, nothing is
    raised and the frame is untouched. *)
Theorem condition_without_operator_selects_nothing :
  forall (cond : str) (df : DataFrame),
    operator_free cond = true ->
    parse_condition cond df = (Ok (const_series false (len df)), df).
Proof.
  intros cond df H. apply operator_free_strip in H.
  apply parse_condition_no_shape.
  - apply (re_match_needs "="%char).
    rewrite (operator_free_count _ _ H) by reflexivity.
    vm_compute. lia.
  - apply (re_match_needs "="%char).
    rewrite (operator_free_count _ _ H) by reflexivity.
    vm_compute. lia.
  - apply (re_match_needs "<"%char).
    rewrite (operator_free_count _ _ H) by reflexivity.
    vm_compute. lia.
  - now apply pat_compare_needs_operator.
  - apply (re_match_needs "="%char).
    rewrite (operator_free_count _ _ H) by reflexivity.
    vm_compute. lia.
Qed.

(* ================================================================== *)
(** * Numbers that [float] refuses *)

Lemma numchars_listchars value :
  forallb is_numchar value = true -> forallb is_listchar value = true.
Proof.
  rewrite !forallb_forall. intros H c Hc. now apply numchar_listchar, H.
Qed.

(** X7.  The number of an ordering comparison is converted before the
    column is looked at.  When the text after the operator is made of
    digits and dots but is no number ([1.2.3], [..], a lone dot), the
    comparison raises [ValueError], whether the column exists or not, and
    the frame is untouched. *)
Theorem malformed_number_raises :
  forall (df : DataFrame) (col ws1 op ws2 value : str)
         (test : Q -> Q -> bool),
    word col = true -> In (op, test) orderings ->
    forallb is_space ws1 = true -> forallb is_space ws2 = true ->
    forallb is_numchar value = true -> value <> [] ->
    py_float value = None ->
    parse_condition (comparison_text col ws1 op ws2 value) df
    = (Raise ValueError, df).
Proof.
  intros df col ws1 op ws2 value test Hcol Hop H1 H2 Hv Nv Hf.
  destruct (orderings_operators op test Hop) as (Hin & N1 & N2).
  unfold parse_condition.
  rewrite strip_trimmed.
  2:{ apply comparison_text_trimmed_gen; auto.
      now apply (clean_of_class is_numchar value numchar_not_space). }
  rewrite comparison_text_not_exclude_gen, comparison_text_not_include,
    comparison_text_not_range_gen by auto using numchars_listchars.
  pose proof (comparison_text_compare_tail col ws1 op ws2 test value []
                Hcol Hv Nv I Hop H1 H2) as M.
  rewrite app_nil_r in M. rewrite M.
  unfold group, float_of. cbn [nth Nat.sub]. rewrite Hf.
  reflexivity.
Qed.

(* ================================================================== *)
(** * The text equality, and what the list shape takes from it *)

(** [(\w+)\s*!=] needs [!=] right after the first word and the whitespace
    that follows it. *)
Lemma pat_exclude_needs s :
  startswith (L "!=") (drop_while is_space (drop_while is_word s)) = false ->
  re_match pat_exclude s = None.
Proof.
  intros H. unfold pat_exclude.
  rewrite re_match_head_gen
    by (apply rejects_word_ne || apply rejects_space_ne).
  destruct (_ <? 1); [reflexivity|].
  now rewrite (re_match_lit_no (Plain (Lit (L "!="))) _ (L "!=") _ eq_refl H).
Qed.

(** The general form of a head [(p+)\s*], for a class [p] without
    whitespace. *)
Lemma re_match_run_gen p rest s :
  (forall c, p c = true -> is_space c = false) ->
  rejects p rest -> rejects is_space rest ->
  re_match (Group (Cls p Plus) :: Plain (Cls is_space Star) :: rest) s
  = if length (take_while p s) <? 1 then None
    else match re_match rest (drop_while is_space (drop_while p s)) with
         | Some gs => Some (take_while p s :: gs)
         | None => None
         end.
Proof.
  intros D Rp Rs.
  rewrite <- (take_drop p s) at 1.
  rewrite (re_match_det (Group (Cls p Plus)) _ p Plus _ _ eq_refl).
  - simpl rep_min. destruct (_ <? 1); [reflexivity|].
    rewrite <- (take_drop is_space (drop_while p s)) at 1.
    rewrite (re_match_det (Plain (Cls is_space Star)) _ is_space Star _ _
               eq_refl); auto.
    + simpl. now destruct (re_match rest _).
    + apply take_while_all.
    + apply drop_while_stops.
  - eapply rejects_star; [reflexivity|exact D|exact Rp].
  - apply take_while_all.
  - apply drop_while_stops.
Qed.

(** [([\d\.]+)\s*<=] needs [<=] right after the leading number and the
    whitespace that follows it. *)
Lemma pat_range_needs s :
  startswith (L "<=") (drop_while is_space (drop_while is_numchar s))
  = false ->
  re_match pat_range s = None.
Proof.
  intros H. unfold pat_range.
  rewrite (re_match_run_gen is_numchar) by
    (try apply numchar_not_space;
     now apply (rejects_lit _ _ _ "<"%char ["="%char])).
  destruct (_ <? 1); [reflexivity|].
  now rewrite (re_match_lit_no (Plain (Lit (L "<="))) _ (L "<=") _ eq_refl H).
Qed.

Lemma word_numchar_digit c : is_word c = true -> is_numchar c = is_digit c.
Proof.
  intros H.
  pose proof (all_ascii_spec
    (fun c => implb (is_word c) (Bool.eqb (is_numchar c) (is_digit c)))
    eq_refl c) as A.
  simpl in A. rewrite H in A. now apply Bool.eqb_prop in A.
Qed.

Lemma word_not_lt c t :
  is_word c = true -> startswith (L "<=") (c :: t) = false.
Proof.
  intros H. simpl. destruct (char_eqb "<" c) eqn:E; auto.
  apply char_eqb_eq in E. subst c. discriminate.
Qed.

(** A text that opens with a word is no range unless what follows the
    word is one. *)
Lemma word_then_not_range col T :
  forallb is_word col = true ->
  startswith (L "<=") (drop_while is_space (drop_while is_numchar T))
  = false ->
  startswith (L "<=")
    (drop_while is_space (drop_while is_numchar (col ++ T))) = false.
Proof.
  intros Hcol HT. induction col as [|c col IH]; auto.
  simpl in Hcol. apply andb_true_iff in Hcol as [Hc Hcol].
  simpl. destruct (is_numchar c) eqn:En; auto.
  simpl. rewrite (word_not_space _ Hc). now apply word_not_lt.
Qed.

(** A text that opens with a name that is no number is no range. *)
Lemma name_then_not_range col T :
  forallb is_word col = true -> forallb is_digit col = false ->
  startswith (L "<=")
    (drop_while is_space (drop_while is_numchar (col ++ T))) = false.
Proof.
  intros Hcol Hd. induction col as [|c col IH]; [discriminate|].
  simpl in Hcol, Hd. apply andb_true_iff in Hcol as [Hc Hcol].
  simpl. rewrite (word_numchar_digit _ Hc).
  destruct (is_digit c); simpl in *; auto.
  rewrite (word_not_space _ Hc). now apply word_not_lt.
Qed.

Lemma re_match_space_class_none p t :
  stops is_space t -> stops p t ->
  re_match [Plain (Cls is_space Star); Group (Cls p Plus)] t = None.
Proof.
  intros Hs Hp. rewrite re_match_cons. cbn [item_atom]. cbv zeta.
  rewrite take_while_stops by auto.
  cbn [length rep_min Nat.ltb Nat.leb Nat.sub].
  apply try_down_none. intros k Hk. replace k with 0 by lia.
  unfold after. cbn [skipn].
  now rewrite (re_match_needs_class _ _ p).
Qed.

Lemma equality_text_after_head col ws ws' text :
  word col = true -> forallb is_space ws = true ->
  drop_while is_space
    (drop_while is_word (equality_text col ws ws' text))
  = L "=" ++ ws' ++ text.
Proof.
  intros Hcol Hws. unfold equality_text.
  now rewrite after_word_spaces by (auto; reflexivity).
Qed.

Lemma equality_text_not_exclude col ws ws' text :
  word col = true -> forallb is_space ws = true ->
  re_match pat_exclude (equality_text col ws ws' text) = None.
Proof.
  intros Hcol Hws. apply pat_exclude_needs.
  now rewrite equality_text_after_head.
Qed.

Lemma equality_text_not_range col ws ws' text :
  word col = true -> forallb is_space ws = true ->
  re_match pat_range (equality_text col ws ws' text) = None.
Proof.
  intros [_ Hcol]%word_parts Hws. apply pat_range_needs.
  unfold equality_text. apply word_then_not_range; auto.
  rewrite (drop_while_id is_numchar).
  - now rewrite drop_while_app by (auto; reflexivity).
  - apply stops_app; [reflexivity|].
    intros c Hc. rewrite forallb_forall in Hws. specialize (Hws c Hc).
    destruct (is_numchar c) eqn:E; auto.
    apply numchar_not_space in E. congruence.
Qed.

Lemma stops_listchar_numchar t : stops is_listchar t -> stops is_numchar t.
Proof.
  destruct t as [|c t]; simpl; auto. intros H.
  destruct (is_numchar c) eqn:E; auto.
  apply numchar_listchar in E. congruence.
Qed.

Lemma equality_text_not_include col ws text :
  word col = true -> forallb is_space ws = true ->
  stops is_space text -> stops is_listchar text ->
  re_match pat_include (equality_text col ws [] text) = None.
Proof.
  intros Hcol Hws Hs Hl. unfold pat_include, equality_text.
  rewrite (re_match_head _ col ws (L "=" ++ [] ++ text));
    auto using rejects_word_eq, rejects_space_eq; try reflexivity.
  rewrite (re_match_lit (Plain (Lit (L "="))) _ (L "=") ([] ++ text)
             eq_refl).
  simpl app. now rewrite re_match_space_class_none.
Qed.

Lemma equality_text_not_compare col ws text :
  word col = true -> forallb is_space ws = true ->
  stops is_space text -> stops is_listchar text ->
  re_match pat_compare (equality_text col ws [] text) = None.
Proof.
  intros Hcol Hws Hs Hl. unfold pat_compare, equality_text.
  rewrite (re_match_head _ col ws (L "=" ++ [] ++ text));
    auto using rejects_word_ops, rejects_space_ops; try reflexivity.
  simpl app. rewrite re_match_cons. cbn [item_atom first_some].
  change (startswith (L ">=") ("="%char :: text)) with false.
  change (startswith (L "<=") ("="%char :: text)) with false.
  change (startswith (L "=") ("="%char :: text)) with true.
  change (startswith (L "!=") ("="%char :: text)) with false.
  change (startswith (L ">") ("="%char :: text)) with false.
  change (startswith (L "<") ("="%char :: text)) with false.
  cbv beta iota.
  change ("="%char :: text) with (L "=" ++ text).
  rewrite after_app.
  now rewrite re_match_space_class_none by auto using stops_listchar_numchar.
Qed.

(** X8.  A condition [col=text] or [col =text], with no whitespace
    after the equals sign and a one-line trimmed text that opens with a
    character other than a digit, a dot, a comma and a space, is the text
    equality: on an existing column it is evaluated without error, leaves
    the frame as it is, and selects a row exactly when the string form of
    its cell is the text.  A text cell is its own string form; a missing
    cell has the string form that the library gives it, and is not
    selected when the library leaves it missing. *)
Theorem text_equality_mask :
  forall (df : DataFrame) (col ws text : str) (i : nat) (c : cell),
    word col = true -> forallb is_space ws = true ->
    text <> [] -> trimmed text = true -> forallb is_dot text = true ->
    stops is_listchar text ->
    cell_at df col i = Some c -> i < len df ->
    exists m,
      parse_condition (equality_text col ws [] text) df = (Ok m, df) /\
      mask_at m i = Some (match astype_str_cell c with
                          | Some s => str_eqb s text
                          | None => false
                          end) /\
      (forall s, c = Text s -> mask_at m i = Some (str_eqb s text)).
Proof.
  intros df col ws text i c Hcol Hws Nt Tt Hdot Hl Hcell Hi.
  unfold cell_at in Hcell.
  destruct (lookup_col (columns df) col) as [vals|] eqn:Hvals;
    [|discriminate].
  assert (Hs : stops is_space text).
  { apply starts_clean_stops. now apply andb_true_iff in Tt as [T1 _]. }
  eexists. split.
  - apply (parse_condition_equal _ _ col text vals); auto.
    + now apply equality_text_trimmed.
    + now apply equality_text_not_exclude.
    + now apply equality_text_not_include.
    + now apply equality_text_not_range.
    + now apply equality_text_not_compare.
    + now apply equality_text_match.
  - rewrite (mask_at_smap _ _ _ _ _ Hcell Hi), (strip_trimmed _ Tt).
    split; [reflexivity|]. now intros s ->.
Qed.

Lemma blanks_last b :
  blanks b = true -> b <> [] -> exists b', b = b' ++ L " ".
Proof.
  intros Hb N. destruct (exists_last N) as (b' & x & ->).
  exists b'. f_equal. unfold blanks in Hb.
  rewrite forallb_app in Hb. apply andb_true_iff in Hb as [_ Hx].
  simpl in Hx. rewrite andb_true_r in Hx.
  apply char_eqb_eq in Hx. now subst x.
Qed.

(** With blanks after the equals sign and a text that is no list, the
    inclusion list matches all the same: the whitespace gives its last
    blank back, and the list is that blank. *)
Lemma equality_text_blank_include col ws b text :
  word col = true -> forallb is_space ws = true ->
  blanks b = true -> b <> [] ->
  stops is_space text -> stops is_listchar text ->
  re_match pat_include (equality_text col ws b text)
  = Some [col; L " "].
Proof.
  intros Hcol Hws Hb Nb Hs Hl.
  destruct (blanks_last b Hb Nb) as [b' ->].
  assert (Hb' : forallb is_space (b' ++ L " ") = true)
    by now apply blanks_spaces.
  unfold pat_include, equality_text.
  rewrite (re_match_head _ col ws (L "=" ++ (b' ++ L " ") ++ text));
    auto using rejects_word_eq, rejects_space_eq; try reflexivity.
  rewrite (re_match_lit (Plain (Lit (L "="))) _ (L "=")
             ((b' ++ L " ") ++ text) eq_refl).
  assert (G : re_match
            [Plain (Cls is_space Star); Group (Cls is_listchar Plus)]
            ((b' ++ L " ") ++ text) = Some [L " "]); [|now rewrite G].
  rewrite re_match_cons. cbn [item_atom]. cbv zeta.
  rewrite (take_while_app _ _ _ Hb' Hs).
  rewrite length_app. simpl length. simpl rep_min.
  replace (length b' + 1 - 0) with (S (length b')) by lia.
  cbn [Nat.ltb Nat.leb try_down]. cbn [Nat.add].
  replace (S (length b')) with (length (b' ++ L " "))
    by (rewrite length_app; simpl; lia).
  rewrite after_app.
  rewrite (re_match_needs_class _ _ is_listchar) by auto.
  apply try_down_first. cbn [Nat.add].
  rewrite <- app_assoc, after_app.
  now rewrite (re_match_last_group is_listchar (L " ") text).
Qed.

(** X9.  A text equality typed with blanks after the equals sign, as
    in [breed = Holstein], is taken by the inclusion list: the pattern
    matches with a blank for its list, and the conversion of that blank
    raises [ValueError].  This holds for every existing column and every
    trimmed text that opens with a character other than a digit, a dot, a
    comma and a space; the frame is untouched. *)
Theorem equality_after_blank_raises :
  forall (df : DataFrame) (col ws b text : str),
    word col = true -> forallb is_space ws = true ->
    blanks b = true -> b <> [] ->
    text <> [] -> trimmed text = true -> stops is_listchar text ->
    has_col df col = true ->
    parse_condition (equality_text col ws b text) df
    = (Raise ValueError, df).
Proof.
  intros df col ws b text Hcol Hws Hb Nb Nt Tt Hl Hhas.
  assert (Hs : stops is_space text).
  { apply starts_clean_stops. now apply andb_true_iff in Tt as [T1 _]. }
  unfold parse_condition.
  rewrite (strip_trimmed _ (equality_text_trimmed col ws b text Hcol Nt Tt)).
  rewrite equality_text_not_exclude, equality_text_blank_include by auto.
  unfold group, bind, gets, floats_of. cbn [nth Nat.sub].
  rewrite Hhas. reflexivity.
Qed.

(* ================================================================== *)
(** * What follows the number of a comparison *)

Lemma comparison_text_head_not_exclude col ws1 op ws2 rest :
  word col = true -> In op operators -> forallb is_space ws1 = true ->
  op <> L "!=" ->
  re_match pat_exclude (comparison_text col ws1 op ws2 rest) = None.
Proof.
  intros Hcol Hop H1 Hne. apply pat_exclude_needs. unfold comparison_text.
  simpl in Hop.
  destruct Hop as [<-|[<-|[<-|[<-|[<-|[<-|[]]]]]]];
    try (rewrite after_word_spaces by (auto; reflexivity); reflexivity).
  now elim Hne.
Qed.

Lemma comparison_text_name_not_range col ws1 op ws2 rest :
  word col = true -> forallb is_digit col = false ->
  re_match pat_range (comparison_text col ws1 op ws2 rest) = None.
Proof.
  intros [_ Hcol]%word_parts Hd. apply pat_range_needs.
  unfold comparison_text. now apply name_then_not_range.
Qed.

Lemma comparison_text_tail_trimmed col ws1 op ws2 value junk :
  word col = true -> forallb is_numchar value = true -> value <> [] ->
  starts_clean (rev junk) = true ->
  trimmed (comparison_text col ws1 op ws2 (value ++ junk)) = true.
Proof.
  intros Hcol Hv Nv Hj. apply comparison_text_trimmed_gen; auto.
  - destruct value; [congruence|discriminate].
  - rewrite rev_app_distr. destruct junk as [|c junk].
    + now apply (clean_of_class is_numchar value numchar_not_space).
    + apply starts_clean_app; auto.
      intros E. apply (f_equal (@length ascii)) in E.
      rewrite length_rev in E. discriminate.
Qed.

(** The run of an ordering comparison does not depend on what follows
    its number. *)
Lemma parse_condition_tail df col ws1 op ws2 value test :
  word col = true -> forallb is_digit col = false ->
  forallb is_numchar value = true -> value <> [] ->
  In (op, test) orderings ->
  forallb is_space ws1 = true -> forallb is_space ws2 = true ->
  exists run,
    forall junk,
      stops is_numchar junk -> starts_clean (rev junk) = true ->
      parse_condition (comparison_text col ws1 op ws2 (value ++ junk)) df
      = run.
Proof.
  intros Hcol Hd Hv Nv Hop H1 H2.
  destruct (orderings_operators op test Hop) as (Hin & N1 & N2).
  assert (G : forall junk,
            stops is_numchar junk -> starts_clean (rev junk) = true ->
            parse_condition (comparison_text col ws1 op ws2 (value ++ junk))
                            df
            = (let m := [col; op; value] in
               val <- float_of (group m 3) ;;
               present <- gets (fun df => has_col df (group m 1)) ;;
               if negb present then all_false
               else
                 s <- read_col (group m 1) ;;
                 assign_col (group m 1) (to_numeric s) ;;;
                 s' <- read_col (group m 1) ;;
                 lift (series_ord test s' val)) df);
    [|eexists; exact G].
  intros junk Hj Tj.
  unfold parse_condition.
  rewrite (strip_trimmed _ (comparison_text_tail_trimmed col ws1 op ws2
                              value junk Hcol Hv Nv Tj)).
  rewrite comparison_text_head_not_exclude, comparison_text_not_include,
    comparison_text_name_not_range,
    (comparison_text_compare_tail col ws1 op ws2 test) by auto.
  cbv zeta. unfold group. cbn [nth Nat.sub].
  simpl in Hop.
  destruct Hop as [K|[K|[K|[K|[]]]]]; inversion K; subst op test;
    eval_str_eqb; reflexivity.
Qed.

(** X10.  [re.match] reads a prefix of the condition.  Whatever follows
    the number of an ordering comparison (a unit, a closing parenthesis,
    another condition without connective) is ignored: the condition with
    the trailing text runs exactly as the comparison alone, with the same
    mask or exception and the same effect on the frame.  The column name
    must not be made of digits only. *)
Theorem comparison_ignores_trailing_text :
  forall (df : DataFrame) (col ws1 op ws2 value junk : str)
         (test : Q -> Q -> bool),
    word col = true -> forallb is_digit col = false ->
    forallb is_numchar value = true -> value <> [] ->
    In (op, test) orderings ->
    forallb is_space ws1 = true -> forallb is_space ws2 = true ->
    stops is_numchar junk -> starts_clean (rev junk) = true ->
    parse_condition (comparison_text col ws1 op ws2 value ++ junk) df
    = parse_condition (comparison_text col ws1 op ws2 value) df.
Proof.
  intros df col ws1 op ws2 value junk test Hcol Hd Hv Nv Hop H1 H2 Hj Tj.
  destruct (parse_condition_tail df col ws1 op ws2 value test
              Hcol Hd Hv Nv Hop H1 H2) as [run Hrun].
  replace (comparison_text col ws1 op ws2 value ++ junk)
    with (comparison_text col ws1 op ws2 (value ++ junk))
    by (unfold comparison_text; now rewrite <- !app_assoc).
  rewrite (Hrun junk Hj Tj).
  specialize (Hrun [] I eq_refl). rewrite app_nil_r in Hrun.
  now rewrite Hrun.
Qed.

(* ================================================================== *)
(** * More of [evaluate_filter] *)

(** X11.  The recursion of [evaluate_filter] terminates: every recursive
    call is on a part that is strictly shorter than the text, so any fuel
    above the length of the text gives the run of [evaluate_filter], which
    returns a mask or raises. *)
Theorem evaluate_filter_terminates :
  forall (fuel : nat) (expr : str) (df : DataFrame),
    length expr < fuel ->
    evaluate_filter_fuel fuel expr df = evaluate_filter expr df /\
    fst (evaluate_filter expr df) <> OutOfFuel.
Proof.
  intros fuel expr df H. split.
  - unfold evaluate_filter. apply evaluate_filter_fuel_enough; lia.
  - apply evaluate_filter_total.
Qed.

Lemma endswith_paren e : endswith (L ")") (L "(" ++ e ++ L ")") = true.
Proof.
  unfold endswith. rewrite !rev_app_distr. reflexivity.
Qed.

Lemma slice_paren e : slice_1_m1 (L "(" ++ e ++ L ")") = e.
Proof. unfold slice_1_m1. simpl. apply removelast_last. Qed.

(** X12.  One pair of parentheses around a whole expression changes
    nothing, provided the expression inside, once trimmed, is not itself
    wrapped in parentheses: [(e)] runs exactly as [e], whatever [e] is. *)
Theorem evaluate_filter_parenthesized :
  forall (e : str) (df : DataFrame),
    startswith (L "(") (strip e) && endswith (L ")") (strip e) = false ->
    evaluate_filter (L "(" ++ e ++ L ")") df = evaluate_filter e df.
Proof.
  intros e df H. rewrite !evaluate_filter_step.
  assert (T : trimmed (L "(" ++ e ++ L ")") = true)
    by (apply trimmed_ends; (discriminate || reflexivity)).
  assert (E : unwrap (strip (L "(" ++ e ++ L ")")) = unwrap (strip e)).
  { rewrite (strip_trimmed _ T). unfold unwrap at 1.
    rewrite endswith_paren, slice_paren. cbn [startswith andb L].
    change (startswith (L "(") (L "(" ++ e ++ L ")")) with true.
    cbv iota. unfold unwrap. now rewrite H. }
  now rewrite E.
Qed.

(** ** Keywords inside a condition *)

(** [col] is the keyword [kw], in any case. *)
Definition named (kw col : str) : bool :=
  prefix_ci kw col && (length col =? length kw).

Lemma prefix_ci_length kw s : prefix_ci kw s = true -> length kw <= length s.
Proof.
  revert s. induction kw as [|k kw IH]; intros [|c s]; simpl;
    try discriminate; try lia.
  intros [_ H]%andb_true_iff. apply IH in H. lia.
Qed.

(** No occurrence starts right after a word character. *)
Lemma no_occ_inside_word kw s :
  forallb is_word s = true -> no_occ kw true s = true.
Proof.
  induction s as [|c s IH]; simpl; auto.
  intros [Hc Hs]%andb_true_iff. rewrite Hc. auto.
Qed.

Lemma no_occ_word kw col :
  forallb is_word col = true -> named kw col = false ->
  no_occ kw false col = true.
Proof.
  intros Hcol Hn. destruct col as [|c col]; auto.
  pose proof Hcol as Hall. simpl in Hcol.
  apply andb_true_iff in Hcol as [Hc Hcol].
  change (negb (occurs_at kw false (c :: col))
          && no_occ kw (is_word c) col = true).
  rewrite Hc, no_occ_inside_word, andb_true_r by auto.
  unfold occurs_at, boundary_after. cbn [negb andb].
  destruct (prefix_ci kw (c :: col)) eqn:P; auto.
  pose proof (prefix_ci_length _ _ P) as Hlen.
  unfold named in Hn. rewrite P in Hn. cbn [andb] in Hn.
  apply Nat.eqb_neq in Hn.
  destruct (skipn (length kw) (c :: col)) as [|d u] eqn:E.
  - apply (f_equal (@length ascii)) in E. rewrite length_skipn in E.
    cbn [length] in *. lia.
  - assert (Hd : In d (c :: col)).
    { rewrite <- (firstn_skipn (length kw) (c :: col)), E.
      apply in_or_app. right. now left. }
    rewrite forallb_forall in Hall. now rewrite (Hall d Hd).
Qed.

(** A non-word character ends a word: what follows it never matters to
    an occurrence before it. *)
Lemma occurs_core_break kw c : forall s t,
  forallb is_word kw = true -> is_word c = false ->
  prefix_ci kw (s ++ c :: t) && boundary_after kw (s ++ c :: t)
  = prefix_ci kw s && boundary_after kw s.
Proof.
  unfold boundary_after.
  induction kw as [|k kw IH]; intros s t Hkw Hc.
  - destruct s; simpl; [now rewrite Hc | reflexivity].
  - simpl in Hkw. apply andb_true_iff in Hkw as [Hk Hkw].
    destruct s as [|d s].
    + simpl. now rewrite (char_ci_word k c Hk Hc).
    + simpl. rewrite <- !andb_assoc. f_equal. now apply IH.
Qed.

Lemma no_occ_break kw c X : forall p T,
  forallb is_word kw = true -> kw <> [] -> is_word c = false ->
  no_occ kw p X = true -> no_occ kw false T = true ->
  no_occ kw p (X ++ c :: T) = true.
Proof.
  intros p T Hkw N Hc. revert p.
  induction X as [|d X IH]; intros p HX HT.
  - simpl app.
    change (negb (occurs_at kw p (c :: T)) && no_occ kw (is_word c) T
            = true).
    rewrite Hc, HT, andb_true_r. unfold occurs_at.
    destruct kw as [|k kw]; [congruence|]. simpl in Hkw.
    apply andb_true_iff in Hkw as [Hk _]. simpl.
    now rewrite (char_ci_word k c Hk Hc), andb_false_r.
  - simpl in HX. apply andb_true_iff in HX as [H1 H2].
    change (negb (occurs_at kw p ((d :: X) ++ c :: T))
            && no_occ kw (is_word d) (X ++ c :: T) = true).
    unfold occurs_at in *. rewrite <- andb_assoc in *.
    rewrite occurs_core_break by auto.
    rewrite H1. simpl. now apply IH.
Qed.

(** A text without the first letter of the keyword, in either case, has
    no occurrence of it. *)
Lemma no_occ_no_initial k kw T : forall p,
  forallb (fun c => negb (char_eqb (upper k) (upper c))) T = true ->
  no_occ (k :: kw) p T = true.
Proof.
  induction T as [|c T IH]; intros p; simpl; auto.
  intros [Hc HT]%andb_true_iff. apply negb_true_iff in Hc.
  rewrite IH by auto. unfold occurs_at. simpl. rewrite Hc.
  now rewrite andb_false_r.
Qed.

(** The characters of a condition outside its column name: whitespace,
    digits, dots, commas and the operator characters. *)
Definition symbol_char (c : ascii) : bool :=
  is_space c || is_listchar c || operator_char c || char_eqb c "!".

Lemma upper_symbol c :
  symbol_char c = true -> between 65 90 (code (upper c)) = false.
Proof.
  intros H.
  pose proof (all_ascii_spec
    (fun c => implb (symbol_char c)
                    (negb (between 65 90 (code (upper c))))) eq_refl c) as A.
  cbv beta in A. rewrite H in A. now apply negb_true_iff in A.
Qed.

Lemma symbol_no_initial k T :
  between 65 90 (code (upper k)) = true ->
  forallb symbol_char T = true ->
  forallb (fun c => negb (char_eqb (upper k) (upper c))) T = true.
Proof.
  intros A. rewrite !forallb_forall. intros H c Hc.
  specialize (H c Hc). apply negb_true_iff.
  destruct (char_eqb (upper k) (upper c)) eqn:E; auto.
  apply char_eqb_eq in E.
  rewrite E, (upper_symbol c H) in A. discriminate.
Qed.

Lemma symbols_app a b :
  forallb symbol_char a = true -> forallb symbol_char b = true ->
  forallb symbol_char (a ++ b) = true.
Proof. intros Ha Hb. now rewrite forallb_app, Ha, Hb. Qed.

Lemma spaces_symbols ws :
  forallb is_space ws = true -> forallb symbol_char ws = true.
Proof.
  rewrite !forallb_forall. intros H c Hc. unfold symbol_char.
  now rewrite (H c Hc).
Qed.

Lemma numchars_symbols v :
  forallb is_numchar v = true -> forallb symbol_char v = true.
Proof.
  rewrite !forallb_forall. intros H c Hc. unfold symbol_char.
  rewrite (numchar_listchar c (H c Hc)). now rewrite orb_true_r.
Qed.

Lemma operator_symbols op :
  In op operators -> forallb symbol_char op = true /\ op <> [] /\
  stops is_word op.
Proof.
  unfold operators. simpl.
  intros [<-|[<-|[<-|[<-|[<-|[<-|[]]]]]]];
    (split; [reflexivity | split; [discriminate | reflexivity]]).
Qed.

(** A comparison holds no keyword (one that opens with a letter of
    ASCII) unless its column is named like one. *)
Lemma comparison_text_no_occ kw k col ws1 op ws2 value :
  kw = k :: tl kw -> forallb is_word kw = true ->
  between 65 90 (code (upper k)) = true ->
  word col = true -> named kw col = false ->
  In op operators ->
  forallb is_space ws1 = true -> forallb is_space ws2 = true ->
  forallb is_numchar value = true ->
  no_occ kw false (comparison_text col ws1 op ws2 value) = true.
Proof.
  intros Ek Hkw Hu [_ Hcol]%word_parts Hn Hop H1 H2 Hv.
  destruct (operator_symbols op Hop) as (So & No & Wo).
  assert (Hk : is_word k = true).
  { rewrite Ek in Hkw. simpl in Hkw.
    now apply andb_true_iff in Hkw as [Hk _]. }
  assert (ST : forallb symbol_char (ws1 ++ op ++ ws2 ++ value) = true)
    by auto using symbols_app, spaces_symbols, numchars_symbols.
  assert (WT : stops is_word (ws1 ++ op ++ ws2 ++ value)).
  { apply stops_app; [|now apply spaces_not_word].
    destruct op; [congruence|exact Wo]. }
  unfold comparison_text.
  destruct (ws1 ++ op ++ ws2 ++ value) as [|c T] eqn:E.
  - rewrite app_nil_r. now apply no_occ_word.
  - simpl in ST. apply andb_true_iff in ST as [_ ST].
    apply no_occ_break; auto.
    + rewrite Ek. discriminate.
    + now apply no_occ_word.
    + rewrite Ek. apply no_occ_no_initial.
      now apply symbol_no_initial.
Qed.

(** X13.  [OR] and [AND] split the text at whole words only.  A single
    comparison on a column whose name merely contains them ([ORIGIN],
    [BRAND], [color]) is not split: [evaluate_filter] runs it as
    [parse_condition] does.  The column must not be named [OR] or [AND]
    itself, in any case. *)
Theorem comparison_is_one_condition :
  forall (df : DataFrame) (col ws1 op ws2 value : str),
    word col = true -> plain_number value = true -> In op operators ->
    forallb is_space ws1 = true -> forallb is_space ws2 = true ->
    named (L "OR") col = false -> named (L "AND") col = false ->
    evaluate_filter (comparison_text col ws1 op ws2 value) df
    = parse_condition (comparison_text col ws1 op ws2 value) df.
Proof.
  intros df col ws1 op ws2 value Hcol Hval Hop H1 H2 Nor Nand.
  destruct (plain_number_parts _ Hval) as (Hv & Nv & _).
  rewrite evaluate_filter_step. cbv zeta.
  rewrite (strip_trimmed _ (comparison_text_trimmed col ws1 op ws2 value
                              Hcol Hval)).
  rewrite unwrap_plain.
  2:{ destruct (word_parts _ Hcol) as [Nc Wc]. unfold comparison_text.
      destruct col as [|c col]; [congruence|]. simpl in Wc.
      apply andb_true_iff in Wc as [Wc _]. simpl.
      destruct (char_eqb "(" c) eqn:E; auto.
      apply char_eqb_eq in E. subst c. discriminate. }
  rewrite (re_split_word_none (L "OR")), (re_split_word_none (L "AND")).
  - reflexivity.
  - now apply (comparison_text_no_occ (L "AND") "A"%char).
  - now apply (comparison_text_no_occ (L "OR") "O"%char).
Qed.

(* ================================================================== *)
(** * Expressions without parentheses *)

(** A connective as it is typed between two conditions: the keyword in
    any case, with one blank on each side. *)
Definition connective (kw : str) : str := L " " ++ kw ++ L " ".

(** The text of a conjunction of conditions, and of a disjunction of
    conjunctions; [a] and [o] are [AND] and [OR] as they are typed. *)
Definition conjunction (a : str) (conds : list str) : str :=
  join (connective a) conds.

Definition disjunction (o a : str) (groups : list (list str)) : str :=
  join (connective o) (map (conjunction a) groups).

(** What the expression is read as: the masks of the conditions of a
    group, combined with [&] from an all-true seed, and the masks of the
    groups, combined with [|] from an all-false seed; a group of one
    condition and an expression of one group have no seed. *)
Fixpoint fold_masks {X} (op : Series bool -> Series bool -> Series bool)
         (run : X -> M (Series bool)) (xs : list X) (mask : Series bool)
  : M (Series bool) :=
  match xs with
  | [] => ret mask
  | x :: xs' =>
      m <- run x ;;
      fold_masks op run xs' (op mask m)
  end.

Definition conjunction_run (g : list str) : M (Series bool) :=
  match g with
  | [c] => parse_condition c
  | _ => mask <- all_true ;; fold_masks series_and parse_condition g mask
  end.

Definition disjunction_run (groups : list (list str)) : M (Series bool) :=
  match groups with
  | [g] => conjunction_run g
  | _ => mask <- all_false ;;
         fold_masks series_or conjunction_run groups mask
  end.

Lemma accumulate_fold op (f : str -> M (Series bool)) parts :
  forall mask df,
    accumulate op f parts mask df = fold_masks op f parts mask df.
Proof.
  induction parts as [|part parts IH]; intros mask df; simpl; auto.
  unfold bind. destruct (f part df) as [[m|e|] d]; auto.
Qed.

Lemma fold_masks_map {X Y} op (f : Y -> M (Series bool)) (h : X -> Y) xs :
  forall mask df,
    fold_masks op f (map h xs) mask df
    = fold_masks op (fun x => f (h x)) xs mask df.
Proof.
  induction xs as [|x xs IH]; intros mask df; simpl; auto.
  unfold bind. destruct (f (h x) df) as [[m|e|] d]; auto.
Qed.

Lemma fold_masks_ext {X} op (f g : X -> M (Series bool)) xs :
  Forall (fun x => forall df, f x df = g x df) xs ->
  forall mask df, fold_masks op f xs mask df = fold_masks op g xs mask df.
Proof.
  induction 1 as [|x xs H F IH]; intros mask df; simpl; auto.
  unfold bind. rewrite H. destruct (g x df) as [[m|e|] d]; auto.
Qed.

Lemma named_parts kw a :
  named kw a = true -> prefix_ci kw a = true /\ length a = length kw.
Proof.
  unfold named. intros [H1 H2]%andb_true_iff.
  now apply Nat.eqb_eq in H2.
Qed.

Lemma prefix_ci_app kw a t :
  prefix_ci kw a = true -> prefix_ci kw (a ++ t) = true.
Proof.
  revert a. induction kw as [|k kw IH]; intros [|c a]; simpl; auto;
    try discriminate.
  intros [-> H]%andb_true_iff. simpl. auto.
Qed.

Lemma named_word kw : forall a,
  named kw a = true -> forallb is_word kw = true ->
  forallb is_word a = true.
Proof.
  unfold named.
  induction kw as [|k kw IH]; intros [|c a]; simpl; auto; try discriminate.
  intros [[Hc Hp]%andb_true_iff Hl]%andb_true_iff [Hk Hkw]%andb_true_iff.
  apply char_eqb_eq in Hc.
  rewrite <- (upper_word c), <- Hc, upper_word, Hk. simpl.
  apply IH; auto. now rewrite Hp.
Qed.

Lemma occurs_typed kw a Y :
  named kw a = true -> occurs_at kw false (a ++ " "%char :: Y) = true.
Proof.
  intros [Hp Hl]%named_parts. unfold occurs_at, boundary_after.
  rewrite (prefix_ci_app _ _ _ Hp), <- Hl.
  rewrite skipn_app, skipn_all, Nat.sub_diag. reflexivity.
Qed.

(** The scan at a typed keyword: the part so far is closed, the keyword
    is passed over, and the next part opens with the blank after it. *)
Lemma split_typed kw a acc J :
  forallb is_word kw = true -> kw <> [] -> named kw a = true ->
  split_aux kw false 0 acc (a ++ " "%char :: J)
  = rev acc :: split_aux kw false 0 [" "%char] J.
Proof.
  intros Hkw N Ha.
  pose proof (named_word kw a Ha Hkw) as Wa.
  destruct (named_parts kw a Ha) as [_ Hl].
  destruct a as [|k a]; [destruct kw; [congruence|discriminate]|].
  change (split_aux kw false 0 acc ((k :: a) ++ " "%char :: J))
    with (if occurs_at kw false ((k :: a) ++ " "%char :: J)
          then rev acc
               :: split_aux kw (is_word k) (length kw - 1) []
                            (a ++ " "%char :: J)
          else split_aux kw (is_word k) 0 (k :: acc) (a ++ " "%char :: J)).
  rewrite (occurs_typed kw (k :: a) J Ha). f_equal.
  assert (T : split_aux kw true 0 [] (" "%char :: J)
              = split_aux kw false 0 [" "%char] J) by reflexivity.
  simpl in Wa. apply andb_true_iff in Wa as [Wk Wa].
  rewrite <- Hl. cbn [length Nat.sub]. rewrite Nat.sub_0_r.
  destruct a as [|k' a].
  - simpl app. simpl length. now rewrite Wk.
  - rewrite split_skip by discriminate.
    rewrite is_word_last; [exact T|exact Wa|discriminate].
Qed.

(** A part of the split: not empty, trimmed, and without the keyword. *)
Definition clean_part (kw X : str) : Prop :=
  X <> [] /\ trimmed X = true /\ no_occ kw false X = true.

Lemma join_connective_cons a X Y Ys :
  join (connective a) (X :: Y :: Ys)
  = X ++ " "%char :: a ++ " "%char :: join (connective a) (Y :: Ys).
Proof.
  rewrite join_cons. unfold connective. now rewrite <- !app_assoc.
Qed.

(** [re.split] on a text joined with a typed keyword gives the joined
    parts back, up to the blanks around the keyword. *)
Lemma split_join_aux kw a :
  forallb is_word kw = true -> kw <> [] -> named kw a = true ->
  forall Xs acc,
    Xs <> [] -> Forall (clean_part kw) Xs -> forallb is_space acc = true ->
    Forall2 (fun part X => strip part = X)
            (split_aux kw false 0 acc (join (connective a) Xs)) Xs.
Proof.
  intros Hkw N Ha.
  induction Xs as [|X Xs IH]; [congruence|]. intros acc _ F Hacc.
  inversion F as [|? ? (NX & TX & OX) F']; subst.
  assert (Hr : forallb is_space (rev acc) = true) by now apply forallb_rev.
  destruct Xs as [|Y Ys].
  - simpl join. rewrite split_no_occ by auto.
    constructor; [|constructor].
    rewrite <- (app_nil_r X) at 1. now apply strip_pad.
  - rewrite join_connective_cons, split_scan, split_typed by auto.
    constructor.
    + simpl rev. rewrite rev_app_distr, rev_involutive, <- app_assoc.
      now apply strip_pad.
    + apply IH; auto. discriminate.
Qed.

Lemma split_join kw a Xs :
  forallb is_word kw = true -> kw <> [] -> named kw a = true ->
  Xs <> [] -> Forall (clean_part kw) Xs ->
  Forall2 (fun part X => strip part = X)
          (re_split_word kw (join (connective a) Xs)) Xs.
Proof.
  intros Hkw N Ha NX F. unfold re_split_word.
  now apply split_join_aux.
Qed.

Lemma accumulate_parts op (f : str -> M (Series bool)) parts Xs :
  Forall2 (fun part X => forall df, f part df = f X df) parts Xs ->
  forall mask df,
    accumulate op f parts mask df = accumulate op f Xs mask df.
Proof.
  induction 1 as [|part X parts Xs H F IH]; intros mask df; simpl; auto.
  unfold bind. rewrite H.
  destruct (f X df) as [[m|e|] df']; auto.
Qed.

Lemma accumulate_split op parts Xs mask df :
  Forall2 (fun part X => strip part = X) parts Xs ->
  accumulate op evaluate_filter parts mask df
  = accumulate op evaluate_filter Xs mask df.
Proof.
  intros F. apply accumulate_parts.
  eapply Forall2_impl; [|exact F]. cbv beta.
  intros part X <- d. symmetry. apply evaluate_filter_strip.
Qed.

(** The text of a join: trimmed, not empty and not opening with a
    parenthesis when its parts are so. *)
Lemma join_text a Xs :
  Xs <> [] ->
  Forall (fun X => X <> [] /\ trimmed X = true
                   /\ startswith (L "(") X = false) Xs ->
  join (connective a) Xs <> [] /\
  trimmed (join (connective a) Xs) = true /\
  startswith (L "(") (join (connective a) Xs) = false.
Proof.
  induction Xs as [|X Xs IH]; [congruence|]. intros _ F.
  inversion F as [|? ? (NX & TX & PX) F']; subst.
  destruct Xs as [|Y Ys]; [simpl; auto|].
  destruct IH as (NJ & TJ & _); [discriminate|auto|].
  rewrite join_cons.
  apply andb_true_iff in TX as [TX _]. apply andb_true_iff in TJ as [_ TJ].
  split; [|split].
  - destruct X; [congruence|discriminate].
  - now apply trimmed_ends.
  - now rewrite startswith_paren_app.
Qed.

Lemma no_occ_join kw a Xs :
  forallb is_word kw = true -> kw <> [] ->
  no_occ kw false a = true ->
  Xs <> [] -> Forall (fun X => no_occ kw false X = true) Xs ->
  no_occ kw false (join (connective a) Xs) = true.
Proof.
  intros Hkw N Ha.
  induction Xs as [|X Xs IH]; [congruence|]. intros _ F.
  inversion F as [|? ? OX F']; subst.
  destruct Xs as [|Y Ys]; [exact OX|].
  rewrite join_connective_cons.
  apply no_occ_app; auto. apply no_occ_app; auto.
  apply IH; auto. discriminate.
Qed.

(** An atomic condition is not split. *)
Lemma evaluate_filter_atomic c df :
  atomic c = true -> evaluate_filter c df = parse_condition c df.
Proof.
  intros (N & T & O & A & P)%atomic_parts.
  rewrite evaluate_filter_step. cbv zeta.
  rewrite (strip_trimmed _ T), (unwrap_plain _ P).
  now rewrite (re_split_word_none _ _ O), (re_split_word_none _ _ A).
Qed.

Lemma length_two_plus {A} (x y : A) l : (1 <? length (x :: y :: l)) = true.
Proof. reflexivity. Qed.

Lemma length_one {A} (x : A) : (1 <? length [x]) = false.
Proof. reflexivity. Qed.

(** A conjunction of atomic conditions. *)
Lemma evaluate_filter_conjunction a g df :
  named (L "AND") a = true ->
  g <> [] -> Forall (fun c => atomic c = true) g ->
  evaluate_filter (conjunction a g) df = conjunction_run g df.
Proof.
  intros Ha Ng F.
  destruct g as [|c [|c' g]]; [congruence| |].
  - inversion F; subst. now apply evaluate_filter_atomic.
  - assert (Fp : Forall (fun X => X <> [] /\ trimmed X = true
                                  /\ startswith (L "(") X = false)
                        (c :: c' :: g)).
    { eapply Forall_impl; [|exact F]. cbv beta.
      intros x (N & T & _ & _ & P)%atomic_parts. auto. }
    destruct (join_text a _ Ng Fp) as (NJ & TJ & PJ).
    unfold conjunction in *.
    rewrite evaluate_filter_step. cbv zeta.
    rewrite (strip_trimmed _ TJ), (unwrap_plain _ PJ).
    rewrite (re_split_word_none (L "OR")).
    2:{ apply no_occ_join; auto; try discriminate.
        - apply no_occ_word.
          + now apply (named_word (L "AND")).
          + destruct (named_parts _ _ Ha) as [_ Hl]. unfold named.
            rewrite Hl. now rewrite andb_false_r.
        - eapply Forall_impl; [|exact F]. cbv beta.
          now intros x (_ & _ & O & _)%atomic_parts. }
    rewrite length_one.
    assert (S : Forall2 (fun part X => strip part = X)
                  (re_split_word (L "AND") (join (connective a) (c :: c' :: g)))
                  (c :: c' :: g)).
    { apply split_join; auto; try discriminate.
      eapply Forall_impl; [|exact F]. cbv beta.
      intros x (N & T & _ & A & _)%atomic_parts. repeat split; auto. }
    rewrite (Forall2_length S), length_two_plus.
    unfold conjunction_run, bind, all_true, gets.
    rewrite (accumulate_split _ _ _ _ _ S), accumulate_fold.
    apply fold_masks_ext.
    eapply Forall_impl; [|exact F]. cbv beta.
    intros x Hx d. now apply evaluate_filter_atomic.
Qed.

(** X14.  An expression without parentheses is read as a disjunction of
    conjunctions, whatever the number of conditions: the text is split at
    every [OR] first and each part at every [AND], so [AND] binds tighter
    than [OR].  For atomic conditions joined by the two keywords, typed in
    any case with a blank on each side, [evaluate_filter] runs the
    conditions from left to right on the same frame, combines the masks of
    each group with [&] and the masks of the groups with [|]; an
    exception of a condition is the exception of the whole. *)
Theorem expression_is_or_of_ands :
  forall (df : DataFrame) (o a : str) (groups : list (list str)),
    named (L "OR") o = true -> named (L "AND") a = true ->
    groups <> [] ->
    Forall (fun g => g <> [] /\ Forall (fun c => atomic c = true) g)
           groups ->
    evaluate_filter (disjunction o a groups) df = disjunction_run groups df.
Proof.
  intros df o a groups Ho Ha Ng F.
  assert (Fg : Forall (fun X => X <> [] /\ trimmed X = true
                                /\ startswith (L "(") X = false)
                      (map (conjunction a) groups)).
  { apply Forall_map. eapply Forall_impl; [|exact F]. cbv beta.
    intros g [N Fa]. apply join_text; auto.
    eapply Forall_impl; [|exact Fa]. cbv beta.
    intros x (Nx & T & _ & _ & P)%atomic_parts. auto. }
  assert (Og : Forall (clean_part (L "OR")) (map (conjunction a) groups)).
  { apply Forall_map. rewrite Forall_forall in Fg. rewrite Forall_forall.
    intros g Hg. destruct (Fg (conjunction a g)) as (N & T & _).
    { now apply in_map. }
    rewrite Forall_forall in F. destruct (F g Hg) as [Ngg Fa].
    repeat split; auto.
    apply no_occ_join; auto; try discriminate.
    - apply no_occ_word.
      + now apply (named_word (L "AND")).
      + destruct (named_parts _ _ Ha) as [_ Hl]. unfold named.
        rewrite Hl. now rewrite andb_false_r.
    - eapply Forall_impl; [|exact Fa]. cbv beta.
      now intros x (_ & _ & O & _)%atomic_parts. }
  destruct groups as [|g [|g' groups]]; [congruence| |].
  - inversion F as [|? ? [N Fa] F']; subst.
    unfold disjunction. simpl map. simpl join.
    now apply evaluate_filter_conjunction.
  - assert (Nm : map (conjunction a) (g :: g' :: groups) <> [])
      by discriminate.
    destruct (join_text o _ Nm Fg) as (NJ & TJ & PJ).
    pose proof (split_join (L "OR") o _ eq_refl ltac:(discriminate) Ho
                  Nm Og) as S.
    unfold disjunction.
    rewrite evaluate_filter_step. cbv zeta.
    rewrite (strip_trimmed _ TJ), (unwrap_plain _ PJ).
    rewrite (Forall2_length S), length_map, length_two_plus.
    unfold disjunction_run, bind, all_false, gets.
    rewrite (accumulate_split _ _ _ _ _ S), accumulate_fold, fold_masks_map.
    apply fold_masks_ext.
    eapply Forall_impl; [|exact F]. cbv beta.
    intros h [N Fa] d. now apply evaluate_filter_conjunction.
Qed.


(* ------------------------------------------------------------------ *)
(** ** Conditions on a column that the frame does not have *)

Lemma list_unknown_column df col ws1 op ws2 vals :
  word col = true -> has_col df col = false ->
  op = L "=" \/ op = L "!=" ->
  forallb is_listchar vals = true -> vals <> [] -> trimmed vals = true ->
  forallb is_space ws1 = true -> forallb is_space ws2 = true ->
  parse_condition (comparison_text col ws1 op ws2 vals) df
  = (Ok (const_series false (len df)), df).
Proof.
  intros Hcol Hno Hop Hv Nv [T1 T2]%andb_true_iff H1 H2.
  assert (Sv : stops is_space vals) by now apply starts_clean_stops.
  pose proof (comparison_text_trimmed_gen col ws1 op ws2 vals Hcol Nv T2)
    as Ht.
  unfold parse_condition. rewrite (strip_trimmed _ Ht).
  destruct Hop as [-> | ->].
  - change (comparison_text col ws1 (L "=") ws2 vals)
      with (equality_text col ws1 ws2 vals).
    rewrite equality_text_not_exclude by auto.
    change (equality_text col ws1 ws2 vals)
      with (comparison_text col ws1 (L "=") ws2 vals).
    rewrite list_text_include by auto.
    unfold group, all_false, bind, gets. cbn [nth Nat.sub]. cbv beta iota.
    now rewrite Hno.
  - rewrite list_text_exclude by auto.
    unfold group, all_false, bind, gets. cbn [nth Nat.sub]. cbv beta iota.
    now rewrite Hno.
Qed.

(** X15.  A condition on a column that the frame does not have selects
    no row and leaves the frame as it is, when its numbers are plain: so
    for a single comparison with any of the six operators and for a
    range.  A list condition ([=] or [!=] followed by digits, dots, commas
    and spaces) does so whatever its list, malformed numbers included,
    because the list shapes look the column up before they convert. *)
Theorem unknown_column_selects_nothing :
  forall (df : DataFrame) (col : str),
    word col = true -> has_col df col = false ->
    (forall ws1 op ws2 value,
        plain_number value = true -> In op operators ->
        forallb is_space ws1 = true -> forallb is_space ws2 = true ->
        parse_condition (comparison_text col ws1 op ws2 value) df
        = (Ok (const_series false (len df)), df)) /\
    (forall lo ws1 ws2 ws3 ws4 hi,
        plain_number lo = true -> plain_number hi = true ->
        forallb is_space ws1 = true -> forallb is_space ws2 = true ->
        forallb is_space ws3 = true -> forallb is_space ws4 = true ->
        parse_condition (range_text lo ws1 ws2 col ws3 ws4 hi) df
        = (Ok (const_series false (len df)), df)) /\
    (forall ws1 op ws2 vals,
        op = L "=" \/ op = L "!=" ->
        forallb is_listchar vals = true -> vals <> [] ->
        trimmed vals = true ->
        forallb is_space ws1 = true -> forallb is_space ws2 = true ->
        parse_condition (comparison_text col ws1 op ws2 vals) df
        = (Ok (const_series false (len df)), df)).
Proof.
  intros df col Hcol Hno. split; [|split].
  - intros. now apply comparison_unknown_column.
  - intros. now apply range_unknown_column.
  - intros. now apply list_unknown_column.
Qed.

(* ------------------------------------------------------------------ *)
(** ** The mask of a loaded frame *)

(** X16.  On a frame with the default index, a mask that
    [parse_condition] or [evaluate_filter] returns has one entry per row,
    under the labels of the frame, and the frame that the call leaves has
    the same index and the same column names: each column holds its old
    cells, or its old cells coerced to numbers. *)
Theorem returned_mask_fits_frame :
  forall (df : DataFrame) (text : str) (m : Series bool) (df' : DataFrame),
    loaded df ->
    parse_condition text df = (Ok m, df') \/
    evaluate_filter text df = (Ok m, df') ->
    labels m = index df /\ length m = len df /\ frame_kept df df'.
Proof.
  intros df text m df' Ld E.
  assert (H : kept df df' /\ aligned df m).
  { destruct E as [E|E].
    - pose proof (mask_spec_parse_condition df text df (frame_kept_refl df))
        as H. now rewrite E in H.
    - now apply (run_spec df text df m df' (frame_kept_refl df)). }
  destruct H as [K Al]. split; [|split]; auto.
  - rewrite (Al Ld). now destruct Ld as [-> _].
  - now apply aligned_length.
Qed.

(* ------------------------------------------------------------------ *)
(** ** Parentheses around the operands *)

(** The text [(A) k (B)], with [k] the keyword as it is typed. *)
Definition wrapped_pair (k A B : str) : str :=
  L "(" ++ (A ++ (L ")" ++ connective k ++ L "(") ++ B) ++ L ")".

Lemma wrapped_pair_join k A B :
  A ++ (L ")" ++ connective k ++ L "(") ++ B
  = join (connective k) [A ++ L ")"; L "(" ++ B].
Proof. cbn [join]. now rewrite <- !app_assoc. Qed.

Lemma closing_atomic A : atomic A = true -> atomic (A ++ L ")") = true.
Proof.
  intros (N & T & O & An & P)%atomic_parts.
  apply andb_true_iff in T as [T1 T2].
  unfold atomic. rewrite !andb_true_iff, negb_true_iff. repeat split.
  - destruct A; [congruence|reflexivity].
  - change (A ++ L ")") with (A ++ [] ++ L ")").
    apply trimmed_ends; auto; (discriminate || reflexivity).
  - apply (no_occ_break (L "OR") ")"%char A false []); auto;
      (reflexivity || discriminate).
  - apply (no_occ_break (L "AND") ")"%char A false []); auto;
      (reflexivity || discriminate).
  - now rewrite startswith_paren_app.
Qed.

Lemma opening_facts B :
  atomic B = true ->
  trimmed (L "(" ++ B) = true /\
  no_occ (L "OR") false (L "(" ++ B) = true /\
  no_occ (L "AND") false (L "(" ++ B) = true.
Proof.
  intros (N & T & O & An & P)%atomic_parts.
  apply andb_true_iff in T as [T1 T2]. repeat split.
  - change (L "(" ++ B) with (L "(" ++ [] ++ B).
    apply trimmed_ends; auto; (reflexivity || discriminate).
  - apply (no_occ_break (L "OR") "("%char [] false B); auto;
      (reflexivity || discriminate).
  - apply (no_occ_break (L "AND") "("%char [] false B); auto;
      (reflexivity || discriminate).
Qed.

Lemma endswith_open B :
  B <> [] -> endswith (L ")") (L "(" ++ B) = endswith (L ")") B.
Proof.
  intros N. unfold endswith. rewrite rev_app_distr.
  destruct (rev B) as [|c r] eqn:E; [|reflexivity].
  apply (f_equal (@rev ascii)) in E. rewrite rev_involutive in E.
  now subst.
Qed.

(** An operand that opens with a parenthesis it does not close is read by
    no shape. *)
Lemma opening_unreadable B df :
  atomic B = true -> endswith (L ")") B = false ->
  evaluate_filter (L "(" ++ B) df = (Ok (const_series false (len df)), df).
Proof.
  intros HB E. destruct (opening_facts B HB) as (T & O & An).
  destruct (atomic_parts _ HB) as (N & _).
  rewrite evaluate_filter_step. cbv zeta. rewrite (strip_trimmed _ T).
  assert (U : unwrap (L "(" ++ B) = L "(" ++ B).
  { unfold unwrap. rewrite endswith_open, E by auto.
    now rewrite andb_false_r. }
  rewrite U, (re_split_word_none _ _ O), (re_split_word_none _ _ An).
  rewrite !length_one.
  apply parse_condition_no_shape; rewrite (strip_trimmed _ T).
  - now apply (re_match_needs_class _ _ is_word).
  - now apply (re_match_needs_class _ _ is_word).
  - now apply (re_match_needs_class _ _ is_numchar).
  - now apply (re_match_needs_class _ _ is_word).
  - now apply (re_match_needs_class _ _ is_word).
Qed.

Lemma wrapped_pair_text k A B :
  atomic A = true -> atomic B = true ->
  trimmed (join (connective k) [A ++ L ")"; L "(" ++ B]) = true /\
  startswith (L "(") (join (connective k) [A ++ L ")"; L "(" ++ B]) = false.
Proof.
  intros (NA & TA & _ & _ & PA)%atomic_parts
         (NB & TB & _)%atomic_parts.
  apply andb_true_iff in TA as [TA _]. apply andb_true_iff in TB as [_ TB].
  rewrite <- wrapped_pair_join. split.
  - now apply trimmed_ends.
  - now rewrite startswith_paren_app.
Qed.

(** The outer pair is taken off the whole text. *)
Lemma wrapped_pair_inner k A B df :
  atomic A = true -> atomic B = true ->
  evaluate_filter (wrapped_pair k A B) df
  = evaluate_filter (join (connective k) [A ++ L ")"; L "(" ++ B]) df.
Proof.
  intros HA HB. destruct (wrapped_pair_text k A B HA HB) as [T P].
  unfold wrapped_pair. rewrite wrapped_pair_join.
  set (J := join (connective k) [A ++ L ")"; L "(" ++ B]) in *.
  rewrite !evaluate_filter_step.
  assert (T' : trimmed (L "(" ++ J ++ L ")") = true)
    by (apply trimmed_ends; (discriminate || reflexivity)).
  assert (E : unwrap (strip (L "(" ++ J ++ L ")")) = unwrap (strip J)).
  { rewrite (strip_trimmed _ T'). unfold unwrap at 1.
    rewrite endswith_paren, slice_paren. cbn [startswith andb L].
    change (startswith (L "(") (L "(" ++ J ++ L ")")) with true.
    cbv iota. now rewrite (strip_trimmed _ T), (unwrap_plain _ P). }
  now rewrite E.
Qed.

Lemma wrapped_pair_parts kw A B :
  kw = L "OR" \/ kw = L "AND" ->
  atomic A = true -> atomic B = true ->
  Forall (clean_part kw) [A ++ L ")"; L "(" ++ B].
Proof.
  intros Hkw HA HB.
  destruct (atomic_parts _ (closing_atomic A HA)) as (N & T & O & An & _).
  destruct (opening_facts B HB) as (T' & O' & An').
  destruct Hkw as [-> | ->]; repeat constructor; auto; discriminate.
Qed.

Lemma wrapped_pair_and k A B df :
  named (L "AND") k = true ->
  atomic A = true -> atomic B = true -> endswith (L ")") B = false ->
  evaluate_filter (wrapped_pair k A B) df
  = (mask <- all_true ;;
     mA <- parse_condition (A ++ L ")") ;;
     mB <- all_false ;;
     ret (series_and (series_and mask mA) mB)) df.
Proof.
  intros Hk HA HB E. rewrite wrapped_pair_inner by auto.
  destruct (wrapped_pair_text k A B HA HB) as [T P].
  pose proof (wrapped_pair_parts (L "OR") A B (or_introl eq_refl) HA HB)
    as FO.
  pose proof (wrapped_pair_parts (L "AND") A B (or_intror eq_refl) HA HB)
    as FA.
  assert (O : no_occ (L "OR") false
                (join (connective k) [A ++ L ")"; L "(" ++ B]) = true).
  { apply no_occ_join; auto; try discriminate.
    - apply no_occ_word.
      + now apply (named_word (L "AND")).
      + destruct (named_parts _ _ Hk) as [_ Hl]. unfold named.
        rewrite Hl. now rewrite andb_false_r.
    - eapply Forall_impl; [|exact FO]. cbv beta. now intros x (_ & _ & H). }
  pose proof (split_join (L "AND") k [A ++ L ")"; L "(" ++ B] eq_refl
                ltac:(discriminate) Hk ltac:(discriminate) FA) as S.
  rewrite evaluate_filter_step. cbv zeta.
  rewrite (strip_trimmed _ T), (unwrap_plain _ P).
  rewrite (re_split_word_none _ _ O), length_one.
  rewrite (Forall2_length S), length_two_plus.
  unfold bind at 1, all_true at 1, gets at 1.
  rewrite (accumulate_split _ _ _ _ _ S).
  cbn [accumulate]. unfold bind, all_true, all_false, gets, ret.
  rewrite (evaluate_filter_atomic _ _ (closing_atomic A HA)).
  destruct (parse_condition (A ++ L ")") df) as [[m|e|] d]; auto.
  now rewrite opening_unreadable.
Qed.

Lemma wrapped_pair_or k A B df :
  named (L "OR") k = true ->
  atomic A = true -> atomic B = true -> endswith (L ")") B = false ->
  evaluate_filter (wrapped_pair k A B) df
  = (mask <- all_false ;;
     mA <- parse_condition (A ++ L ")") ;;
     mB <- all_false ;;
     ret (series_or (series_or mask mA) mB)) df.
Proof.
  intros Hk HA HB E. rewrite wrapped_pair_inner by auto.
  destruct (wrapped_pair_text k A B HA HB) as [T P].
  pose proof (wrapped_pair_parts (L "OR") A B (or_introl eq_refl) HA HB)
    as FO.
  pose proof (split_join (L "OR") k [A ++ L ")"; L "(" ++ B] eq_refl
                ltac:(discriminate) Hk ltac:(discriminate) FO) as S.
  rewrite evaluate_filter_step. cbv zeta.
  rewrite (strip_trimmed _ T), (unwrap_plain _ P).
  rewrite (Forall2_length S), length_two_plus.
  unfold bind at 1, all_false at 1, gets at 1.
  rewrite (accumulate_split _ _ _ _ _ S).
  cbn [accumulate]. unfold bind, all_false, gets, ret.
  rewrite (evaluate_filter_atomic _ _ (closing_atomic A HA)).
  destruct (parse_condition (A ++ L ")") df) as [[m|e|] d]; auto.
  now rewrite opening_unreadable.
Qed.
End Theory.

(* ================================================================== *)
(** * [apply_bool_filters] on a loaded frame *)

(** The sub-mask of one column at one cell: the cell is true and true
    cells are included, or the cell is blank and blank cells are
    included. *)
Definition sub_mask (inc_true inc_blank : bool) (c : cell) : bool :=
  (inc_true && eq_true_cell c)
  || (inc_blank && (isna_cell c || eq_empty_cell c)).

(** The conjunction of the sub-masks of all the columns of the toggles,
    at the row [i]. *)
Definition all_sub_masks (df : DataFrame) (filters : BoolFilters) (i : nat)
  : bool :=
  forallb (fun f => match cell_at df (fst f) i with
                    | Some c => sub_mask (fst (snd f)) (snd (snd f)) c
                    | None => false
                    end) filters.

Lemma smap_ext {A B} (f g : A -> B) (s : Series A) :
  (forall x, f x = g x) -> smap f s = smap g s.
Proof.
  intros H. unfold smap. apply map_ext. intros [l x]. simpl. now rewrite H.
Qed.

Lemma smap_const {A} (b : bool) (s : Series A) n :
  labels s = seq 0 n -> smap (fun _ => b) s = const_series b n.
Proof.
  unfold labels, const_series, smap. intros <-. rewrite map_map.
  reflexivity.
Qed.

Lemma lookup_in cs col v :
  lookup_col cs col = Some v -> In (col, v) cs.
Proof.
  induction cs as [|[n w] cs IH]; simpl; [discriminate|].
  destruct (str_eqb n col) eqn:E; auto.
  apply str_eqb_eq in E. intros [= ->]. subst. now left.
Qed.

Lemma loaded_column_length df col v :
  loaded df -> lookup_col (columns df) col = Some v -> length v = len df.
Proof.
  intros [_ Hok] Hv. unfold columns_ok in Hok.
  rewrite Forall_forall in Hok. apply (Hok _ (lookup_in _ _ _ Hv)).
Qed.

Lemma loaded_column_labels df col v :
  loaded df -> lookup_col (columns df) col = Some v ->
  labels (combine (index df) v) = seq 0 (len df).
Proof.
  intros Ld Hv. rewrite labels_combine.
  - apply Ld.
  - apply (loaded_column_length _ _ _ Ld Hv).
Qed.

(** On a loaded frame the mask of one column is its sub-mask, cell by
    cell. *)
Lemma column_mask_loaded df col v t b :
  loaded df -> lookup_col (columns df) col = Some v ->
  column_mask df col t b = Ok (smap (sub_mask t b) (combine (index df) v)).
Proof.
  intros Ld Hv.
  pose proof (loaded_column_labels _ _ _ Ld Hv) as Hl.
  unfold column_mask, obind. rewrite (column_lookup _ _ _ Hv).
  set (s := combine (index df) v) in *.
  destruct t, b; cbv iota; f_equal.
  - rewrite (series_or_seed _ (smap eq_true_cell s))
      by now rewrite labels_smap.
    unfold series_or. rewrite !logical_op_smap.
    apply smap_ext. intros c. unfold sub_mask. simpl.
    now rewrite orb_assoc.
  - rewrite (series_or_seed _ (smap eq_true_cell s))
      by now rewrite labels_smap.
    apply smap_ext. intros c. unfold sub_mask. simpl.
    now rewrite orb_false_r.
  - rewrite (series_or_seed _ (smap isna_cell s))
      by now rewrite labels_smap.
    unfold series_or. rewrite logical_op_smap.
    apply smap_ext. intros c. reflexivity.
  - symmetry. apply (smap_const false s (len df) Hl).
Qed.

Lemma mask_at_logical_op op a b i x y :
  labels a = labels b ->
  mask_at a i = Some x -> mask_at b i = Some y ->
  mask_at (logical_op op a b) i = Some (op x y).
Proof.
  intros H. rewrite logical_op_same by auto. unfold mask_at, labels in *.
  revert b i H.
  induction a as [|[l u] a IH]; intros [|[l' u'] b] i H; simpl in *;
    try discriminate.
  - destruct i; discriminate.
  - injection H as -> H. destruct i as [|i]; simpl.
    + now intros [= ->] [= ->].
    + now apply IH.
Qed.

Lemma all_sub_masks_cons df col t b filters i :
  all_sub_masks df ((col, (t, b)) :: filters) i =
  match cell_at df col i with
  | Some c => sub_mask t b c
  | None => false
  end && all_sub_masks df filters i.
Proof. reflexivity. Qed.

Lemma bool_filter_loop_loaded df filters :
  loaded df ->
  Forall (fun f => has_col df (fst f) = true) filters ->
  forall mask, labels mask = seq 0 (len df) ->
  exists m,
    bool_filter_loop df filters mask = Ok m /\
    labels m = seq 0 (len df) /\
    forall i x, i < len df -> mask_at mask i = Some x ->
      mask_at m i = Some (x && all_sub_masks df filters i).
Proof.
  intros Ld F. induction F as [|[col [t b]] filters Hc F IH]; intros mask Hm.
  - exists mask. repeat split; auto. intros i x _ ->.
    simpl. now rewrite andb_true_r.
  - simpl in Hc. destruct (has_col_lookup _ _ Hc) as [v Hv].
    cbn [bool_filter_loop].
    rewrite (column_mask_loaded df col v t b Ld Hv). cbn [obind].
    pose proof (loaded_column_labels _ _ _ Ld Hv) as Hl.
    pose proof (loaded_column_length _ _ _ Ld Hv) as Hlen.
    set (cm := smap (sub_mask t b) (combine (index df) v)) in *.
    assert (Hcm : labels cm = seq 0 (len df))
      by (unfold cm; now rewrite labels_smap).
    destruct (IH (series_and mask cm)) as (m & E & Hlm & Hat).
    { unfold series_and. rewrite labels_logical_op_same; congruence. }
    exists m. repeat split; auto. intros i x Hi Ex.
    destruct (nth_error v i) as [c|] eqn:Ec;
      [|apply nth_error_None in Ec; lia].
    assert (Hc' : mask_at cm i = Some (sub_mask t b c)).
    { unfold cm. now apply mask_at_smap. }
    rewrite (Hat i (x && sub_mask t b c) Hi).
    + rewrite all_sub_masks_cons. unfold cell_at. rewrite Hv, Ec.
      now rewrite andb_assoc.
    + unfold series_and. apply mask_at_logical_op; congruence.
Qed.

(** On a frame with the default index, and when every column of the
    toggles exists, [apply_bool_filters] returns the conjunction over the
    columns of their sub-masks, row by row. *)
Lemma apply_bool_filters_loaded df filters :
  loaded df ->
  Forall (fun f => has_col df (fst f) = true) filters ->
  exists m,
    apply_bool_filters df filters = Ok m /\
    labels m = seq 0 (len df) /\
    forall i, i < len df -> mask_at m i = Some (all_sub_masks df filters i).
Proof.
  intros Ld F. unfold apply_bool_filters.
  destruct (bool_filter_loop_loaded df filters Ld F
              (const_series true (len df)) (labels_const _ _))
    as (m & E & Hl & Hat).
  exists m. repeat split; auto. intros i Hi.
  rewrite (Hat i true Hi); auto.
  unfold mask_at, const_series.
  rewrite nth_error_map, nth_error_seq.
  destruct (Nat.ltb_spec i (len df)); [reflexivity|lia].
Qed.

(** A column with both toggles off excludes every row. *)
Lemma apply_bool_filters_both_off df filters col i :
  In (col, (false, false)) filters -> cell_at df col i <> None ->
  all_sub_masks df filters i = false.
Proof.
  intros Hin Hc. unfold all_sub_masks.
  destruct (forallb _ filters) eqn:E; auto.
  rewrite forallb_forall in E. specialize (E _ Hin). simpl in E.
  destruct (cell_at df col i); [discriminate|congruence].
Qed.

(* ================================================================== *)
(** * [|] and [&] label by label *)

Lemma nat_list_eqb_eq a b : nat_list_eqb a b = true -> a = b.
Proof.
  revert b. induction a as [|x a IH]; intros [|y b]; simpl;
    try discriminate; auto.
  intros [Hx H]%andb_true_iff. apply Nat.eqb_eq in Hx. f_equal; auto.
Qed.

Lemma in_merge_labels l : forall a b,
  In l (merge_labels a b) <-> In l a \/ In l b.
Proof.
  induction a as [|x a IHa]; intros b.
  - destruct b; simpl; tauto.
  - induction b as [|y b IHb].
    + simpl. tauto.
    + cbn [merge_labels].
      destruct (x <? y) eqn:E1; [|destruct (y <? x) eqn:E2].
      * cbn [In]. rewrite IHa. cbn [In]. tauto.
      * cbn [In]. cbn [merge_labels] in IHb. rewrite IHb. cbn [In]. tauto.
      * apply Nat.ltb_ge in E1, E2. assert (x = y) by lia. subst y.
        cbn [In]. rewrite IHa. tauto.
Qed.

Lemma label_lookup_none {A} l (s : Series A) :
  label_lookup l s = None <-> ~ In l (labels s).
Proof.
  induction s as [|[l' x] s IH]; simpl; [tauto|].
  destruct (Nat.eqb_spec l l').
  - subst. split; [discriminate|]. intros H. elim H. now left.
  - rewrite IH. split; [intros H [E|E]; [congruence|auto] | tauto].
Qed.

Lemma label_lookup_tabulate {A} (f : nat -> A) l M :
  label_lookup l (map (fun l => (l, f l)) M)
  = if existsb (Nat.eqb l) M then Some (f l) else None.
Proof.
  induction M as [|x M IH]; simpl; auto.
  destruct (Nat.eqb_spec l x); simpl; [now subst|auto].
Qed.

Lemma existsb_in l M : existsb (Nat.eqb l) M = true <-> In l M.
Proof.
  rewrite existsb_exists. split.
  - intros (x & Hx & E). apply Nat.eqb_eq in E. now subst.
  - intros H. exists l. split; auto. apply Nat.eqb_refl.
Qed.

(** The value of [a | b] and of [a & b] at one label: the operation on
    the two values; [False] for the operand that has no such label when
    it is the right one, and a result of [False] when it is the left
    one. *)
Lemma label_lookup_logical_op op a b l :
  label_lookup l (logical_op op a b) =
  match label_lookup l a, label_lookup l b with
  | Some x, Some y => Some (op x y)
  | Some x, None => Some (op x false)
  | None, Some _ => Some false
  | None, None => None
  end.
Proof.
  unfold logical_op.
  destruct (nat_list_eqb (labels a) (labels b)) eqn:E.
  - apply nat_list_eqb_eq in E. revert b E.
    induction a as [|[la x] a IH]; intros [|[lb y] b] E; simpl in *;
      try discriminate; auto.
    injection E as -> E. destruct (l =? lb); auto.
  - rewrite label_lookup_tabulate.
    destruct (label_lookup l a) as [x|] eqn:Ea;
      destruct (label_lookup l b) as [y|] eqn:Eb.
    + replace (existsb _ _) with true; auto. symmetry.
      apply existsb_in, in_merge_labels. left.
      destruct (in_dec Nat.eq_dec l (labels a)) as [H|H]; auto.
      apply label_lookup_none in H. congruence.
    + replace (existsb _ _) with true; auto. symmetry.
      apply existsb_in, in_merge_labels. left.
      destruct (in_dec Nat.eq_dec l (labels a)) as [H|H]; auto.
      apply label_lookup_none in H. congruence.
    + replace (existsb _ _) with true; auto. symmetry.
      apply existsb_in, in_merge_labels. right.
      destruct (in_dec Nat.eq_dec l (labels b)) as [H|H]; auto.
      apply label_lookup_none in H. congruence.
    + replace (existsb _ _) with false; auto. symmetry.
      apply not_true_is_false. intros H.
      apply existsb_in, in_merge_labels in H.
      apply label_lookup_none in Ea, Eb. tauto.
Qed.

Lemma label_lookup_const b n l :
  label_lookup l (const_series b n) = if l <? n then Some b else None.
Proof.
  unfold const_series. rewrite label_lookup_tabulate.
  destruct (Nat.ltb_spec l n) as [H|H].
  - replace (existsb _ _) with true; auto. symmetry.
    apply existsb_in, in_seq. lia.
  - replace (existsb _ _) with false; auto. symmetry.
    apply not_true_is_false. intros F. apply existsb_in, in_seq in F. lia.
Qed.

Lemma label_lookup_smap {A B} (f : A -> B) (s : Series A) l :
  label_lookup l (smap f s) = option_map f (label_lookup l s).
Proof.
  induction s as [|[l' x] s IH]; simpl; auto.
  destruct (l =? l'); auto.
Qed.

(** With distinct labels, the value at the label of a row is the value of
    that row. *)
Lemma label_lookup_combine {A} idx (v : list A) i l c :
  NoDup idx -> nth_error idx i = Some l -> nth_error v i = Some c ->
  label_lookup l (combine idx v) = Some c.
Proof.
  intros ND. revert v i.
  induction ND as [|x idx Hx ND IH]; intros [|y v] [|i]; simpl;
    try discriminate.
  - intros [= ->] [= ->]. now rewrite Nat.eqb_refl.
  - intros Hl Hc. destruct (Nat.eqb_spec l x) as [->|N].
    + elim Hx. eapply nth_error_In; eauto.
    + eapply IH; eauto.
Qed.

(* ================================================================== *)
(** * [apply_bool_filters] on any frame *)

(** The mask of one column at the label of a row, when the label is below
    the row count: the sub-mask of the cell. *)
Lemma column_mask_at df col v t b l c :
  lookup_col (columns df) col = Some v ->
  label_lookup l (combine (index df) v) = Some c -> l < len df ->
  exists cm,
    column_mask df col t b = Ok cm /\
    label_lookup l cm = Some (sub_mask t b c).
Proof.
  intros Hv Hc Hl.
  unfold column_mask, obind. rewrite (column_lookup _ _ _ Hv).
  set (s := combine (index df) v) in *.
  assert (H0 : label_lookup l (const_series false (len df)) = Some false).
  { rewrite label_lookup_const.
    destruct (Nat.ltb_spec l (len df)); [reflexivity|lia]. }
  destruct t, b; cbv iota; eexists; (split; [reflexivity|]);
    unfold series_or;
    rewrite ?label_lookup_logical_op, ?label_lookup_smap, ?Hc, ?H0;
    unfold sub_mask; simpl; auto.
  - now rewrite orb_assoc.
  - now rewrite orb_false_r.
Qed.

Lemma column_mask_ok df col v t b :
  lookup_col (columns df) col = Some v ->
  exists cm, column_mask df col t b = Ok cm.
Proof.
  intros Hv. unfold column_mask, obind. rewrite (column_lookup _ _ _ Hv).
  destruct t, b; eauto.
Qed.

Lemma series_and_not_true a b l :
  label_lookup l a <> Some true ->
  label_lookup l (series_and a b) <> Some true.
Proof.
  intros H. unfold series_and. rewrite label_lookup_logical_op.
  destruct (label_lookup l a) as [[|]|], (label_lookup l b) as [[|]|];
    simpl; congruence.
Qed.

Lemma bool_filter_loop_any df filters :
  NoDup (index df) -> columns_ok df ->
  Forall (fun f => has_col df (fst f) = true) filters ->
  forall mask,
  exists m,
    bool_filter_loop df filters mask = Ok m /\
    forall i l, nth_error (index df) i = Some l ->
      (l < len df -> forall x, label_lookup l mask = Some x ->
         label_lookup l m = Some (x && all_sub_masks df filters i)) /\
      (label_lookup l mask <> Some true -> label_lookup l m <> Some true).
Proof.
  intros ND Hok F.
  induction F as [|[col [t b]] filters Hc F IH]; intros mask.
  - exists mask. split; auto. intros i l Hl. split; auto.
    intros _ x ->. simpl. now rewrite andb_true_r.
  - simpl in Hc. destruct (has_col_lookup _ _ Hc) as [v Hv].
    assert (Hlen : length v = len df).
    { unfold columns_ok in Hok. rewrite Forall_forall in Hok.
      apply (Hok _ (lookup_in _ _ _ Hv)). }
    destruct (column_mask_ok df col v t b Hv) as [cm Ecm].
    cbn [bool_filter_loop]. rewrite Ecm. cbn [obind].
    destruct (IH (series_and mask cm)) as (m & E & Hm).
    exists m. split; auto. intros i l Hl.
    destruct (Hm i l Hl) as [Hlow Hhigh]. split.
    + intros Hk x Hx.
      destruct (nth_error v i) as [c|] eqn:Ec.
      2:{ apply nth_error_None in Ec.
          assert (i < length (index df))
            by (apply nth_error_Some; congruence).
          unfold len in Hlen. lia. }
      pose proof (label_lookup_combine _ _ _ _ _ ND Hl Ec) as Hcell.
      destruct (column_mask_at df col v t b l c Hv Hcell Hk)
        as (cm' & Ecm' & Hcm).
      assert (cm' = cm) by congruence. subst cm'.
      rewrite (Hlow Hk (x && sub_mask t b c)).
      * rewrite all_sub_masks_cons. unfold cell_at. rewrite Hv, Ec.
        now rewrite andb_assoc.
      * unfold series_and. now rewrite label_lookup_logical_op, Hx, Hcm.
    + intros Hx. apply Hhigh. now apply series_and_not_true.
Qed.

(** X17.  [apply_bool_filters] seeds its masks with the labels
    [0 .. len(df)-1], whatever the index of the frame.  On a frame with
    distinct labels and existing filter columns it returns a mask that,
    at the label of a row, is the conjunction of the sub-masks of the row
    when the label is below the row count, and is never true when the
    label is not: a row that kept a label at or above the row count (as
    rows do after an earlier filter dropped rows before them) is never
    selected, whatever its cells. *)
Theorem apply_bool_filters_by_label :
  forall (df : DataFrame) (filters : BoolFilters),
    NoDup (index df) -> columns_ok df ->
    Forall (fun f => has_col df (fst f) = true) filters ->
    exists m,
      apply_bool_filters df filters = Ok m /\
      forall i l, nth_error (index df) i = Some l ->
        (l < len df ->
           label_lookup l m = Some (all_sub_masks df filters i)) /\
        (len df <= l -> label_lookup l m <> Some true).
Proof.
  intros df filters ND Hok F. unfold apply_bool_filters.
  destruct (bool_filter_loop_any df filters ND Hok F
              (const_series true (len df))) as (m & E & Hm).
  exists m. split; auto. intros i l Hl.
  destruct (Hm i l Hl) as [Hlow Hhigh]. split.
  - intros Hk. rewrite (Hlow Hk true); auto.
    rewrite label_lookup_const.
    destruct (Nat.ltb_spec l (len df)); [reflexivity|lia].
  - intros Hk. apply Hhigh. rewrite label_lookup_const.
    destruct (Nat.ltb_spec l (len df)); [lia|discriminate].
Qed.

(** The toggles that make [apply_bool_filters] read a column that the
    frame does not have. *)
Definition reads_missing (df : DataFrame) (f : str * (bool * bool)) : bool :=
  negb (has_col df (fst f)) && (fst (snd f) || snd (snd f)).

Lemma column_missing df col :
  has_col df col = false -> column df col = Raise KeyError.
Proof.
  unfold column, getitem. intros H.
  destruct (lookup_col (columns df) col) as [v|] eqn:E; auto.
  apply lookup_has_col in E. congruence.
Qed.

Lemma bool_filter_loop_key_error df filters : forall mask,
  if existsb (reads_missing df) filters
  then bool_filter_loop df filters mask = Raise KeyError
  else exists m, bool_filter_loop df filters mask = Ok m.
Proof.
  induction filters as [|[col [t b]] filters IH]; intros mask; simpl.
  - eauto.
  - unfold reads_missing at 1. cbn [fst snd].
    destruct (has_col df col) eqn:Hc; cbn [negb andb orb].
    + destruct (has_col_lookup _ _ Hc) as [v Hv].
      destruct (column_mask_ok df col v t b Hv) as [cm ->]. cbn [obind].
      apply IH.
    + unfold column_mask, obind. rewrite (column_missing _ _ Hc).
      destruct t, b; cbn [orb]; auto. apply IH.
Qed.

(** X18.  [apply_bool_filters] raises [KeyError] exactly when a column
    of the toggles that has a box checked is missing from the frame;
    otherwise it returns a mask.  A column with both boxes unchecked is
    never read, so it may be missing. *)
Theorem apply_bool_filters_key_error :
  forall (df : DataFrame) (filters : BoolFilters),
    if existsb (reads_missing df) filters
    then apply_bool_filters df filters = Raise KeyError
    else exists m, apply_bool_filters df filters = Ok m.
Proof.
  intros df filters. unfold apply_bool_filters.
  apply bool_filter_loop_key_error.
Qed.

(* ================================================================== *)
(** * The boolean-like columns (source lines 22 to 27) *)

(** [x == b] for a cell value [x] and a Python boolean [b]: [True] equals
    the number 1 and [False] the number 0, and no text equals either. *)
Definition py_eq (c : cell) (b : bool) : bool :=
  match c with
  | Bool b' => Bool.eqb b' b
  | Num q => Qeq_bool q (bool_q b)
  | Text _ => false
  | Missing => false
  end.

(** [x in {...}] and [set(values).issubset({...})] for a set of Python
    booleans. *)
Definition in_set (members : list bool) (c : cell) : bool :=
  existsb (py_eq c) members.

Definition issubset (values : list cell) (members : list bool) : bool :=
  forallb (in_set members) values.

(** [s.dropna()], as the list of its values. *)
Definition dropna (v : list cell) : list cell :=
  filter (fun c => negb (isna_cell c)) v.

(** Equality of two cell values as a hash table of values sees it. *)
Definition cell_eqb (a b : cell) : bool :=
  match a, b with
  | Text s, Text t => str_eqb s t
  | Missing, Missing => true
  | Num p, Num q => Qeq_bool p q
  | Num p, Bool y => Qeq_bool p (bool_q y)
  | Bool x, Num q => Qeq_bool (bool_q x) q
  | Bool x, Bool y => Bool.eqb x y
  | _, _ => false
  end.

(** [s.unique()]: the values in order of first appearance. *)
Fixpoint unique (v : list cell) : list cell :=
  match v with
  | [] => []
  | c :: v' => c :: filter (fun d => negb (cell_eqb c d)) (unique v')
  end.

(** The test of the loop on one column. *)
Definition bool_like (v : list cell) : bool :=
  let unique_vals := unique (dropna v) in
  issubset unique_vals [true; false] || issubset unique_vals [true].

Definition all_cols (df : DataFrame) : list str := map fst (columns df).

(** [bool_cols], as the loop appends to it. *)
Definition detect_bool_cols (df : DataFrame) : list str :=
  filter (fun c => match lookup_col (columns df) c with
                   | Some v => bool_like v
                   | None => false
                   end) (all_cols df).

(** A cell that a boolean-like column may hold: a missing value, a
    boolean, or the number 0 or 1. *)
Definition true_or_false (c : cell) : bool :=
  match c with
  | Bool _ => true
  | Num q => Qeq_bool q 0 || Qeq_bool q 1
  | Text _ => false
  | Missing => true
  end.

Lemma Qeq_bool_trans_l p q r :
  Qeq_bool p q = true -> Qeq_bool p r = Qeq_bool q r.
Proof.
  intros H. apply Qeq_bool_iff in H.
  destruct (Qeq_bool p r) eqn:E1, (Qeq_bool q r) eqn:E2; auto.
  - apply Qeq_bool_iff in E1. apply Qeq_bool_neq in E2. elim E2.
    now rewrite <- H.
  - apply Qeq_bool_iff in E2. apply Qeq_bool_neq in E1. elim E1.
    now rewrite H.
Qed.

Lemma Qeq_bool_sym_eq p q : Qeq_bool p q = Qeq_bool q p.
Proof.
  destruct (Qeq_bool p q) eqn:E1, (Qeq_bool q p) eqn:E2; auto.
  - apply Qeq_bool_iff in E1. apply Qeq_bool_neq in E2. elim E2.
    now symmetry.
  - apply Qeq_bool_iff in E2. apply Qeq_bool_neq in E1. elim E1.
    now symmetry.
Qed.

(** Equal values are equal to the same booleans. *)
Lemma py_eq_respects a b x : cell_eqb a b = true -> py_eq a x = py_eq b x.
Proof.
  destruct a as [p|s|u|], b as [q|t|w|]; simpl; try discriminate; auto.
  - apply Qeq_bool_trans_l.
  - intros H. rewrite (Qeq_bool_trans_l _ _ _ H).
    now destruct w, x.
  - intros H. rewrite Qeq_bool_sym_eq in H.
    rewrite (Qeq_bool_trans_l _ _ _ H). now destruct u, x.
  - intros H. apply Bool.eqb_prop in H. now subst.
Qed.

Lemma in_set_respects members a b :
  cell_eqb a b = true -> in_set members a = in_set members b.
Proof.
  intros H. unfold in_set.
  induction members as [|x members IH]; simpl; auto.
  now rewrite (py_eq_respects a b x H), IH.
Qed.

Lemma forallb_filter_equal (p : cell -> bool) c l :
  p c = true -> (forall d, cell_eqb c d = true -> p d = p c) ->
  forallb p (filter (fun d => negb (cell_eqb c d)) l) = forallb p l.
Proof.
  intros Hc R. induction l as [|d l IH]; simpl; auto.
  destruct (cell_eqb c d) eqn:E; simpl.
  - now rewrite (R d E), Hc.
  - now rewrite IH.
Qed.

(** [unique] does not change what the values are. *)
Lemma forallb_unique (p : cell -> bool) v :
  (forall a b, cell_eqb a b = true -> p a = p b) ->
  forallb p (unique v) = forallb p v.
Proof.
  intros R. induction v as [|c v IH]; simpl; auto.
  destruct (p c) eqn:Hc; simpl; auto.
  rewrite forallb_filter_equal; auto.
  intros d E. rewrite <- (R c d E). auto.
Qed.

Lemma issubset_true_false v :
  issubset (dropna v) [true; false] = forallb true_or_false v.
Proof.
  unfold issubset, dropna.
  induction v as [|c v IH]; simpl; auto.
  destruct c as [q|s|b|]; simpl; rewrite ?IH; auto.
  - rewrite orb_false_r, (orb_comm (Qeq_bool q 1)). reflexivity.
  - now destruct b.
Qed.

Lemma issubset_weaken u :
  issubset u [true] = true -> issubset u [true; false] = true.
Proof.
  unfold issubset. rewrite !forallb_forall. intros H c Hc.
  specialize (H c Hc). unfold in_set in *. simpl in *.
  rewrite orb_false_r in H. now rewrite H.
Qed.

Lemma bool_like_first_test v :
  bool_like v = issubset (unique (dropna v)) [true; false].
Proof.
  unfold bool_like. cbv zeta.
  destruct (issubset (unique (dropna v)) [true]) eqn:E1.
  - now rewrite (issubset_weaken _ E1).
  - now rewrite orb_false_r.
Qed.

Lemma bool_like_forallb v : bool_like v = forallb true_or_false v.
Proof.
  rewrite bool_like_first_test. unfold issubset at 1.
  rewrite forallb_unique by apply in_set_respects.
  apply issubset_true_false.
Qed.

(** X19.  A column is taken as boolean-like exactly when each of its
    cells is missing, a boolean, or the number 0 or 1: Python's [True]
    and [False] are equal to 1 and 0, so a numeric column of zeros and
    ones is boolean-like, as is a column without any value; a column
    with a text is not.  The second test of the source, against
    [{True}], never adds a column. *)
Theorem bool_like_cells :
  forall (v : list cell),
    bool_like v = forallb true_or_false v /\
    bool_like v = issubset (unique (dropna v)) [true; false].
Proof.
  intros v. split.
  - apply bool_like_forallb.
  - apply bool_like_first_test.
Qed.

(* ================================================================== *)
(** * Rows selected by a mask *)

(** The frame of the rows of [df] whose label satisfies [p], in order. *)
Definition rows_where (p : nat -> bool) (df : DataFrame) : DataFrame :=
  mkDF (filter p (index df))
       (map (fun nc =>
               (fst nc,
                map snd (filter (fun lx => p (fst lx))
                                (combine (index df) (snd nc)))))
            (columns df)).

Lemma keep_rows_filter {A} (p : nat -> bool) mask idx : forall (v : list A),
  (forall l, In l idx -> label_lookup l mask = Some (p l)) ->
  keep_rows idx mask v
  = map snd (filter (fun lx => p (fst lx)) (combine idx v)).
Proof.
  induction idx as [|l idx IH]; intros v H; [reflexivity|].
  destruct v as [|x v]; [reflexivity|].
  cbn [keep_rows combine filter fst]. rewrite (H l) by now left.
  rewrite IH by (intros l' Hl'; apply H; now right).
  now destruct (p l).
Qed.

Lemma filter_combine_same (p : nat -> bool) idx :
  map snd (filter (fun lx => p (fst lx)) (combine idx idx)) = filter p idx.
Proof.
  induction idx as [|l idx IH]; simpl; auto.
  destruct (p l); simpl; now rewrite IH.
Qed.

(** [df[mask]] when the mask has a value at every label of the frame. *)
Lemma getitem_mask_where p df mask :
  (forall l, In l (index df) -> label_lookup l mask = Some (p l)) ->
  getitem_mask df mask = Ok (rows_where p df).
Proof.
  intros H. unfold getitem_mask.
  replace (forallb _ (index df)) with true.
  - unfold rows_where. f_equal. f_equal.
    + now rewrite (keep_rows_filter p), filter_combine_same.
    + apply map_ext. intros [n v]. simpl.
      now rewrite (keep_rows_filter p).
  - symmetry. apply forallb_forall. intros l Hl. now rewrite (H l Hl).
Qed.

Lemma rows_where_ext p q df :
  (forall l, In l (index df) -> p l = q l) ->
  rows_where p df = rows_where q df.
Proof.
  intros H. unfold rows_where. f_equal.
  - now apply filter_ext_in.
  - apply map_ext. intros [n v]. simpl. f_equal. f_equal.
    apply filter_ext_in. intros [l x] Hl. simpl.
    apply H. eapply in_combine_l; eauto.
Qed.

Lemma filter_true {A} (l : list A) : filter (fun _ => true) l = l.
Proof. induction l; simpl; congruence. Qed.

Lemma map_snd_combine {A} (idx : list nat) (v : list A) :
  length v = length idx -> map snd (combine idx v) = v.
Proof.
  revert v. induction idx as [|l idx IH]; intros [|x v]; simpl;
    try discriminate; auto.
  intros [= H]. now rewrite IH.
Qed.

Lemma rows_where_all df :
  columns_ok df -> rows_where (fun _ => true) df = df.
Proof.
  intros Hok. destruct df as [idx cols]. unfold rows_where. simpl.
  rewrite filter_true. f_equal.
  unfold columns_ok, len in Hok. simpl in Hok.
  induction Hok as [|[n v] cols Hv F IH]; simpl; auto.
  rewrite filter_true, map_snd_combine by auto. now rewrite IH.
Qed.

(* ================================================================== *)
(** * The "Reset Filters" handler and the default toggles *)

(** A dictionary of toggles by insertion order: an assignment to a key
    that exists keeps the place of the key. *)
Fixpoint dict_set (d : BoolFilters) (k : str) (v : bool * bool)
  : BoolFilters :=
  match d with
  | [] => [(k, v)]
  | (k', v') :: d' =>
      if str_eqb k' k then (k', v) :: d' else (k', v') :: dict_set d' k v
  end.

(** [{col: (True, True) for col in bool_cols}] *)
Definition default_bool_filters (cols : list str) : BoolFilters :=
  fold_left (fun d col => dict_set d col (true, true)) cols [].

Definition set_session_filter_input (text : str) : SM World unit :=
  modify (fun w =>
    mkWorld (heap w) (next_loc w) (df_loc w) (session_filtered_df w) text
            (bool_cols w) (bool_filters w)).

Definition set_session_bool_filters (filters : BoolFilters)
  : SM World unit :=
  modify (fun w =>
    mkWorld (heap w) (next_loc w) (df_loc w) (session_filtered_df w)
            (filter_input w) (bool_cols w) filters).

(** The handler of "Reset Filters" (source lines 152 to 155). *)
Definition reset : SM World unit :=
  the_df <- gets df_loc ;;
  fresh <- copy the_df ;;
  set_session_filtered_df fresh ;;;
  set_session_filter_input [] ;;;
  cols <- gets bool_cols ;;
  set_session_bool_filters (default_bool_filters cols).

Lemma dict_set_new d k v :
  ~ In k (map fst d) -> dict_set d k v = d ++ [(k, v)].
Proof.
  induction d as [|[k' v'] d IH]; simpl; auto.
  intros H. destruct (str_eqb k' k) eqn:E.
  - apply str_eqb_eq in E. elim H. now left.
  - rewrite IH; auto.
Qed.

Lemma default_bool_filters_nodup cols :
  NoDup cols ->
  default_bool_filters cols = map (fun c => (c, (true, true))) cols.
Proof.
  unfold default_bool_filters.
  assert (G : forall cols d,
            NoDup (map fst d ++ cols) ->
            fold_left (fun d col => dict_set d col (true, true)) cols d
            = d ++ map (fun c => (c, (true, true))) cols).
  { clear. induction cols as [|c cols IH]; intros d ND; simpl.
    - now rewrite app_nil_r.
    - rewrite dict_set_new.
      + rewrite IH.
        * now rewrite <- app_assoc.
        * rewrite map_app. simpl. now rewrite <- app_assoc.
      + apply NoDup_remove_2 in ND. intros H. apply ND.
        apply in_or_app. now left. }
  intros ND. now apply (G cols []).
Qed.

(* ================================================================== *)
(** * "Apply Filters" with the toggles alone *)

Ltac world_fields :=
  cbn [heap next_loc df_loc session_filtered_df filter_input bool_cols
       bool_filters fst snd].

(** [df[mask]], when it returns, is the frame of the rows whose label the
    mask holds true at. *)
Lemma getitem_mask_rows df mask d :
  getitem_mask df mask = Ok d ->
  d = rows_where (fun l => match label_lookup l mask with
                           | Some b => b
                           | None => false
                           end) df.
Proof.
  intros E.
  assert (H : forall l, In l (index df) ->
            label_lookup l mask
            = Some (match label_lookup l mask with
                    | Some b => b
                    | None => false
                    end)).
  { unfold getitem_mask in E.
    destruct (forallb _ (index df)) eqn:F; [|discriminate].
    rewrite forallb_forall in F. intros l Hl. specialize (F l Hl).
    destruct (label_lookup l mask); [reflexivity|discriminate]. }
  rewrite (getitem_mask_where _ _ _ H) in E. now injection E.
Qed.

Lemma combine_filter_rows {A} (p : nat -> bool) idx : forall (v : list A),
  combine (filter p idx)
          (map snd (filter (fun lx => p (fst lx)) (combine idx v)))
  = filter (fun lx => p (fst lx)) (combine idx v).
Proof.
  induction idx as [|l idx IH]; intros [|x v]; simpl; auto.
  - destruct (p l); [reflexivity | now destruct (filter p idx)].
  - destruct (p l); simpl; now rewrite IH.
Qed.

Lemma filter_filter {A} (p q : A -> bool) l :
  filter q (filter p l) = filter (fun x => p x && q x) l.
Proof.
  induction l as [|x l IH]; simpl; auto.
  destruct (p x); simpl; [destruct (q x)|]; now rewrite IH.
Qed.

(** Selecting rows twice is selecting once, by both tests. *)
Lemma rows_where_twice p q df :
  rows_where q (rows_where p df) = rows_where (fun l => p l && q l) df.
Proof.
  unfold rows_where. cbn [index columns]. f_equal.
  - apply filter_filter.
  - rewrite map_map. apply map_ext. intros [n v]. cbn [fst snd].
    now rewrite combine_filter_rows, filter_filter.
Qed.

Section Buttons.

Variable to_numeric_str : str -> option Q.
Variable str_of_num : Q -> str.
Variable str_of_missing : option str.

Local Abbreviation apply := (apply to_numeric_str str_of_num str_of_missing).

(** The run of the handler when the filter text is blank and there are
    boolean-like columns: the toggles filter a copy of the upload. *)
Lemma apply_blank_run w m d :
  strip (filter_input w) = [] -> nonempty (bool_cols w) = true ->
  apply_bool_filters (heap w (df_loc w)) (bool_filters w) = Ok m ->
  getitem_mask (heap w (df_loc w)) m = Ok d ->
  exists w',
    apply w = (Ok tt, w') /\
    heap w' (session_filtered_df w') = d /\
    (forall l, l < next_loc w -> heap w' l = heap w l) /\
    df_loc w' = df_loc w /\ bool_cols w' = bool_cols w /\
    bool_filters w' = bool_filters w /\ filter_input w' = filter_input w.
Proof.
  intros Ht Hc Hm Hd. eexists. split.
  - unfold apply, copy, alloc, bind, gets, ret, call_on, select,
      set_session_filtered_df, modify.
    world_fields. rewrite Ht. cbn [nonempty]. cbv beta iota.
    world_fields. rewrite Hc. cbv beta iota.
    world_fields. rewrite !store_same, Hm.
    unfold alloc. world_fields. rewrite Hd.
    reflexivity.
  - world_fields. rewrite store_same. repeat split; auto.
    intros l Hl. rewrite !store_other by lia. reflexivity.
Qed.

Lemma apply_blank_no_cols w :
  strip (filter_input w) = [] -> bool_cols w = [] ->
  exists w',
    apply w = (Ok tt, w') /\
    heap w' (session_filtered_df w') = heap w (df_loc w) /\
    (forall l, l < next_loc w -> heap w' l = heap w l) /\
    df_loc w' = df_loc w.
Proof.
  intros Ht Hc. eexists. split.
  - unfold apply, copy, alloc, bind, gets, ret, set_session_filtered_df,
      modify.
    world_fields. rewrite Ht, Hc. reflexivity.
  - world_fields. rewrite store_same. repeat split; auto.
    intros l Hl. now rewrite store_other by lia.
Qed.

(** On a frame with the default index the mask of the toggles has, at
    every label, the conjunction of the sub-masks of that row. *)
Lemma apply_bool_filters_where df filters :
  loaded df ->
  Forall (fun f => has_col df (fst f) = true) filters ->
  exists m,
    apply_bool_filters df filters = Ok m /\
    forall l, In l (index df) ->
      label_lookup l m = Some (all_sub_masks df filters l).
Proof.
  intros [Hi Hok] F. unfold apply_bool_filters.
  assert (ND : NoDup (index df)) by (rewrite Hi; apply seq_NoDup).
  destruct (bool_filter_loop_any df filters ND Hok F
              (const_series true (len df))) as (m & E & Hm).
  exists m. split; auto. intros l Hl.
  assert (Hlt : l < len df) by (rewrite Hi in Hl; apply in_seq in Hl; lia).
  assert (Hn : nth_error (index df) l = Some l).
  { rewrite Hi, nth_error_seq.
    destruct (Nat.ltb_spec l (len df)); [reflexivity|lia]. }
  destruct (Hm l l Hn) as [Hlow _].
  rewrite (Hlow Hlt true); auto.
  rewrite label_lookup_const.
  destruct (Nat.ltb_spec l (len df)); [reflexivity|lia].
Qed.

(** X20.  With a blank filter text, "Apply Filters" on an upload with
    the default index filters by the toggles alone: the frame that the
    session then holds is made of the rows of the upload, in their order
    and with their labels and cells, at which every column of the toggles
    passes its sub-mask [(includeTrue and cell == True) or (includeBlank
    and (cell is missing or cell == "")].  *)
Theorem apply_toggles_alone :
  forall (w : World),
    loaded (heap w (df_loc w)) ->
    strip (filter_input w) = [] -> bool_cols w <> [] ->
    Forall (fun f => has_col (heap w (df_loc w)) (fst f) = true)
           (bool_filters w) ->
    exists w',
      apply w = (Ok tt, w') /\
      heap w' (session_filtered_df w')
      = rows_where (all_sub_masks (heap w (df_loc w)) (bool_filters w))
                   (heap w (df_loc w)).
Proof.
  intros w Ld Ht Hc F.
  destruct (apply_bool_filters_where _ _ Ld F) as (m & Em & Hm).
  destruct (apply_blank_run w m
              (rows_where (all_sub_masks (heap w (df_loc w))
                                         (bool_filters w))
                          (heap w (df_loc w))) Ht)
    as (w' & E & Hs & _); eauto.
  - destruct (bool_cols w); [congruence|reflexivity].
  - now apply getitem_mask_where.
Qed.

(** ** "Reset Filters", then "Apply Filters" *)

(** A cell that holds [False], or the number 0 that equals it. *)
Definition holds_false (c : cell) : bool :=
  match c with
  | Bool b => negb b
  | Num q => Qeq_bool q 0
  | _ => false
  end.

(** No column of [cols] holds [False] at the row [i]. *)
Definition no_false (df : DataFrame) (cols : list str) (i : nat) : bool :=
  forallb (fun col => match cell_at df col i with
                      | Some c => negb (holds_false c)
                      | None => false
                      end) cols.

Lemma sub_mask_default c :
  true_or_false c = true -> sub_mask true true c = negb (holds_false c).
Proof.
  destruct c as [q|s|b|]; simpl; try discriminate; auto.
  - intros H. unfold sub_mask. simpl. rewrite !orb_false_r.
    destruct (Qeq_bool q 0) eqn:E0; simpl in *; auto.
    apply Qeq_bool_iff in E0.
    destruct (Qeq_bool q 1) eqn:E1; auto.
    apply Qeq_bool_iff in E1. rewrite E0 in E1. discriminate.
  - intros _. unfold sub_mask. simpl. now rewrite orb_false_r, negb_involutive.
Qed.

Lemma forallb_ext_in {A} (f g : A -> bool) l :
  (forall x, In x l -> f x = g x) -> forallb f l = forallb g l.
Proof.
  induction l as [|x l IH]; simpl; intros H; auto.
  rewrite (H x) by now left. rewrite IH; auto.
Qed.

Lemma forallb_over_map {A B} (f : B -> bool) (g : A -> B) l :
  forallb f (map g l) = forallb (fun x => f (g x)) l.
Proof. induction l as [|x l IH]; simpl; congruence. Qed.

Lemma detect_bool_cols_in df col :
  In col (detect_bool_cols df) ->
  exists v, lookup_col (columns df) col = Some v /\ bool_like v = true.
Proof.
  unfold detect_bool_cols. intros [_ H]%filter_In.
  destruct (lookup_col (columns df) col) as [v|]; [eauto|discriminate].
Qed.

(** With the default toggles, a row passes exactly when no boolean-like
    column holds [False] at it. *)
Lemma default_toggles_no_false df l :
  loaded df -> l < len df ->
  all_sub_masks df
    (map (fun c => (c, (true, true))) (detect_bool_cols df)) l
  = no_false df (detect_bool_cols df) l.
Proof.
  intros Ld Hl. unfold all_sub_masks, no_false. rewrite forallb_over_map.
  apply forallb_ext_in. intros col Hc. cbn [fst snd].
  destruct (detect_bool_cols_in _ _ Hc) as (v & Hv & Hb).
  unfold cell_at. rewrite Hv.
  destruct (nth_error v l) as [c|] eqn:Ec; auto.
  apply sub_mask_default.
  rewrite bool_like_forallb, forallb_forall in Hb.
  apply Hb. eapply nth_error_In; eauto.
Qed.

Lemma reset_run w :
  reset w
  = (Ok tt,
     mkWorld (store (heap w) (next_loc w) (heap w (df_loc w)))
             (S (next_loc w)) (df_loc w) (next_loc w) []
             (bool_cols w) (default_bool_filters (bool_cols w))).
Proof. reflexivity. Qed.

Lemma apply_defaults_run w :
  loaded (heap w (df_loc w)) ->
  NoDup (all_cols (heap w (df_loc w))) ->
  bool_cols w = detect_bool_cols (heap w (df_loc w)) ->
  strip (filter_input w) = [] ->
  bool_filters w = default_bool_filters (bool_cols w) ->
  exists w',
    apply w = (Ok tt, w') /\
    heap w' (session_filtered_df w')
    = rows_where (no_false (heap w (df_loc w)) (bool_cols w))
                 (heap w (df_loc w)) /\
    (forall l, l < next_loc w -> heap w' l = heap w l) /\
    df_loc w' = df_loc w.
Proof.
  intros Ld ND Hcols Ht Hf.
  set (df := heap w (df_loc w)) in *.
  assert (NDc : NoDup (bool_cols w)).
  { rewrite Hcols. now apply NoDup_filter. }
  assert (F : Forall (fun f => has_col df (fst f) = true) (bool_filters w)).
  { rewrite Hf, default_bool_filters_nodup by auto.
    apply Forall_map, Forall_forall. intros col Hc. cbn [fst].
    rewrite Hcols in Hc.
    destruct (detect_bool_cols_in _ _ Hc) as (v & Hv & _).
    eapply lookup_has_col; eauto. }
  assert (Hw : forall l, l < len df ->
             all_sub_masks df (bool_filters w) l
             = no_false df (bool_cols w) l).
  { intros l Hl. rewrite Hf, default_bool_filters_nodup by auto.
    rewrite Hcols. now apply default_toggles_no_false. }
  destruct (bool_cols w) as [|c cols] eqn:Ec.
  - destruct (apply_blank_no_cols w Ht Ec) as (w' & E & Hs & Hk & Hd).
    exists w'. split; [exact E|]. fold df in Hs. rewrite Hs.
    repeat split; auto.
    rewrite (rows_where_ext _ (fun _ => true)) by reflexivity.
    symmetry. apply rows_where_all, Ld.
  - destruct (apply_bool_filters_where _ _ Ld F) as (m & Em & Hm).
    destruct (apply_blank_run w m
                (rows_where (all_sub_masks df (bool_filters w)) df) Ht)
      as (w' & E & Hs & Hk & Hd & _).
    + now rewrite Ec.
    + exact Em.
    + now apply getitem_mask_where.
    + exists w'. split; [exact E|]. rewrite Hs. repeat split; auto.
      apply rows_where_ext. intros l Hl. apply Hw.
      destruct Ld as [Hi _]. rewrite Hi in Hl. apply in_seq in Hl. lia.
Qed.

(** X21.  In the state a session starts in (empty filter text, both
    boxes checked for every boolean-like column found in the upload),
    "Apply Filters" does not keep every row: the default toggles select
    the cells that are true or blank, so the session then holds the rows
    of the upload at which no boolean-like column holds [False] (or the
    number 0 that equals it), in their order. *)
Theorem apply_default_toggles :
  forall (w : World),
    loaded (heap w (df_loc w)) ->
    NoDup (all_cols (heap w (df_loc w))) ->
    bool_cols w = detect_bool_cols (heap w (df_loc w)) ->
    strip (filter_input w) = [] ->
    bool_filters w = default_bool_filters (bool_cols w) ->
    exists w',
      apply w = (Ok tt, w') /\
      heap w' (session_filtered_df w')
      = rows_where (no_false (heap w (df_loc w)) (bool_cols w))
                   (heap w (df_loc w)).
Proof.
  intros w Ld ND Hcols Ht Hf.
  destruct (apply_defaults_run w Ld ND Hcols Ht Hf) as (w' & E & Hs & _).
  eauto.
Qed.

(** X22.  The body of "Reset Filters" stores a fresh copy of the upload
    in the session, an empty filter text and the default toggles, and
    leaves the upload as it is.  The body of "Apply Filters" run on the
    state it leaves keeps the rows of the upload at which no boolean-like
    column holds [False] or 0: it gives every row back only when the
    upload has no such cell. *)
Theorem reset_then_apply :
  forall (w : World),
    df_loc w < next_loc w ->
    loaded (heap w (df_loc w)) ->
    NoDup (all_cols (heap w (df_loc w))) ->
    bool_cols w = detect_bool_cols (heap w (df_loc w)) ->
    exists w1 w2,
      reset w = (Ok tt, w1) /\
      heap w1 (session_filtered_df w1) = heap w (df_loc w) /\
      session_filtered_df w1 <> df_loc w1 /\
      apply w1 = (Ok tt, w2) /\
      heap w2 (session_filtered_df w2)
      = rows_where (no_false (heap w (df_loc w)) (bool_cols w))
                   (heap w (df_loc w)) /\
      heap w2 (df_loc w2) = heap w (df_loc w).
Proof.
  intros w Hlt Ld ND Hcols.
  set (df := heap w (df_loc w)) in *.
  rewrite reset_run. fold df.
  set (w1 := mkWorld (store (heap w) (next_loc w) df) (S (next_loc w))
                     (df_loc w) (next_loc w) [] (bool_cols w)
                     (default_bool_filters (bool_cols w))).
  assert (Hup : heap w1 (df_loc w1) = df).
  { unfold w1. world_fields. now rewrite store_other by lia. }
  destruct (apply_defaults_run w1) as (w2 & E & Hs & Hk & Hd);
    try (rewrite Hup); auto.
  exists w1, w2. split; [reflexivity|].
  split; [unfold w1; world_fields; now rewrite store_same|].
  split; [unfold w1; world_fields; lia|].
  split; [exact E|]. rewrite Hup in Hs. split; [exact Hs|].
  rewrite Hd, (Hk (df_loc w1)), Hup by (unfold w1; world_fields; lia).
  reflexivity.
Qed.

(** ** What "Apply Filters" can give *)

Lemma apply_result w w' :
  columns_ok (heap w (df_loc w)) ->
  apply w = (Ok tt, w') ->
  exists p d,
    frame_kept to_numeric_str (heap w (df_loc w)) d /\
    heap w' (session_filtered_df w') = rows_where p d.
Proof.
  intros Hok.
  unfold apply, copy, alloc, bind, gets, ret, call_on, select,
    set_session_filtered_df, modify.
  world_fields.
  destruct (nonempty (strip (filter_input w))); cbv beta; world_fields;
    rewrite ?store_same.
  - destruct (evaluate_filter to_numeric_str str_of_num str_of_missing
                (filter_input w)
                (heap w (df_loc w))) as [[m|e|] d] eqn:Ev;
      world_fields; try discriminate.
    rewrite ?store_same.
    destruct (getitem_mask d m) as [d1|e|] eqn:G1; unfold alloc;
      world_fields; try discriminate.
    destruct (run_spec to_numeric_str str_of_num str_of_missing _ _ _ _ _
                (frame_kept_refl to_numeric_str _) Ev) as [K _].
    apply getitem_mask_rows in G1.
    destruct (nonempty (bool_cols w)); cbv beta; world_fields;
      rewrite ?store_same.
    + destruct (apply_bool_filters d1 (bool_filters w)) as [bm|e|];
        world_fields; try discriminate.
      destruct (getitem_mask d1 bm) as [d2|e|] eqn:G2; unfold alloc;
        world_fields; try discriminate.
      intros [= <-]. world_fields. rewrite store_same.
      apply getitem_mask_rows in G2. subst d1.
      rewrite rows_where_twice in G2. eauto.
    + intros [= <-]. world_fields. rewrite store_same. eauto.
  - destruct (nonempty (bool_cols w)); cbv beta; world_fields;
      rewrite ?store_same.
    + destruct (apply_bool_filters (heap w (df_loc w)) (bool_filters w))
        as [bm|e|]; world_fields; try discriminate.
      destruct (getitem_mask (heap w (df_loc w)) bm) as [d2|e|] eqn:G2;
        unfold alloc; world_fields; try discriminate.
      intros [= <-]. world_fields. rewrite store_same.
      apply getitem_mask_rows in G2.
      eauto using frame_kept_refl.
    + intros [= <-]. world_fields. rewrite store_same.
      exists (fun _ => true), (heap w (df_loc w)).
      split; [apply frame_kept_refl|].
      symmetry. now apply rows_where_all.
Qed.

Lemma frame_kept_names df0 d :
  frame_kept to_numeric_str df0 d ->
  map fst (columns d) = map fst (columns df0).
Proof.
  intros [_ F]. induction F as [|nc0 nc cs0 cs [Hn _] F IH]; simpl; auto.
  now rewrite Hn, IH.
Qed.

Lemma rows_where_names p d :
  map fst (columns (rows_where p d)) = map fst (columns d).
Proof.
  unfold rows_where. cbn [columns]. rewrite map_map. reflexivity.
Qed.

(** X23.  On an upload as [pd.read_csv] returns it that has a row, and
    with toggles for the boolean-like columns when there are such
    columns, whatever the filter text and the toggles: when "Apply
    Filters" completes, the frame that the session holds is a selection
    of rows of the upload: the rows, in the order of the upload, whose
    label passes one test, taken from the upload with some of its columns
    possibly coerced to numbers.  So its index is the upload's index
    filtered, and its columns are the upload's, by name and in order: the
    handler adds, repeats or reorders no row and no column.  (The last
    two conditions keep every mask that reaches [df[mask]] boolean: a
    seed [pd.Series([..]*0)] of a frame without rows has the dtype
    [object], and [df[...]] reads it as an empty list of columns.) *)
Theorem apply_selects_rows :
  forall (w w' : World),
    loaded (heap w (df_loc w)) ->
    0 < len (heap w (df_loc w)) ->
    (bool_cols w <> [] -> bool_filters w <> []) ->
    apply w = (Ok tt, w') ->
    exists p d,
      frame_kept to_numeric_str (heap w (df_loc w)) d /\
      heap w' (session_filtered_df w') = rows_where p d /\
      index (heap w' (session_filtered_df w'))
      = filter p (index (heap w (df_loc w))) /\
      map fst (columns (heap w' (session_filtered_df w')))
      = map fst (columns (heap w (df_loc w))).
Proof.
  intros w w' [_ Hok] _ _ E.
  destruct (apply_result w w' Hok E) as (p & d & K & Hs).
  exists p, d. rewrite Hs. split; [exact K|]. split; [reflexivity|]. split.
  - unfold rows_where. cbn [index]. now destruct K as [-> _].
  - rewrite rows_where_names. now apply frame_kept_names.
Qed.

End Buttons.

(* ------------------------------------------------------------------ *)
(** ** Operands in parentheses *)

Lemma series_and_right_not_true a b l :
  label_lookup l b <> Some true ->
  label_lookup l (series_and a b) <> Some true.
Proof.
  intros H. unfold series_and. rewrite label_lookup_logical_op.
  destruct (label_lookup l a) as [[|]|], (label_lookup l b) as [[|]|];
    simpl; congruence.
Qed.

Lemma const_false_not_true n l :
  label_lookup l (const_series false n) <> Some true.
Proof.
  rewrite label_lookup_const. destruct (l <? n); discriminate.
Qed.

Section Operands.

Variable to_numeric_str : str -> option Q.
Variable str_of_num : Q -> str.
Variable str_of_missing : option str.

Local Abbreviation parse_condition :=
  (parse_condition to_numeric_str str_of_num str_of_missing).
Local Abbreviation evaluate_filter :=
  (evaluate_filter to_numeric_str str_of_num str_of_missing).

(** X24.  Parentheses are removed around the whole text only.  When
    both operands of an [AND] or an [OR] are in parentheses, as in
    [(A) AND (B)], the outer pair is taken off the text and leaves
    [A) AND (B]: the first operand is read with a closing parenthesis
    after it, and the second, which opens with a parenthesis, is read by
    no shape and gives the all-false mask.  So [(A) AND (B)] selects no
    row, and [(A) OR (B)] selects what [A)] selects, whatever [B] is. *)
Theorem operands_in_parentheses :
  forall (df : DataFrame) (k A B : str),
    atomic A = true -> atomic B = true -> endswith (L ")") B = false ->
    (named (L "AND") k = true ->
       evaluate_filter (wrapped_pair k A B) df
       = (mask <- all_true ;;
          mA <- parse_condition (A ++ L ")") ;;
          mB <- all_false ;;
          ret (series_and (series_and mask mA) mB)) df /\
       forall m df',
         evaluate_filter (wrapped_pair k A B) df = (Ok m, df') ->
         forall l, label_lookup l m <> Some true) /\
    (named (L "OR") k = true ->
       evaluate_filter (wrapped_pair k A B) df
       = (mask <- all_false ;;
          mA <- parse_condition (A ++ L ")") ;;
          mB <- all_false ;;
          ret (series_or (series_or mask mA) mB)) df).
Proof.
  intros df k A B HA HB E. split; intros Hk.
  - pose proof (wrapped_pair_and to_numeric_str str_of_num str_of_missing
                  k A B df
                  Hk HA HB E) as R.
    split; [exact R|].
    intros m df' Hm l. rewrite R in Hm.
    unfold bind, all_true, all_false, gets, ret in Hm.
    destruct (parse_condition (A ++ L ")") df) as [[mA|e|] d];
      try discriminate.
    injection Hm as <- _.
    apply series_and_right_not_true, const_false_not_true.
  - now apply wrapped_pair_or.
Qed.

End Operands.
(* ================================================================== *)
(** * Concrete runs *)

(** A conversion of texts to numbers that reads plain numbers only, and a
    rendering of numbers as a fraction: stand-ins for the two library
    functions in the runs below. *)
Definition plain_to_numeric : str -> option Q := py_float.

Definition fraction_str (q : Q) : str :=
  L (DecimalString.NilEmpty.string_of_int (Z.to_int (Qnum q)))
  ++ L "/"
  ++ L (DecimalString.NilEmpty.string_of_uint (Pos.to_uint (Qden q))).

(** A missing value keeps no string form (pandas 3). *)
Definition no_text : option str := None.

Definition num (z : Z) : cell := Num (inject_Z z).

(** The herd of the examples of the specification, with a breed and a
    boolean-like column. *)
Definition herd : DataFrame :=
  mkDF [0; 1; 2]
       [(L "DIM", [num 40; num 80; num 50]);
        (L "FCM", [num 35; num 35; num 20]);
        (L "EART", [num 20017; num 20018; num 20022]);
        (L "breed", [Text (L "Holstein"); Text (L "Jersey"); Missing]);
        (L "note", [Text (L "n/a"); Text (L "12"); Missing]);
        (L "fresh", [Bool true; Missing; Bool true])].

Example herd_loaded : loaded herd.
Proof. split; [reflexivity | repeat constructor]. Qed.

(** Numbers are compared as doubles.  A literal that ends in a dot has
    the value of its digits; two decimals with the same nearest double
    are the same number; the integer after [2^53] is [2^53] as a double;
    and a literal above the largest double is [inf]. *)
Example float_values :
  py_float (L "40.") = Some (inject_Z 40) /\
  py_float (L "0.30000000000000001") = py_float (L "0.3") /\
  py_float (L "0.1") = Some (3602879701896397 # 36028797018963968)%Q /\
  float64 (inject_Z 9007199254740993) = inject_Z 9007199254740992 /\
  float64 (inject_Z (10 ^ 400)) = inject_Z (2 ^ 1024).
Proof. vm_compute. repeat split; reflexivity. Qed.

(** An [int64] column with the integer after [2^53]: it is not above
    [2^53] for the comparison, and it is in the list [2^53]. *)
Definition big : DataFrame :=
  mkDF [0] [(L "x", [num 9007199254740993])].

Example double_comparisons :
  fst (parse_condition plain_to_numeric fraction_str no_text
         (L "x > 9007199254740992") big)
  = Ok [(0, false)] /\
  fst (parse_condition plain_to_numeric fraction_str no_text
         (L "x >= 9007199254740992") big)
  = Ok [(0, true)] /\
  fst (parse_condition plain_to_numeric fraction_str no_text
         (L "x = 9007199254740992") big)
  = Ok [(0, true)] /\
  fst (parse_condition plain_to_numeric fraction_str no_text
         (L "x != 9007199254740992") big)
  = Ok [(0, false)].
Proof. vm_compute. repeat split; reflexivity. Qed.

(** The two examples of the specification. *)
Example spec_example_range_and :
  fst (evaluate_filter plain_to_numeric fraction_str no_text
         (L "30 <= DIM <= 70 AND FCM > 30") herd)
  = Ok [(0, true); (1, false); (2, false)].
Proof. vm_compute. reflexivity. Qed.

Example spec_example_exclusion :
  fst (evaluate_filter plain_to_numeric fraction_str no_text
         (L "EART != 20017, 20022") herd)
  = Ok [(0, false); (1, true); (2, false)].
Proof. vm_compute. reflexivity. Qed.

(** The third example of the help text of the application. *)
Example help_example_parentheses :
  fst (evaluate_filter plain_to_numeric fraction_str no_text
         (L "(30 <= DIM <= 70 AND FCM > 30) OR DIM = 80") herd)
  = Ok [(0, true); (1, true); (2, false)].
Proof. vm_compute. reflexivity. Qed.

(* ------------------------------------------------------------------ *)
(** ** C1: the grouping of [A AND B OR C] *)

(** The mask that the claim states for [A AND B OR C]: the masks of the
    three conditions, combined as [mA & (mB | mC)]. *)
Definition and_of_or (tn : str -> option Q) (sn : Q -> str)
           (sm : option str) (A B C : str) : M (Series bool) :=
  mA <- evaluate_filter tn sn sm A ;;
  mB <- evaluate_filter tn sn sm B ;;
  mC <- evaluate_filter tn sn sm C ;;
  ret (series_and mA (series_or mB mC)).

(** C1, refuted as stated.  On the herd, with [A] and [B] false and [C]
    true at the third cow, [A AND B OR C] selects that cow, and
    [A AND (B OR C)] does not. *)
Lemma and_or_grouping_counterexample :
  atomic (L "DIM > 60") = true /\ atomic (L "FCM > 30") = true /\
  atomic (L "FCM < 25") = true /\
  fst (evaluate_filter plain_to_numeric fraction_str no_text
         (precedence_text (L "DIM > 60") (L "FCM > 30") (L "FCM < 25")) herd)
  = Ok [(0, false); (1, true); (2, true)] /\
  fst (and_of_or plain_to_numeric fraction_str no_text
         (L "DIM > 60") (L "FCM > 30") (L "FCM < 25") herd)
  = Ok [(0, false); (1, true); (2, false)].
Proof. vm_compute. repeat split; reflexivity. Qed.

Lemma and_or_grouping_witness :
  loaded herd /\ atomic (L "DIM > 60") = true /\
  atomic (L "FCM > 30") = true /\ atomic (L "FCM < 25") = true /\
  evaluate_filter plain_to_numeric fraction_str no_text
    (precedence_text (L "DIM > 60") (L "FCM > 30") (L "FCM < 25")) herd
  = (mA <- evaluate_filter plain_to_numeric fraction_str no_text
       (L "DIM > 60") ;;
     mB <- evaluate_filter plain_to_numeric fraction_str no_text
         (L "FCM > 30") ;;
     mC <- evaluate_filter plain_to_numeric fraction_str no_text
         (L "FCM < 25") ;;
     ret (series_or (series_and mA mB) mC)) herd.
Proof.
  split; [split; [reflexivity | repeat constructor]|].
  split; [reflexivity|]. split; [reflexivity|]. split; [reflexivity|].
  apply (and_or_grouping plain_to_numeric fraction_str no_text herd
           (L "DIM > 60") (L "FCM > 30") (L "FCM < 25")).
  - split; [reflexivity | repeat constructor].
  - reflexivity.
  - reflexivity.
  - reflexivity.
Defined.

(* ------------------------------------------------------------------ *)
(** ** C2: the two list conditions *)

(** C2, refuted as stated.  The first note is a text that is no number:
    its row is false in the mask of [note = 1,2,3], but true, not false,
    in the mask of [note != 1,2,3]. *)
Lemma list_masks_counterexample :
  cell_at herd (L "note") 0 = Some (Text (L "n/a")) /\
  cell_num plain_to_numeric (Text (L "n/a")) = None /\
  fst (parse_condition plain_to_numeric fraction_str no_text
         (L "note = 1,2,3") herd)
  = Ok [(0, false); (1, false); (2, false)] /\
  fst (parse_condition plain_to_numeric fraction_str no_text
         (L "note != 1,2,3") herd)
  = Ok [(0, true); (1, true); (2, true)].
Proof. vm_compute. repeat split; reflexivity. Qed.

(** The texts [EART = 20017, 20022] and [EART != 20017, 20022]. *)
Lemma list_masks_complementary_witness :
  word (L "EART") = true /\ numbers [L "20017"; L "20022"] /\
  forallb is_space (L " ") = true /\ blanks [] = true /\
  blanks (L " ") = true /\
  has_col herd (L "EART") = true /\
  exists inc exc,
    parse_condition plain_to_numeric fraction_str no_text
      (comparison_text (L "EART") (L " ") (L "=") (L " ")
         (list_text [] (L " ") [L "20017"; L "20022"]))
      herd = (Ok inc, herd) /\
    parse_condition plain_to_numeric fraction_str no_text
      (comparison_text (L "EART") (L " ") (L "!=") (L " ")
         (list_text [] (L " ") [L "20017"; L "20022"]))
      herd = (Ok exc, herd) /\
    exc = series_not inc /\
    forall i c,
      cell_at herd (L "EART") i = Some c -> i < len herd ->
      cell_num plain_to_numeric c = None ->
      mask_at inc i = Some false /\ mask_at exc i = Some true.
Proof.
  split; [reflexivity|].
  split; [split; [discriminate | repeat constructor]|].
  split; [reflexivity|]. split; [reflexivity|]. split; [reflexivity|].
  split; [reflexivity|].
  apply (list_masks_complementary plain_to_numeric fraction_str no_text herd
           (L "EART") (L " ") (L " ") [] (L " ") [L "20017"; L "20022"]).
  - reflexivity.
  - split; [discriminate | repeat constructor].
  - reflexivity.
  - reflexivity.
  - reflexivity.
  - reflexivity.
  - reflexivity.
Defined.

(* ------------------------------------------------------------------ *)
(** ** C3: a comparison on a cell that is no number *)

(** C3, refuted as stated.  The first note is a text that is no number,
    and the mask of [note != 30] is true, not false, at its row. *)
Lemma comparison_counterexample :
  In (L "!=") operators /\ plain_number (L "30") = true /\
  cell_at herd (L "note") 0 = Some (Text (L "n/a")) /\
  cell_num plain_to_numeric (Text (L "n/a")) = None /\
  fst (parse_condition plain_to_numeric fraction_str no_text
         (comparison_text (L "note") (L " ") (L "!=") (L " ") (L "30"))
         herd)
  = Ok [(0, true); (1, true); (2, true)].
Proof.
  split; [unfold operators; simpl; auto 10|].
  vm_compute. repeat split; reflexivity.
Qed.

(** The text [note >=30]: a blank before the operator, none after. *)
Lemma comparison_on_uncoercible_cell_witness :
  word (L "note") = true /\ plain_number (L "30") = true /\
  In (L ">=") operators /\
  forallb is_space (L " ") = true /\ forallb is_space [] = true /\
  cell_at herd (L "note") 0 = Some (Text (L "n/a")) /\ 0 < len herd /\
  cell_num plain_to_numeric (Text (L "n/a")) = None /\
  exists m df',
    parse_condition plain_to_numeric fraction_str no_text
      (comparison_text (L "note") (L " ") (L ">=") [] (L "30")) herd
    = (Ok m, df') /\
    mask_at m 0 = Some (str_eqb (L ">=") (L "!=")).
Proof.
  split; [reflexivity|]. split; [reflexivity|].
  split; [unfold operators; simpl; auto|].
  split; [reflexivity|]. split; [reflexivity|].
  split; [reflexivity|]. split; [unfold len; simpl; lia|].
  split; [reflexivity|].
  apply (comparison_on_uncoercible_cell plain_to_numeric fraction_str no_text
           herd
           (L "note") (L " ") (L ">=") [] (L "30") 0 (Text (L "n/a"))).
  - reflexivity.
  - reflexivity.
  - unfold operators. simpl. auto.
  - reflexivity.
  - reflexivity.
  - reflexivity.
  - unfold len. simpl. lia.
  - reflexivity.
Defined.

(* ------------------------------------------------------------------ *)
(** ** C4 and C6 *)

(** C4.  The condition [breed = Holstein] has the shape of the claim: a
    column that exists, an equals sign and a text that is no list of
    numbers.  The pattern of the categorical equality (source line 105)
    reads it with the text [Holstein], and the string form of the first
    cow's breed is that text, so the mask of the claim is true at its row.
    The code returns no mask: the inclusion-list pattern of line 73 is
    tried first and matches, with the blank after the equals sign as its
    list, and [float] of that blank raises [ValueError].  Typed without
    the blank after the sign, the same condition gives the mask of the
    claim. *)
Theorem categorical_equality_with_blank_raises :
  has_col herd (L "breed") = true /\
  equality_text (L "breed") (L " ") (L " ") (L "Holstein")
  = L "breed = Holstein" /\
  re_match pat_equal (L "breed = Holstein")
  = Some [L "breed"; L "Holstein"] /\
  float_list (split_char "," (L "Holstein")) = None /\
  cell_at herd (L "breed") 0 = Some (Text (L "Holstein")) /\
  str_eq_cell fraction_str no_text
      (L "Holstein") (Text (L "Holstein")) = true /\
  re_match pat_include (L "breed = Holstein") = Some [L "breed"; L " "] /\
  parse_condition plain_to_numeric fraction_str no_text
      (L "breed = Holstein") herd
  = (Raise ValueError, herd) /\
  parse_condition plain_to_numeric fraction_str no_text
      (L "breed =Holstein") herd
  = (Ok [(0, true); (1, false); (2, false)], herd).
Proof. vm_compute. repeat split; reflexivity. Qed.

(** A missing breed has the string form that the library gives it: none
    from pandas 3 on, the text [nan] before. *)
Example categorical_equality_missing :
  fst (parse_condition plain_to_numeric fraction_str no_text
         (L "breed=nan") herd)
  = Ok [(0, false); (1, false); (2, false)] /\
  fst (parse_condition plain_to_numeric fraction_str (Some (L "nan"))
         (L "breed=nan") herd)
  = Ok [(0, false); (1, false); (2, true)].
Proof. vm_compute. split; reflexivity. Qed.

(** The text [40. <= DIM <=80], with a bound that ends in a dot: the
    first cow has 40 days in milk. *)
Lemma range_bounds_inclusive_witness :
  plain_number (L "40.") = true /\ plain_number (L "80") = true /\
  word (L "DIM") = true /\
  forallb is_space (L " ") = true /\ forallb is_space [] = true /\
  (number_of (L "40.") <= number_of (L "80"))%Q /\
  cell_at herd (L "DIM") 0 = Some (num 40) /\ 0 < len herd /\
  cell_num plain_to_numeric (num 40) = Some (inject_Z 40) /\
  (float64 (inject_Z 40) == number_of (L "40."))%Q /\
  exists m df',
    parse_condition plain_to_numeric fraction_str no_text
      (range_text (L "40.") (L " ") (L " ") (L "DIM") (L " ") [] (L "80"))
      herd = (Ok m, df') /\
    mask_at m 0 = Some true.
Proof.
  split; [reflexivity|]. split; [reflexivity|]. split; [reflexivity|].
  split; [reflexivity|]. split; [reflexivity|].
  split; [vm_compute; discriminate|].
  split; [reflexivity|]. split; [unfold len; simpl; lia|].
  split; [reflexivity|]. split; [vm_compute; reflexivity|].
  apply (range_bounds_inclusive plain_to_numeric fraction_str no_text herd
           (L "40.") (L " ") (L " ") (L "DIM") (L " ") [] (L "80")
           0 (num 40) (inject_Z 40)).
  - reflexivity.
  - reflexivity.
  - reflexivity.
  - reflexivity.
  - reflexivity.
  - reflexivity.
  - reflexivity.
  - vm_compute. discriminate.
  - reflexivity.
  - unfold len. simpl. lia.
  - reflexivity.
  - left. vm_compute. reflexivity.
Defined.

(* ------------------------------------------------------------------ *)
(** ** C8 and C9: the handler *)

(** A session on the herd with a whitespace-only filter text and no
    boolean-like column. *)
Definition blank_session : World :=
  mkWorld (fun _ => herd) 1 0 0 (L "  ") [] [].

(** A session on the herd with a filter and the toggles of the [fresh]
    column. *)
Definition herd_session : World :=
  mkWorld (fun _ => herd) 1 0 0 (L "note > 5 AND DIM > 45")
          [L "fresh"] [(L "fresh", (true, true))].

Lemma apply_blank_is_identity_witness :
  strip (filter_input blank_session) = [] /\ bool_cols blank_session = [] /\
  exists w',
    apply plain_to_numeric fraction_str no_text blank_session = (Ok tt, w') /\
    heap w' (session_filtered_df w') = heap blank_session (df_loc blank_session).
Proof.
  split; [reflexivity|]. split; [reflexivity|].
  apply (apply_blank_is_identity plain_to_numeric fraction_str no_text
           blank_session).
  - reflexivity.
  - reflexivity.
Defined.

Lemma apply_keeps_upload_witness :
  df_loc herd_session < next_loc herd_session /\
  conditions (filter_input herd_session) = [L "note > 5"; L "DIM > 45"] /\
  ~ coerced_by (filter_input herd_session) (L "breed") /\
  heap (snd (apply plain_to_numeric fraction_str no_text herd_session))
       (df_loc (snd (apply plain_to_numeric fraction_str no_text
                       herd_session)))
  = herd /\
  frame_kept_on plain_to_numeric (coerced_by (filter_input herd_session))
    herd
    (heap (snd (apply plain_to_numeric fraction_str no_text herd_session))
          1) /\
  lookup_col
    (columns (heap (snd (apply plain_to_numeric fraction_str no_text
                           herd_session)) 1))
    (L "breed")
  = lookup_col (columns herd) (L "breed").
Proof.
  assert (N : ~ coerced_by (filter_input herd_session) (L "breed")).
  { intros (cond & Hin & _ & _ & R). vm_compute in Hin.
    destruct Hin as [<-|[<-|[]]];
      destruct R as [(m & Hm & Hc)|(_ & m & Hm & Hc)];
      vm_compute in Hm; try discriminate;
      injection Hm as <-; vm_compute in Hc; discriminate. }
  split; [unfold herd_session; simpl; lia|].
  split; [vm_compute; reflexivity|]. split; [exact N|].
  destruct (apply_keeps_upload plain_to_numeric fraction_str no_text
              herd_session
              (fst (apply plain_to_numeric fraction_str no_text
                      herd_session))
              (snd (apply plain_to_numeric fraction_str no_text
                      herd_session)))
    as (H1 & _ & H3 & H4 & _).
  - unfold herd_session. simpl. lia.
  - apply surjective_pairing.
  - split; [exact H1|]. split; [exact H3|]. exact (H4 _ N).
Defined.

(** The working copy of that run: the [note] column is coerced, and the
    upload still holds the texts. *)
Example herd_session_run :
  fst (apply plain_to_numeric fraction_str no_text herd_session) = Ok tt /\
  cell_at (heap (snd (apply plain_to_numeric fraction_str no_text
                        herd_session)) 1)
          (L "note") 0 = Some Missing /\
  cell_at (heap (snd (apply plain_to_numeric fraction_str no_text
                        herd_session)) 0)
          (L "note") 0 = Some (Text (L "n/a")).
Proof. vm_compute. repeat split; reflexivity. Qed.

(* ------------------------------------------------------------------ *)
(** ** C5, C7 and C10: where the code departs from the claims *)

(** C5.  The herd has no column [nocol], yet a single comparison and a
    range that name it do not yield the all-false mask: both raise
    [ValueError], because [float] is applied to the captured number before
    the column is looked up.  (The three other shapes look the column up
    first.) *)
Theorem unknown_column_malformed_number_raises :
  has_col herd (L "nocol") = false /\
  parse_condition plain_to_numeric fraction_str no_text (L "nocol > 1.2.3") herd
  = (Raise ValueError, herd) /\
  parse_condition plain_to_numeric fraction_str no_text
      (L "1.2.3 <= nocol <= 5") herd
  = (Raise ValueError, herd) /\
  parse_condition plain_to_numeric fraction_str no_text
      (L "nocol != 1.2.3") herd
  = (Ok [(0, false); (1, false); (2, false)], herd).
Proof. vm_compute. repeat split; reflexivity. Qed.

Definition two_cows : DataFrame :=
  mkDF [0; 1] [(L "x", [num 1; num 2]); (L "flag", [Bool true; Bool true])].

(** The second cow alone, as [two_cows[mask]] returns it: its row keeps
    the label 1. *)
Definition second_cow : DataFrame :=
  mkDF [1] [(L "x", [num 2]); (L "flag", [Bool true])].

Definition two_cows_session : World :=
  mkWorld (fun _ => two_cows) 1 0 0 (L "x = 2")
          [L "flag"] [(L "flag", (true, true))].

(** C7.  The frame that [apply_bool_filters] receives after the filter
    [x = 2] is the second cow, with the label 1.  Its flag is true and both
    toggles are on, so the sub-mask of the claim is true at its row; the
    code returns a mask over the labels 0 and 1 that is false at both,
    because the seeds [pd.Series([..]*len(df))] carry the labels [0 ..
    len(df)-1] and not the labels of the frame.  The handler then selects
    no row at all. *)
Theorem bool_filter_misaligned_on_filtered_frame :
  parse_condition plain_to_numeric fraction_str no_text (L "x = 2") two_cows
  = (Ok [(0, false); (1, true)], two_cows) /\
  getitem_mask two_cows [(0, false); (1, true)] = Ok second_cow /\
  sub_mask true true (Bool true) = true /\
  apply_bool_filters second_cow [(L "flag", (true, true))]
  = Ok [(0, false); (1, false)] /\
  fst (apply plain_to_numeric fraction_str no_text two_cows_session) = Ok tt /\
  len (heap (snd (apply plain_to_numeric fraction_str no_text two_cows_session))
            (session_filtered_df
               (snd (apply plain_to_numeric fraction_str no_text
                       two_cows_session))))
  = 0.
Proof. vm_compute. repeat split; reflexivity. Qed.

(** C10.  [parse_condition] does not return a mask for every text: on the
    categorical equality [breed = Holstein], written with a space after the
    equals sign as in the help text of the application, the inclusion-list
    pattern matches with the space as its list and [float] raises
    [ValueError]; the same for a list with an empty item.
    [evaluate_filter] raises with it.  And [apply_bool_filters] returns,
    on the one-row frame that the filter [x = 2] leaves, a mask of two
    entries. *)
Theorem mask_length_departures :
  has_col herd (L "breed") = true /\
  re_match pat_include (L "breed = Holstein") = Some [L "breed"; L " "] /\
  parse_condition plain_to_numeric fraction_str no_text
      (L "breed = Holstein") herd
  = (Raise ValueError, herd) /\
  parse_condition plain_to_numeric fraction_str no_text
      (L "EART != 20017,") herd
  = (Raise ValueError, herd) /\
  evaluate_filter plain_to_numeric fraction_str no_text
    (L "DIM > 45 AND breed = Holstein") herd
  = (Raise ValueError, herd) /\
  len second_cow = 1 /\
  option_map (@length (nat * bool))
    (match apply_bool_filters second_cow [(L "flag", (true, true))] with
     | Ok m => Some m
     | _ => None
     end) = Some 2.
Proof. vm_compute. repeat split; reflexivity. Qed.

(* ================================================================== *)
(** * Instances of the further properties *)

(** A pen with a boolean column and a column of zeros and ones. *)
Definition pen : DataFrame :=
  mkDF [0; 1; 2]
       [(L "id", [num 1; num 2; num 3]);
        (L "dry", [Bool true; Bool false; Missing]);
        (L "twin", [num 0; num 1; num 1])].

(** A frame with a column whose name contains [OR]. *)
Definition imports : DataFrame :=
  mkDF [0; 1] [(L "ORIGIN", [num 1; num 2])].

(** The text [note > 5] at the second cow, whose note reads as 12. *)
Lemma ordering_comparison_mask_witness :
  word (L "note") = true /\ plain_number (L "5") = true /\
  In (L ">", Qgt_bool) orderings /\ forallb is_space (L " ") = true /\
  cell_at herd (L "note") 1 = Some (Text (L "12")) /\ 1 < len herd /\
  exists m df',
    parse_condition plain_to_numeric fraction_str no_text
      (comparison_text (L "note") (L " ") (L ">") (L " ") (L "5")) herd
    = (Ok m, df') /\
    mask_at m 1 = Some (match cell_num plain_to_numeric (Text (L "12")) with
                        | Some v => Qgt_bool (float64 v) (number_of (L "5"))
                        | None => false
                        end).
Proof.
  split; [reflexivity|]. split; [reflexivity|].
  split; [unfold orderings; simpl; auto|].
  split; [reflexivity|]. split; [reflexivity|].
  split; [unfold len; simpl; lia|].
  apply (ordering_comparison_mask plain_to_numeric fraction_str no_text herd
           (L "note") (L " ") (L ">") (L " ") (L "5") Qgt_bool 1
           (Text (L "12"))).
  - reflexivity.
  - reflexivity.
  - unfold orderings; simpl; auto.
  - reflexivity.
  - reflexivity.
  - reflexivity.
  - unfold len; simpl; lia.
Defined.

(** The text [30 <= DIM <= 70] at the first cow. *)
Lemma range_mask_witness :
  plain_number (L "30") = true /\ plain_number (L "70") = true /\
  word (L "DIM") = true /\ forallb is_space (L " ") = true /\
  cell_at herd (L "DIM") 0 = Some (num 40) /\ 0 < len herd /\
  exists m df',
    parse_condition plain_to_numeric fraction_str no_text
      (range_text (L "30") (L " ") (L " ") (L "DIM") (L " ") (L " ")
                  (L "70")) herd
    = (Ok m, df') /\
    mask_at m 0 = Some (match cell_num plain_to_numeric (num 40) with
                        | Some v => Qle_bool (number_of (L "30")) (float64 v)
                                    && Qle_bool (float64 v)
                                                (number_of (L "70"))
                        | None => false
                        end).
Proof.
  split; [reflexivity|]. split; [reflexivity|]. split; [reflexivity|].
  split; [reflexivity|]. split; [reflexivity|].
  split; [unfold len; simpl; lia|].
  apply (range_mask plain_to_numeric fraction_str no_text herd
           (L "30") (L " ") (L " ") (L "DIM") (L " ") (L " ") (L "70")
           0 (num 40)).
  - reflexivity.
  - reflexivity.
  - reflexivity.
  - reflexivity.
  - reflexivity.
  - reflexivity.
  - reflexivity.
  - reflexivity.
  - unfold len; simpl; lia.
Defined.

(** The texts [note = 12, 13] and [note != 12, 13] at the second cow,
    whose note is the text [12]. *)
Lemma list_membership_mask_witness :
  word (L "note") = true /\ numbers [L "12"; L "13"] /\
  forallb is_space (L " ") = true /\ blanks [] = true /\
  blanks (L " ") = true /\
  cell_at herd (L "note") 1 = Some (Text (L "12")) /\ 1 < len herd /\
  exists inc exc,
    parse_condition plain_to_numeric fraction_str no_text
      (comparison_text (L "note") (L " ") (L "=") (L " ")
         (list_text [] (L " ") [L "12"; L "13"])) herd
    = (Ok inc, herd) /\
    parse_condition plain_to_numeric fraction_str no_text
      (comparison_text (L "note") (L " ") (L "!=") (L " ")
         (list_text [] (L " ") [L "12"; L "13"])) herd
    = (Ok exc, herd) /\
    mask_at inc 1
    = Some (isin_cell (numeric_column herd (L "note"))
                      (map number_of [L "12"; L "13"]) (Text (L "12"))) /\
    mask_at exc 1
    = Some (negb (isin_cell (numeric_column herd (L "note"))
                            (map number_of [L "12"; L "13"])
                            (Text (L "12")))) /\
    (forall s, Text (L "12") = Text s ->
               mask_at inc 1 = Some false /\ mask_at exc 1 = Some true).
Proof.
  split; [reflexivity|].
  split; [split; [discriminate | repeat constructor]|].
  split; [reflexivity|]. split; [reflexivity|]. split; [reflexivity|].
  split; [reflexivity|]. split; [unfold len; simpl; lia|].
  apply (list_membership_mask plain_to_numeric fraction_str no_text herd
           (L "note") (L " ") (L " ") [] (L " ") [L "12"; L "13"] 1
           (Text (L "12"))).
  - reflexivity.
  - split; [discriminate | repeat constructor].
  - reflexivity.
  - reflexivity.
  - reflexivity.
  - reflexivity.
  - reflexivity.
  - unfold len; simpl; lia.
Defined.

(** After [note > 5] the note of the second cow is the number 12. *)
Lemma comparison_coerces_column_witness :
  word (L "note") = true /\ plain_number (L "5") = true /\
  In (L ">", Qgt_bool) orderings /\ forallb is_space (L " ") = true /\
  cell_at herd (L "note") 1 = Some (Text (L "12")) /\ 1 < len herd /\
  exists m df',
    parse_condition plain_to_numeric fraction_str no_text
      (comparison_text (L "note") (L " ") (L ">") (L " ") (L "5")) herd
    = (Ok m, df') /\
    index df' = index herd /\
    cell_at df' (L "note") 1
    = Some (match plain_to_numeric (L "12") with
            | Some q => Num q
            | None => Missing
            end) /\
    forall col', col' <> L "note" ->
      lookup_col (columns df') col' = lookup_col (columns herd) col'.
Proof.
  split; [reflexivity|]. split; [reflexivity|].
  split; [unfold orderings; simpl; auto|].
  split; [reflexivity|]. split; [reflexivity|].
  split; [unfold len; simpl; lia|].
  apply (comparison_coerces_column plain_to_numeric fraction_str no_text herd
           (L "note") (L " ") (L ">") (L " ") (L "5") Qgt_bool 1 (L "12")).
  - reflexivity.
  - reflexivity.
  - unfold orderings; simpl; auto.
  - reflexivity.
  - reflexivity.
  - reflexivity.
  - unfold len; simpl; lia.
Defined.

(** The text [(DIM > 45], left by a split inside parentheses. *)
Lemma unreadable_condition_selects_nothing_witness :
  stops is_word (strip (L "(DIM > 45")) /\
  stops is_numchar (strip (L "(DIM > 45")) /\
  parse_condition plain_to_numeric fraction_str no_text (L "(DIM > 45") herd
  = (Ok (const_series false (len herd)), herd).
Proof.
  split; [reflexivity|]. split; [reflexivity|].
  apply (unreadable_condition_selects_nothing plain_to_numeric
           fraction_str no_text
           (L "(DIM > 45") herd).
  - reflexivity.
  - reflexivity.
Defined.

(** The text [DIM 45], typed without its operator. *)
Lemma condition_without_operator_selects_nothing_witness :
  operator_free (L "DIM 45") = true /\
  parse_condition plain_to_numeric fraction_str no_text (L "DIM 45") herd
  = (Ok (const_series false (len herd)), herd).
Proof.
  split; [reflexivity|].
  apply (condition_without_operator_selects_nothing plain_to_numeric
           fraction_str no_text (L "DIM 45") herd).
  reflexivity.
Defined.

(** The text [DIM > 1.2.3] on the herd, which has the column. *)
Lemma malformed_number_raises_witness :
  word (L "DIM") = true /\ In (L ">", Qgt_bool) orderings /\
  forallb is_space (L " ") = true /\
  forallb is_numchar (L "1.2.3") = true /\ L "1.2.3" <> [] /\
  py_float (L "1.2.3") = None /\
  parse_condition plain_to_numeric fraction_str no_text
    (comparison_text (L "DIM") (L " ") (L ">") (L " ") (L "1.2.3")) herd
  = (Raise ValueError, herd).
Proof.
  split; [reflexivity|]. split; [unfold orderings; simpl; auto|].
  split; [reflexivity|]. split; [reflexivity|]. split; [discriminate|].
  split; [reflexivity|].
  apply (malformed_number_raises plain_to_numeric fraction_str no_text herd
           (L "DIM") (L " ") (L ">") (L " ") (L "1.2.3") Qgt_bool).
  - reflexivity.
  - unfold orderings; simpl; auto.
  - reflexivity.
  - reflexivity.
  - reflexivity.
  - discriminate.
  - reflexivity.
Defined.

(** The text [breed =Holstein] at the first cow. *)
Lemma text_equality_mask_witness :
  word (L "breed") = true /\ forallb is_space (L " ") = true /\
  L "Holstein" <> [] /\ trimmed (L "Holstein") = true /\
  forallb is_dot (L "Holstein") = true /\
  stops is_listchar (L "Holstein") /\
  cell_at herd (L "breed") 0 = Some (Text (L "Holstein")) /\
  0 < len herd /\
  exists m,
    parse_condition plain_to_numeric fraction_str no_text
      (equality_text (L "breed") (L " ") [] (L "Holstein")) herd
    = (Ok m, herd) /\
    mask_at m 0
    = Some (match astype_str_cell fraction_str no_text
                    (Text (L "Holstein")) with
            | Some s => str_eqb s (L "Holstein")
            | None => false
            end) /\
    (forall s, Text (L "Holstein") = Text s ->
               mask_at m 0 = Some (str_eqb s (L "Holstein"))).
Proof.
  split; [reflexivity|]. split; [reflexivity|]. split; [discriminate|].
  split; [reflexivity|]. split; [reflexivity|]. split; [reflexivity|].
  split; [reflexivity|]. split; [unfold len; simpl; lia|].
  apply (text_equality_mask plain_to_numeric fraction_str no_text herd
           (L "breed") (L " ") (L "Holstein") 0 (Text (L "Holstein"))).
  - reflexivity.
  - reflexivity.
  - discriminate.
  - reflexivity.
  - reflexivity.
  - reflexivity.
  - reflexivity.
  - unfold len; simpl; lia.
Defined.

(** The text [breed = Holstein], with a blank on each side of the sign. *)
Lemma equality_after_blank_raises_witness :
  word (L "breed") = true /\ forallb is_space (L " ") = true /\
  blanks (L " ") = true /\ L " " <> [] /\
  L "Holstein" <> [] /\ trimmed (L "Holstein") = true /\
  stops is_listchar (L "Holstein") /\
  has_col herd (L "breed") = true /\
  parse_condition plain_to_numeric fraction_str no_text
    (equality_text (L "breed") (L " ") (L " ") (L "Holstein")) herd
  = (Raise ValueError, herd).
Proof.
  split; [reflexivity|]. split; [reflexivity|]. split; [reflexivity|].
  split; [discriminate|]. split; [discriminate|]. split; [reflexivity|].
  split; [reflexivity|]. split; [reflexivity|].
  apply (equality_after_blank_raises plain_to_numeric fraction_str no_text herd
           (L "breed") (L " ") (L " ") (L "Holstein")).
  - reflexivity.
  - reflexivity.
  - reflexivity.
  - discriminate.
  - discriminate.
  - reflexivity.
  - reflexivity.
  - reflexivity.
Defined.

(** The text [DIM > 45 days] runs as [DIM > 45]. *)
Lemma comparison_ignores_trailing_text_witness :
  word (L "DIM") = true /\ forallb is_digit (L "DIM") = false /\
  forallb is_numchar (L "45") = true /\ L "45" <> [] /\
  In (L ">", Qgt_bool) orderings /\ forallb is_space (L " ") = true /\
  stops is_numchar (L " days") /\ starts_clean (rev (L " days")) = true /\
  parse_condition plain_to_numeric fraction_str no_text
    (comparison_text (L "DIM") (L " ") (L ">") (L " ") (L "45")
     ++ L " days") herd
  = parse_condition plain_to_numeric fraction_str no_text
      (comparison_text (L "DIM") (L " ") (L ">") (L " ") (L "45")) herd.
Proof.
  split; [reflexivity|]. split; [reflexivity|]. split; [reflexivity|].
  split; [discriminate|]. split; [unfold orderings; simpl; auto|].
  split; [reflexivity|]. split; [reflexivity|]. split; [reflexivity|].
  apply (comparison_ignores_trailing_text plain_to_numeric fraction_str no_text
           herd
           (L "DIM") (L " ") (L ">") (L " ") (L "45") (L " days") Qgt_bool).
  - reflexivity.
  - reflexivity.
  - reflexivity.
  - discriminate.
  - unfold orderings; simpl; auto.
  - reflexivity.
  - reflexivity.
  - reflexivity.
  - reflexivity.
Defined.

(** The text [DIM > 45 AND FCM > 30], of 21 characters, with fuel 22. *)
Lemma evaluate_filter_terminates_witness :
  length (L "DIM > 45 AND FCM > 30") < 22 /\
  evaluate_filter_fuel plain_to_numeric fraction_str no_text 22
    (L "DIM > 45 AND FCM > 30") herd
  = evaluate_filter plain_to_numeric fraction_str no_text
      (L "DIM > 45 AND FCM > 30") herd /\
  fst (evaluate_filter plain_to_numeric fraction_str no_text
         (L "DIM > 45 AND FCM > 30") herd) <> OutOfFuel.
Proof.
  split; [simpl; lia|].
  apply (evaluate_filter_terminates plain_to_numeric fraction_str no_text 22
           (L "DIM > 45 AND FCM > 30") herd).
  simpl; lia.
Defined.

(** The text [(DIM > 45 OR FCM > 30)]. *)
Lemma evaluate_filter_parenthesized_witness :
  startswith (L "(") (strip (L "DIM > 45 OR FCM > 30"))
  && endswith (L ")") (strip (L "DIM > 45 OR FCM > 30")) = false /\
  evaluate_filter plain_to_numeric fraction_str no_text
    (L "(" ++ L "DIM > 45 OR FCM > 30" ++ L ")") herd
  = evaluate_filter plain_to_numeric fraction_str no_text
      (L "DIM > 45 OR FCM > 30") herd.
Proof.
  split; [reflexivity|].
  apply (evaluate_filter_parenthesized plain_to_numeric fraction_str no_text
           (L "DIM > 45 OR FCM > 30") herd).
  reflexivity.
Defined.

(** The text [ORIGIN = 2]: the name opens with [OR]. *)
Lemma comparison_is_one_condition_witness :
  word (L "ORIGIN") = true /\ plain_number (L "2") = true /\
  In (L "=") operators /\ forallb is_space (L " ") = true /\
  named (L "OR") (L "ORIGIN") = false /\
  named (L "AND") (L "ORIGIN") = false /\
  evaluate_filter plain_to_numeric fraction_str no_text
    (comparison_text (L "ORIGIN") (L " ") (L "=") (L " ") (L "2")) imports
  = parse_condition plain_to_numeric fraction_str no_text
      (comparison_text (L "ORIGIN") (L " ") (L "=") (L " ") (L "2")) imports.
Proof.
  split; [reflexivity|]. split; [reflexivity|].
  split; [unfold operators; simpl; auto 10|].
  split; [reflexivity|]. split; [reflexivity|]. split; [reflexivity|].
  apply (comparison_is_one_condition plain_to_numeric fraction_str no_text
           imports
           (L "ORIGIN") (L " ") (L "=") (L " ") (L "2")).
  - reflexivity.
  - reflexivity.
  - unfold operators; simpl; auto 10.
  - reflexivity.
  - reflexivity.
  - reflexivity.
  - reflexivity.
Defined.

(** The text [DIM > 60 and FCM > 30 or FCM < 25], with the keywords in
    lower case. *)
Lemma expression_is_or_of_ands_witness :
  named (L "OR") (L "or") = true /\ named (L "AND") (L "and") = true /\
  [[L "DIM > 60"; L "FCM > 30"]; [L "FCM < 25"]] <> [] /\
  Forall (fun g => g <> [] /\ Forall (fun c => atomic c = true) g)
         [[L "DIM > 60"; L "FCM > 30"]; [L "FCM < 25"]] /\
  evaluate_filter plain_to_numeric fraction_str no_text
    (disjunction (L "or") (L "and")
       [[L "DIM > 60"; L "FCM > 30"]; [L "FCM < 25"]]) herd
  = disjunction_run plain_to_numeric fraction_str no_text
      [[L "DIM > 60"; L "FCM > 30"]; [L "FCM < 25"]] herd.
Proof.
  assert (F : Forall (fun g => g <> [] /\ Forall (fun c => atomic c = true) g)
                     [[L "DIM > 60"; L "FCM > 30"]; [L "FCM < 25"]]).
  { repeat constructor; discriminate. }
  split; [reflexivity|]. split; [reflexivity|]. split; [discriminate|].
  split; [exact F|].
  apply (expression_is_or_of_ands plain_to_numeric fraction_str no_text herd
           (L "or") (L "and")
           [[L "DIM > 60"; L "FCM > 30"]; [L "FCM < 25"]]).
  - reflexivity.
  - reflexivity.
  - discriminate.
  - exact F.
Defined.

(** The herd has no column [nocol]. *)
Lemma unknown_column_selects_nothing_witness :
  word (L "nocol") = true /\ has_col herd (L "nocol") = false /\
  parse_condition plain_to_numeric fraction_str no_text
    (comparison_text (L "nocol") (L " ") (L "=") (L " ") (L "1,,2")) herd
  = (Ok (const_series false (len herd)), herd).
Proof.
  split; [reflexivity|]. split; [reflexivity|].
  destruct (unknown_column_selects_nothing plain_to_numeric fraction_str no_text
              herd (L "nocol") eq_refl eq_refl) as (_ & _ & H).
  apply (H (L " ") (L "=") (L " ") (L "1,,2")).
  - now left.
  - reflexivity.
  - discriminate.
  - reflexivity.
  - reflexivity.
  - reflexivity.
Defined.

(** The mask of [DIM > 45] on the herd. *)
Lemma returned_mask_fits_frame_witness :
  loaded herd /\
  parse_condition plain_to_numeric fraction_str no_text (L "DIM > 45") herd
  = (Ok [(0, false); (1, true); (2, true)], herd) /\
  labels [(0, false); (1, true); (2, true)] = index herd /\
  length [(0, false); (1, true); (2, true)] = len herd /\
  frame_kept plain_to_numeric herd herd.
Proof.
  split; [exact herd_loaded|]. split; [vm_compute; reflexivity|].
  apply (returned_mask_fits_frame plain_to_numeric fraction_str no_text herd
           (L "DIM > 45") [(0, false); (1, true); (2, true)] herd).
  - exact herd_loaded.
  - left. vm_compute. reflexivity.
Defined.

(** The second cow alone, under its label 1, with both boxes checked. *)
Lemma apply_bool_filters_by_label_witness :
  NoDup (index second_cow) /\ columns_ok second_cow /\
  Forall (fun f => has_col second_cow (fst f) = true)
         [(L "flag", (true, true))] /\
  exists m,
    apply_bool_filters second_cow [(L "flag", (true, true))] = Ok m /\
    forall i l, nth_error (index second_cow) i = Some l ->
      (l < len second_cow ->
         label_lookup l m
         = Some (all_sub_masks second_cow [(L "flag", (true, true))] i)) /\
      (len second_cow <= l -> label_lookup l m <> Some true).
Proof.
  assert (N : NoDup (index second_cow)).
  { repeat constructor. simpl. tauto. }
  assert (C : columns_ok second_cow) by (repeat constructor).
  assert (F : Forall (fun f => has_col second_cow (fst f) = true)
                     [(L "flag", (true, true))])
    by (repeat constructor).
  split; [exact N|]. split; [exact C|]. split; [exact F|].
  apply (apply_bool_filters_by_label second_cow [(L "flag", (true, true))]
           N C F).
Defined.

(** The herd with an empty filter text and the box [fresh = Blank]
    unchecked. *)
Definition toggled_session : World :=
  mkWorld (fun _ => herd) 1 0 0 [] [L "fresh"] [(L "fresh", (true, false))].

Lemma apply_toggles_alone_witness :
  loaded (heap toggled_session (df_loc toggled_session)) /\
  strip (filter_input toggled_session) = [] /\
  bool_cols toggled_session <> [] /\
  Forall (fun f => has_col (heap toggled_session (df_loc toggled_session))
                           (fst f) = true)
         (bool_filters toggled_session) /\
  exists w',
    apply plain_to_numeric fraction_str no_text toggled_session = (Ok tt, w') /\
    heap w' (session_filtered_df w')
    = rows_where
        (all_sub_masks (heap toggled_session (df_loc toggled_session))
                       (bool_filters toggled_session))
        (heap toggled_session (df_loc toggled_session)).
Proof.
  assert (F : Forall (fun f => has_col (heap toggled_session
                                          (df_loc toggled_session))
                                       (fst f) = true)
                     (bool_filters toggled_session))
    by (repeat constructor).
  split; [exact herd_loaded|]. split; [reflexivity|].
  split; [discriminate|]. split; [exact F|].
  apply (apply_toggles_alone plain_to_numeric fraction_str no_text
           toggled_session
           herd_loaded eq_refl).
  - discriminate.
  - exact F.
Defined.

(** The session of the herd with the filter [note > 5 AND DIM > 45]. *)
Lemma apply_selects_rows_witness :
  loaded (heap herd_session (df_loc herd_session)) /\
  0 < len (heap herd_session (df_loc herd_session)) /\
  (bool_cols herd_session <> [] -> bool_filters herd_session <> []) /\
  fst (apply plain_to_numeric fraction_str no_text herd_session) = Ok tt /\
  exists p d,
    frame_kept plain_to_numeric (heap herd_session (df_loc herd_session))
               d /\
    heap (snd (apply plain_to_numeric fraction_str no_text herd_session))
         (session_filtered_df
            (snd (apply plain_to_numeric fraction_str no_text
                    herd_session)))
    = rows_where p d /\
    index (heap (snd (apply plain_to_numeric fraction_str no_text
                        herd_session))
                (session_filtered_df
                   (snd (apply plain_to_numeric fraction_str no_text
                           herd_session))))
    = filter p (index (heap herd_session (df_loc herd_session))) /\
    map fst
      (columns (heap (snd (apply plain_to_numeric fraction_str no_text
                             herd_session))
                     (session_filtered_df
                        (snd (apply plain_to_numeric fraction_str no_text
                                herd_session)))))
    = map fst (columns (heap herd_session (df_loc herd_session))).
Proof.
  assert (R : fst (apply plain_to_numeric fraction_str no_text
                     herd_session) = Ok tt)
    by (vm_compute; reflexivity).
  assert (P : 0 < len (heap herd_session (df_loc herd_session)))
    by (unfold len; simpl; lia).
  split; [exact herd_loaded|]. split; [exact P|].
  split; [intros _; discriminate|]. split; [exact R|].
  apply (apply_selects_rows plain_to_numeric fraction_str no_text
           herd_session
           (snd (apply plain_to_numeric fraction_str no_text herd_session))
           herd_loaded P).
  - intros _. discriminate.
  - rewrite <- R. apply surjective_pairing.
Defined.

(** A session of the pen as it starts: its boolean-like columns are
    [dry] and [twin], and only the third row holds no [False] or 0. *)
Definition pen_session : World :=
  mkWorld (fun _ => pen) 1 0 0 [] (detect_bool_cols pen)
          (default_bool_filters (detect_bool_cols pen)).

Lemma pen_loaded : loaded pen.
Proof. split; [reflexivity | repeat constructor]. Qed.

Lemma pen_names : NoDup (all_cols pen).
Proof.
  repeat (constructor; [vm_compute; intuition discriminate|]).
  constructor.
Qed.

Lemma apply_default_toggles_witness :
  loaded (heap pen_session (df_loc pen_session)) /\
  NoDup (all_cols (heap pen_session (df_loc pen_session))) /\
  bool_cols pen_session
  = detect_bool_cols (heap pen_session (df_loc pen_session)) /\
  strip (filter_input pen_session) = [] /\
  bool_filters pen_session = default_bool_filters (bool_cols pen_session) /\
  exists w',
    apply plain_to_numeric fraction_str no_text pen_session = (Ok tt, w') /\
    heap w' (session_filtered_df w')
    = rows_where (no_false (heap pen_session (df_loc pen_session))
                           (bool_cols pen_session))
                 (heap pen_session (df_loc pen_session)).
Proof.
  split; [exact pen_loaded|]. split; [exact pen_names|].
  split; [reflexivity|]. split; [reflexivity|]. split; [reflexivity|].
  apply (apply_default_toggles plain_to_numeric fraction_str no_text pen_session
           pen_loaded pen_names eq_refl eq_refl eq_refl).
Defined.

(** A session of the pen with a filter text and a box unchecked. *)
Definition used_session : World :=
  mkWorld (fun _ => pen) 1 0 0 (L "id > 1") (detect_bool_cols pen)
          [(L "dry", (false, true)); (L "twin", (true, true))].

Lemma reset_then_apply_witness :
  df_loc used_session < next_loc used_session /\
  loaded (heap used_session (df_loc used_session)) /\
  NoDup (all_cols (heap used_session (df_loc used_session))) /\
  bool_cols used_session
  = detect_bool_cols (heap used_session (df_loc used_session)) /\
  exists w1 w2,
    reset used_session = (Ok tt, w1) /\
    heap w1 (session_filtered_df w1)
    = heap used_session (df_loc used_session) /\
    session_filtered_df w1 <> df_loc w1 /\
    apply plain_to_numeric fraction_str no_text w1 = (Ok tt, w2) /\
    heap w2 (session_filtered_df w2)
    = rows_where (no_false (heap used_session (df_loc used_session))
                           (bool_cols used_session))
                 (heap used_session (df_loc used_session)) /\
    heap w2 (df_loc w2) = heap used_session (df_loc used_session).
Proof.
  assert (L0 : df_loc used_session < next_loc used_session)
    by (simpl; lia).
  split; [exact L0|]. split; [exact pen_loaded|]. split; [exact pen_names|].
  split; [reflexivity|].
  apply (reset_then_apply plain_to_numeric fraction_str no_text used_session
           L0 pen_loaded pen_names eq_refl).
Defined.

(** The rows that the default toggles keep of the pen: the third alone. *)
Example pen_default_rows :
  detect_bool_cols pen = [L "dry"; L "twin"] /\
  rows_where (no_false pen (detect_bool_cols pen)) pen
  = mkDF [2] [(L "id", [num 3]); (L "dry", [Missing]); (L "twin", [num 1])].
Proof. vm_compute. split; reflexivity. Qed.

(** The text [(DIM > 45) AND (FCM > 30)]: its two conditions hold of the
    second cow, and no cow is selected. *)
Lemma operands_in_parentheses_witness :
  atomic (L "DIM > 45") = true /\ atomic (L "FCM > 30") = true /\
  endswith (L ")") (L "FCM > 30") = false /\
  named (L "AND") (L "AND") = true /\
  evaluate_filter plain_to_numeric fraction_str no_text
    (wrapped_pair (L "AND") (L "DIM > 45") (L "FCM > 30")) herd
  = (mask <- all_true ;;
     mA <- parse_condition plain_to_numeric fraction_str no_text
             (L "DIM > 45" ++ L ")") ;;
     mB <- all_false ;;
     ret (series_and (series_and mask mA) mB)) herd /\
  forall m df',
    evaluate_filter plain_to_numeric fraction_str no_text
      (wrapped_pair (L "AND") (L "DIM > 45") (L "FCM > 30")) herd
    = (Ok m, df') ->
    forall l, label_lookup l m <> Some true.
Proof.
  split; [reflexivity|]. split; [reflexivity|]. split; [reflexivity|].
  split; [reflexivity|].
  apply (operands_in_parentheses plain_to_numeric fraction_str no_text herd
           (L "AND") (L "DIM > 45") (L "FCM > 30") eq_refl eq_refl eq_refl).
  reflexivity.
Defined.

Example operands_in_parentheses_run :
  wrapped_pair (L "AND") (L "DIM > 45") (L "FCM > 30")
  = L "(DIM > 45) AND (FCM > 30)" /\
  fst (evaluate_filter plain_to_numeric fraction_str no_text
         (L "(DIM > 45) AND (FCM > 30)") herd)
  = Ok [(0, false); (1, false); (2, false)] /\
  fst (evaluate_filter plain_to_numeric fraction_str no_text
         (L "DIM > 45 AND FCM > 30") herd)
  = Ok [(0, false); (1, true); (2, false)].
Proof. vm_compute. repeat split; reflexivity. Qed.
